(** * Implied-volatility engine: a shallow embedding and its checked properties

    The development follows three translation units of the repository:

    - [calculate_sv_v5.c], the Heston path (Black-Scholes anchor, strike-grid
      cache, adaptive FFT configuration, calibration grid search) and
      [main], in module [SV5];
    - [calculate_sv_v4.c], its predecessor, where it differs (the cache key,
      the search grid, the blend with the anchor), in module [SV4];
    - [calculate_iv_v2.c], the Black-Scholes pricer [bs_call], the Newton
      solver [implied_vol] and [main], in module [IV2].

    Data.  A C [double] is an IEEE-754 binary64 value, which is exactly what
    Rocq's primitive [float] is: [+], [-], [*], [/], [sqrt], [fabs] and the
    comparisons below are the processor operations, NaN and the infinities
    included.  A C [int] is a [Z] (every [int] of the program is an array
    length or an index far below 2^31).  A heap array is a [list float]; a
    pointer that may be [NULL] is an [option].

    Environment.  Three things the program links against are not part of the
    repository and are parameters of the model:

    - the transcendental functions [exp], [log] and [erf] of the C library
      (record [Libm]);
    - the real part of the forward DFT that [init_fft_cache] obtains from
      FFTW, as a function of everything the transformed array is computed
      from (record [FFTJob] and the oracle [fft_re]).  The characteristic
      function [cf_heston] and the complex arithmetic feeding the transform
      sit behind that oracle;
    - the allocator and the signal machinery: [malloc], [fftw_malloc] and
      [fftw_plan_dft_1d] succeed and no [SIGFPE]/[SIGSEGV] is delivered, so
      the recovery branches guarded by [setjmp] are not taken;
    - the command line: [main] is modelled on what [strtod], [atoi], [atof]
      and [getopt_long] return for it (record [Strtod], the conversions
      passed as functions, record [CommandLine]); what goes to [stderr] is
      left out, and a printed volatility is the [double] handed to
      [printf].

    Rounding.  Where a property depends on how an operation rounds (the
    midpoints of the bisection, the interpolation between two cached
    prices, the sign of a difference), the operations are read through
    [SpecFloat], the reference semantics of the primitive operations, and a
    number is measured by its integer value in units of [2^-2148] (module
    [Binary64]).

    Every theorem below holds for every [Libm] and every DFT oracle.  Closed
    examples are evaluated with [ref_libm], a series implementation of the
    three functions that agrees with the usual C library to a few units in
    the last place. *)

From Stdlib Require Import Floats ZArith List Bool Lia.
From Stdlib Require Uint63.
From Stdlib Require String.
From Equations Require Import Equations.
Import ListNotations.
Import (notations) String.

#[local] Set Warnings "-inexact-float".
#[local] Open Scope float_scope.

(** ** C [double] helpers ([math.h], [float.h]) *)

Module Double.

Definition fabs (x : float) : float := abs x.

Definition isfinite (x : float) : bool := is_finite x.

(** [fmax] returns the larger argument and treats a NaN as missing data. *)
Definition fmax (x y : float) : float :=
  if is_nan x then y
  else if is_nan y then x
  else if x <? y then y else x.

Definition fmin (x y : float) : float :=
  if is_nan x then y
  else if is_nan y then x
  else if y <? x then y else x.

(** Conversion of an [int] to [double] (exact below 2^53). *)
Definition of_int (z : Z) : float :=
  let a := of_uint63 (Uint63.of_Z (Z.abs z)) in
  if (z <? 0)%Z then - a else a.

Definition DBL_MAX : float := 0x1.fffffffffffffp+1023.
Definition DBL_EPSILON : float := 0x1p-52.
Definition M_PI : float := 3.14159265358979323846.

(** [signed_nonneg x]: the sign bit of [x] is clear, or [x] is NaN. *)
Definition signed_nonneg (x : float) : Prop :=
  match Prim2SF x with
  | S754_zero s | S754_infinity s | S754_finite s _ _ => s = false
  | S754_nan => True
  end.

Definition sf_sign_is (s : bool) (x : spec_float) : Prop :=
  match x with
  | S754_zero s' | S754_infinity s' | S754_finite s' _ _ => s' = s
  | S754_nan => True
  end.

(** The outcome of comparing [a] with [c], from the outcomes of comparing
    [a] with [b] and [b] with [c] when neither is [Gt]. *)
Definition comp_join (x y : comparison) : comparison :=
  match x with Eq => y | _ => x end.

End Double.
Import Double.

(** ** The C library's transcendental functions *)

Record Libm : Type := MkLibm {
c_exp : float -> float;
c_log : float -> float;
c_erf : float -> float
}.

(** *** A reference implementation, used to evaluate closed examples *)

Module RefLibm.

(** Integer value of a float that holds an integer. *)
Definition float_trunc_Z (x : float) : Z :=
  match Prim2SF x with
  | S754_finite s m e =>
      let v := Z.shiftl (Zpos m) e in if s then Z.opp v else v
  | _ => 0%Z
  end.

Fixpoint exp_horner (r : float) (n : nat) (acc : float) : float :=
  match n with
  | O => acc
  | S k => exp_horner r k (1 + r / of_int (Z.of_nat n) * acc)
  end.

(** [exp x = 2^k * exp r] with [x = k ln 2 + r], [|r| <= ln 2 / 2]. *)
Definition exp (x : float) : float :=
  if is_nan x then nan
  else if 709.782712893384 <? x then infinity
  else if x <? -745.2 then 0
  else
    let kf := (x * 1.4426950408889634 + 6755399441055744) - 6755399441055744 in
    let r := (x - kf * 0.693147180369123816490)
             - kf * 1.90821492927058770002e-10 in
    Z.ldexp (exp_horner r 16 1) (float_trunc_Z kf).

Fixpoint atanh_series (s2 : float) (n : nat) (k : Z) (pw acc : float) : float :=
  match n with
  | O => acc
  | S n' => atanh_series s2 n' (k + 2)%Z (pw * s2) (acc + pw / of_int k)
  end.

(** [log x = e ln 2 + 2 atanh ((m - 1) / (m + 1))] with [x = m 2^e]. *)
Definition log (x : float) : float :=
  if is_nan x then nan
  else if x <? 0 then nan
  else if x =? 0 then neg_infinity
  else if x =? infinity then infinity
  else
    let (m, e) := Z.frexp x in
    let (m, e) :=
      if m <? 0.7071067811865476 then (m * 2, (e - 1)%Z) else (m, e) in
    let s := (m - 1) / (m + 1) in
    let ef := of_int e in
    ef * 0.693147180369123816490
    + (ef * 1.90821492927058770002e-10
       + 2 * s * atanh_series (s * s) 14 1 1 0).

Fixpoint erf_series (t : float) (n : nat) (k : Z) (term acc : float) : float :=
  match n with
  | O => acc
  | S n' =>
      erf_series t n' (k + 2)%Z (term * t / of_int (k + 2)) (acc + term)
  end.

(** [erf a = 2/sqrt(pi) exp(-a^2) sum_n 2^n a^(2n+1) / (2n+1)!!]. *)
Definition erf (x : float) : float :=
  if is_nan x then nan
  else
    let a := abs x in
    let v :=
      if 6 <? a then 1
      else 1.1283791670955126 * exp (- (a * a))
           * erf_series (2 * a * a) 200 1 a 0 in
    if x <? 0 then - v else v.

End RefLibm.

Definition ref_libm : Libm := MkLibm RefLibm.exp RefLibm.log RefLibm.erf.

(** ** The C library's string conversions *)

(** What [strtod] reports about a string: the value converted, whether
    [errno] was set to [ERANGE], and whether any character was consumed
    ([endptr != str]). *)
Record Strtod : Type := MkStrtod {
  sd_value : float;
  sd_erange : bool;
  sd_converted : bool
}.

(** ** [calculate_iv_v2.c]: the Black-Scholes pricer *)

Module IV2.
Section WithLibm.

Variable L : Libm.

(** [cdf] (lines 9-11): the standard normal distribution function. *)
Definition cdf (x : float) : float :=
  0.5 * (1.0 + c_erf L (x / sqrt 2.0)).

(** [bs_call] (lines 19-75), branch by branch. *)
Definition bs_call (S K T r q sigma : float) : float :=
  if (sigma <=? 0) || (T <=? 0) || (S <=? 0) || (K <=? 0) then -1.0
  else if sigma <? 0.0001 then
    if K * c_exp L (- r * T) <? S * c_exp L (- q * T)
    then S * c_exp L (- q * T) - K * c_exp L (- r * T)
    else 0.0
  else
    let sqrt_T := sqrt T in
    if sqrt_T <? DBL_EPSILON then fmax 0.0 (S - K * c_exp L (- r * T))
    else
      let sigmaSqrtT := sigma * sqrt_T in
      if sigmaSqrtT <? DBL_EPSILON then fmax 0.0 (S - K * c_exp L (- r * T))
      else
        let forward := S * c_exp L ((r - q) * T) in
        let d1 := (c_log L (forward / K) + 0.5 * sigma * sigma * T)
                  / sigmaSqrtT in
        let d2 := d1 - sigmaSqrtT in
        if negb (isfinite d1) || negb (isfinite d2) then
          if 100 <? d1 then S * c_exp L (- q * T)
          else if d2 <? -100 then 0
          else -1.0
        else
          let N_d1 := cdf d1 in
          let N_d2 := cdf d2 in
          if negb (isfinite N_d1) || negb (isfinite N_d2) then -1.0
          else
            let call_price :=
              S * c_exp L (- q * T) * N_d1 - K * c_exp L (- r * T) * N_d2 in
            if 0 <? call_price then call_price else 0.

(** [pdf] (lines 14-16): the standard normal density. *)
Definition pdf (x : float) : float :=
  c_exp L (- 0.5 * x * x) / sqrt (2.0 * M_PI).

(** [bs_vega] (lines 78-102): the derivative of the price in [sigma], [0.0]
    wherever it cannot be computed. *)
Definition bs_vega (S K T r q sigma : float) : float :=
  if (sigma <=? 0) || (T <=? 0) || (S <=? 0) || (K <=? 0) then 0.0
  else
    let sqrt_T := sqrt T in
    if sqrt_T <? DBL_EPSILON then 0.0
    else
      let sigmaSqrtT := sigma * sqrt_T in
      if sigmaSqrtT <? DBL_EPSILON then 0.0
      else
        let d1 := (c_log L (S / K) + (r - q + 0.5 * sigma * sigma) * T)
                  / sigmaSqrtT in
        if negb (isfinite d1) then 0.0
        else S * c_exp L (- q * T) * pdf d1 * sqrt_T.

(** How the Newton-Raphson loop of [implied_vol] ends: by one of its two
    [return] statements, or by leaving the loop ([break], or [max_iter]
    iterations) with the locals [best_sigma] and [min_diff]. *)
Inductive Newton : Type :=
| Returned (sigma : float)
| LeftLoop (best_sigma min_diff : float).

(** The loop of [implied_vol] (lines 178-221): [iters] iterations from the
    locals [sigma], [best_sigma], [min_diff]. *)
Fixpoint newton (market_price S K T r q : float) (iters : nat)
    (sigma best_sigma min_diff : float) : Newton :=
  match iters with
  | O => LeftLoop best_sigma min_diff
  | Datatypes.S k =>
      let price := bs_call S K T r q sigma in
      if price <? 0 then LeftLoop best_sigma min_diff
      else
        let diff := price - market_price in
        let improves := fabs diff <? min_diff in
        let best_sigma := if improves then sigma else best_sigma in
        let min_diff := if improves then fabs diff else min_diff in
        if fabs diff <? 1e-8 then Returned sigma
        else
          let vega := bs_vega S K T r q sigma in
          if fabs vega <? 1e-8 then LeftLoop best_sigma min_diff
          else
            let new_sigma := sigma - (diff / vega) * 0.5 in
            if (new_sigma <=? 0.001) || (1.0 <? new_sigma)
               || negb (isfinite new_sigma)
            then LeftLoop best_sigma min_diff
            else if fabs (new_sigma - sigma) <? 1e-8 then Returned new_sigma
            else newton market_price S K T r q k new_sigma best_sigma min_diff
  end.

(** The initial guess of [implied_vol] (lines 144-163). *)
Definition init_vol (S K T : float) : float :=
  let moneyness := K / S in
  let init_vol :=
    if moneyness <? 0.95 then 0.2 - 0.05 * (1 - moneyness)
    else if 1.05 <? moneyness then 0.2 + 0.05 * (moneyness - 1)
    else 0.2 in
  let init_vol :=
    if T <? 0.1 then init_vol * 1.2
    else if 2 <? T then init_vol * 0.9
    else init_vol in
  let init_vol := if init_vol <? 0.01 then 0.2 else init_vol in
  if 1.0 <? init_vol then 0.3 else init_vol.

(** The estimate [implied_vol] falls back on (lines 228-247). *)
Definition reasonable_vol (S K T : float) : float :=
  let moneyness := K / S in
  let reasonable_vol :=
    if moneyness <? 0.9 then 0.15
    else if 1.1 <? moneyness then 0.25
    else 0.2 in
  if T <? 0.1 then reasonable_vol * 1.2
  else if 2 <? T then reasonable_vol * 0.9
  else reasonable_vol.

(** [implied_vol] (lines 105-248): [-1] is the failure sentinel. *)
Definition implied_vol (market_price S K T r q : float) : float :=
  if (market_price <=? 0.0) || (S <=? 0.0) || (K <=? 0.0) || (T <=? 0.0)
  then -1.0
  else
    let intrinsic := fmax 0.0 (S - K * c_exp L (- r * T)) in
    let discounted_S := S * c_exp L (- q * T) in
    if (discounted_S <=? market_price)
       && (fabs (market_price - discounted_S) <? 1e-6)
    then 0.3
    else if market_price <? intrinsic - 1e-6 then 0.2
    else
      let atm_approx := sqrt (2 * M_PI / T) * market_price / S in
      if (fabs (S - K) <? 0.001 * S)
         && ((0.1 <=? atm_approx) && (atm_approx <=? 0.5)
             && isfinite atm_approx)
      then atm_approx
      else
        let init_vol := init_vol S K T in
        let initial_price := bs_call S K T r q init_vol in
        if fabs (initial_price - market_price) <? 0.001 then init_vol
        else
          match newton market_price S K T r q 50 init_vol init_vol DBL_MAX with
          | Returned sigma => sigma
          | LeftLoop best_sigma min_diff =>
              if (0.01 <? best_sigma) && (best_sigma <? 1.0)
                 && (min_diff <? 0.1)
              then best_sigma
              else reasonable_vol S K T
          end.

End WithLibm.

(** How a run of [main] ends: the exit status and, when a volatility was
    printed, the [double] handed to [printf]. *)
Record Outcome : Type := MkOutcome {
  status : Z;
  printed : option float
}.

Section Program.

Variable L : Libm.
Variable strtod : String.string -> Strtod.

(** [safe_atof] (lines 251-275); [None] stands for [exit(1)].  Trailing
    characters only draw a warning. *)
Definition safe_atof (str : String.string) : option float :=
  let c := strtod str in
  if sd_erange c then None
  else if negb (sd_converted c) then None
  else Some (sd_value c).

(** [x = safe_atof(str); rest], the process ending with status 1 when
    [safe_atof] exits. *)
Definition parse (str : String.string) (rest : float -> Outcome) : Outcome :=
  match safe_atof str with
  | Some x => rest x
  | None => MkOutcome 1 None
  end.

(** [main] (lines 277-324), on [argv[0 .. argc-1]]. *)
Definition main (argv : list String.string) : Outcome :=
  if negb (Z.of_nat (length argv) =? 7)%Z then MkOutcome 1 None
  else
    let arg i := nth i argv String.EmptyString in
    parse (arg 1%nat) (fun market_price =>
    parse (arg 2%nat) (fun S =>
    parse (arg 3%nat) (fun K =>
    parse (arg 4%nat) (fun T =>
    parse (arg 5%nat) (fun r =>
    parse (arg 6%nat) (fun q =>
      if market_price <=? 0.0 then MkOutcome 1 None
      else if S <=? 0.0 then MkOutcome 1 None
      else if K <=? 0.0 then MkOutcome 1 None
      else if T <=? 0.0 then MkOutcome 1 None
      else
        let iv := implied_vol L market_price S K T r q in
        if iv <? 0 then MkOutcome 1 None
        else MkOutcome 0 (Some iv))))))).

End Program.

End IV2.

(** ** [calculate_sv_v5.c]: the Heston path *)

Module SV5.

(** *** File-scope state *)

(** [FFTCache]: the single-slot strike-grid cache. *)
Record FFTCache : Type := MkFFTCache {
  cache_S : float;
  cache_r : float;
  cache_q : float;
  cache_T : float;
  cache_v0 : float;
  cache_kappa : float;
  cache_theta : float;
  cache_sigma : float;
  cache_rho : float;
  prices : option (list float);
  strikes : option (list float);
  num_strikes : Z;
  is_valid : bool;
  cache_fft_n : Z;
  cache_log_strike_range : float;
  cache_alpha : float;
  cache_eta : float
}.

(** [FFTPrecomputed]: the tags of the precomputed tables.  The tables
    themselves (Simpson weights, [exp(-i v ln S)]) are functions of the tags
    and only feed the transform. *)
Record FFTPrecomputed : Type := MkFFTPrecomputed {
  pre_is_valid : bool;
  pre_fft_n : Z;
  pre_eta : float;
  pre_alpha : float;
  pre_S : float
}.

(** The globals [g_fft_n], [g_log_strike_range], [g_alpha], [g_eta],
    [g_cache_tolerance], [g_cache], [g_precomputed], [g_found_good_match]. *)
Record Globals : Type := MkGlobals {
  g_fft_n : Z;
  g_log_strike_range : float;
  g_alpha : float;
  g_eta : float;
  g_cache_tolerance : float;
  g_cache : FFTCache;
  g_precomputed : FFTPrecomputed;
  g_found_good_match : bool
}.

Definition initial_cache : FFTCache :=
  MkFFTCache 0.0 0.0 0.0 0.0 0.0 0.0 0.0 0.0 0.0 None None 0 false 0 0.0 0.0 0.0.

Definition initial_precomputed : FFTPrecomputed :=
  MkFFTPrecomputed false 0 0.0 0.0 0.0.

(** The initialisers of the file-scope variables. *)
Definition initial_globals : Globals :=
  MkGlobals 4096 3.0 1.5 0.05 1e-5 initial_cache initial_precomputed false.

Definition set_cache (g : Globals) (c : FFTCache) : Globals :=
  MkGlobals (g_fft_n g) (g_log_strike_range g) (g_alpha g) (g_eta g)
    (g_cache_tolerance g) c (g_precomputed g) (g_found_good_match g).

Definition set_precomputed (g : Globals) (p : FFTPrecomputed) : Globals :=
  MkGlobals (g_fft_n g) (g_log_strike_range g) (g_alpha g) (g_eta g)
    (g_cache_tolerance g) (g_cache g) p (g_found_good_match g).

Definition set_found (g : Globals) (b : bool) : Globals :=
  MkGlobals (g_fft_n g) (g_log_strike_range g) (g_alpha g) (g_eta g)
    (g_cache_tolerance g) (g_cache g) (g_precomputed g) b.

(** Assignment to the four FFT settings. *)
Definition set_fft (g : Globals) (n : Z) (range alpha eta : float) : Globals :=
  MkGlobals n range alpha eta
    (g_cache_tolerance g) (g_cache g) (g_precomputed g) (g_found_good_match g).

(** *** The transform, seen from the cache *)

(** Everything the array handed to FFTW is computed from: the option and
    model parameters passed to [cf_heston], the grid ([g_fft_n], [g_alpha],
    [g_eta]) and the spot the precomputed exponential table was built for. *)
Record FFTJob : Type := MkFFTJob {
  job_S : float;
  job_r : float;
  job_q : float;
  job_T : float;
  job_v0 : float;
  job_kappa : float;
  job_theta : float;
  job_sigma : float;
  job_rho : float;
  job_n : Z;
  job_alpha : float;
  job_eta : float;
  job_table_S : float
}.

(** A Heston parameter tuple as the grid search visits it. *)
Record Tuple : Type := MkTuple {
  t_v0 : float;
  t_kappa : float;
  t_theta : float;
  t_sigma : float;
  t_rho : float
}.

(** [a[i] = x]; a store outside the block is dropped. *)
Fixpoint store (a : list float) (i : nat) (x : float) : list float :=
  match a, i with
  | [], _ => []
  | _ :: t, O => x :: t
  | h :: t, S j => h :: store t j x
  end.

(** [a[i]]. *)
Definition load (a : list float) (i : Z) : float := nth (Z.to_nat i) a nan.

(** The indices [0 .. n-1] of a [for (int i = 0; i < n; i++)] loop. *)
Definition indices (n : Z) : list Z := map Z.of_nat (seq 0 (Z.to_nat n)).

(** The binary search of [get_cached_option_price]:
    [while (idx_high - idx_low > 1) { mid = (idx_low + idx_high) / 2; ... }]. *)
Equations? bsearch (ks : list float) (K : float) (idx_low idx_high : Z) : Z * Z
  by wf (Z.to_nat (idx_high - idx_low)) lt :=
bsearch ks K idx_low idx_high with Z_lt_dec 1 (idx_high - idx_low) => {
  | left _ =>
      if load ks (Z.quot (idx_low + idx_high) 2) <? K
      then bsearch ks K (Z.quot (idx_low + idx_high) 2) idx_high
      else bsearch ks K idx_low (Z.quot (idx_low + idx_high) 2);
  | right _ => (idx_low, idx_high) }.
Proof.
  all: pose proof (Z.quot_rem' (idx_low + idx_high) 2) as E;
    pose proof (Z.rem_bound_abs (idx_low + idx_high) 2) as B;
    lia.
Qed.

Section Engine.

Variable L : Libm.
Variable fft_re : FFTJob -> Z -> float.

(** [black_scholes_call] (lines 180-192): the closed form, used for the
    anchor and as the fallback price. *)
Definition black_scholes_call (S K T r q sigma : float) : float :=
  if (sigma <=? 0) || (T <=? 0) || (S <=? 0) || (K <=? 0) then -1.0
  else
    let d1 := (c_log L (S / K) + (r - q + 0.5 * sigma * sigma) * T)
              / (sigma * sqrt T) in
    let d2 := d1 - sigma * sqrt T in
    let N_d1 := 0.5 * (1.0 + c_erf L (d1 / sqrt 2.0)) in
    let N_d2 := 0.5 * (1.0 + c_erf L (d2 / sqrt 2.0)) in
    S * c_exp L (- q * T) * N_d1 - K * c_exp L (- r * T) * N_d2.

(** The bisection loop of [bs_implied_vol] (lines 236-251); [vol_mid] is the
    local that the function returns when the iterations run out. *)
Fixpoint bisection (market_price S K T r q : float) (iters : nat)
    (vol_low vol_high vol_mid : float) : float :=
  match iters with
  | O => vol_mid
  | Datatypes.S k =>
      let vol_mid := (vol_low + vol_high) * 0.5 in
      let price_mid := black_scholes_call S K T r q vol_mid in
      if fabs (price_mid - market_price) <? 1e-6 then vol_mid
      else if price_mid <? market_price
           then bisection market_price S K T r q k vol_mid vol_high vol_mid
           else bisection market_price S K T r q k vol_low vol_mid vol_mid
  end.

(** The local [intrinsic] of [bs_implied_vol] (line 202). *)
Definition intrinsic (S K T r q : float) : float :=
  fmax 0.0 (S * c_exp L (- q * T) - K * c_exp L (- r * T)).

(** [bs_implied_vol] (lines 195-252): [-1.0] is the failure sentinel. *)
Definition bs_implied_vol (market_price S K T r q : float) : float :=
  if (market_price <=? 0.0) || (S <=? 0.0) || (K <=? 0.0) || (T <=? 0.0)
  then -1.0
  else
    if market_price <? intrinsic S K T r q then -1.0
    else
      let vol_low := 0.001 in
      let vol_high := 2.0 in
      let price_low := black_scholes_call S K T r q vol_low in
      let price_high := black_scholes_call S K T r q vol_high in
      if (market_price <=? price_low) || (price_high <=? market_price)
      then -1.0
      else bisection market_price S K T r q 100 vol_low vol_high vol_low.

(** [precompute_fft_values] (lines 255-340): reuse the tables when their
    tags match. *)
Definition precompute_fft_values (g : Globals) (S : float) : Globals :=
  let p := g_precomputed g in
  if pre_is_valid p
     && (pre_fft_n p =? g_fft_n g)%Z
     && (pre_eta p =? g_eta g)
     && (pre_alpha p =? g_alpha g)
     && (fabs (pre_S p - S) <? g_cache_tolerance g)
  then g
  else set_precomputed g (MkFFTPrecomputed true (g_fft_n g) (g_eta g) (g_alpha g) S).

(** The test at the head of [init_fft_cache] (lines 362-370): the cache is
    reused when it is valid and the option data and the FFT settings agree
    with its tags. *)
Definition cache_hit (g : Globals) (S r q T : float) : bool :=
  let c := g_cache g in
  is_valid c
  && (fabs (cache_S c - S) <? g_cache_tolerance g)
  && (fabs (cache_r c - r) <? g_cache_tolerance g)
  && (fabs (cache_q c - q) <? g_cache_tolerance g)
  && (fabs (cache_T c - T) <? g_cache_tolerance g)
  && (cache_fft_n c =? g_fft_n g)%Z
  && (fabs (cache_log_strike_range c - g_log_strike_range g) <? g_cache_tolerance g)
  && (fabs (cache_alpha c - g_alpha g) <? g_cache_tolerance g)
  && (fabs (cache_eta c - g_eta g) <? g_cache_tolerance g).

(** The extraction loop (lines 505-533) at index [i] under the settings
    [range], [alpha], [n]: the log-strike, the strike stored in [strikes[i]] and the price
    stored in [prices[i]]. *)
Definition grid_log_strike (range : float) (n : Z) (S : float) (i : Z) : float :=
  let log_S := c_log L S in
  let range_factor := 2.0 * range / of_int n in
  log_S - range + range_factor * of_int i.

Definition grid_strike (range : float) (n : Z) (S : float) (i : Z) : float :=
  c_exp L (grid_log_strike range n S i).

Definition grid_price (range alpha : float) (n : Z) (job : FFTJob)
    (S : float) (i : Z) : float :=
  let log_K := grid_log_strike range n S i in
  let inv_pi := 1.0 / M_PI in
  let real_part := fft_re job i in
  let real_part := if negb (isfinite real_part) then 0.0 else real_part in
  let exp_factor := c_exp L (- alpha * log_K) * inv_pi in
  let price_part := real_part * exp_factor in
  fmax 0.0 price_part.

Definition extract_step (g : Globals) (job : FFTJob) (S : float)
    (arrays : list float * list float) (i : Z) : list float * list float :=
  (store (fst arrays) (Z.to_nat i)
     (grid_price (g_log_strike_range g) (g_alpha g) (g_fft_n g) job S i),
   store (snd arrays) (Z.to_nat i)
     (grid_strike (g_log_strike_range g) (g_fft_n g) S i)).

(** [for (int i = 0; i < g_fft_n; i++)] over the two cache arrays. *)
Definition extract (g : Globals) (job : FFTJob) (S : float)
    (arrays : list float * list float) : list float * list float :=
  fold_left (extract_step g job S) (indices (g_fft_n g)) arrays.

Definition free_arrays (c : FFTCache) : FFTCache :=
  MkFFTCache (cache_S c) (cache_r c) (cache_q c) (cache_T c) (cache_v0 c)
    (cache_kappa c) (cache_theta c) (cache_sigma c) (cache_rho c)
    None None (num_strikes c) (is_valid c) (cache_fft_n c)
    (cache_log_strike_range c) (cache_alpha c) (cache_eta c).

(** Two fresh blocks of [n] doubles (their initial content is never read). *)
Definition alloc_arrays (c : FFTCache) (n : Z) : FFTCache :=
  MkFFTCache (cache_S c) (cache_r c) (cache_q c) (cache_T c) (cache_v0 c)
    (cache_kappa c) (cache_theta c) (cache_sigma c) (cache_rho c)
    (Some (repeat 0.0 (Z.to_nat n))) (Some (repeat 0.0 (Z.to_nat n)))
    n (is_valid c) (cache_fft_n c)
    (cache_log_strike_range c) (cache_alpha c) (cache_eta c).

Definition block (a : option (list float)) : list float :=
  match a with Some l => l | None => [] end.

(** The storage step of [init_fft_cache] (lines 383-419): the arrays are
    released when the grid size changed, and allocated when there are
    none. *)
Definition prepare_arrays (g : Globals) : FFTCache :=
  let c := g_cache g in
  let c :=
    if is_valid c
       && (negb (cache_fft_n c =? g_fft_n g)%Z
           || negb (num_strikes c =? g_fft_n g)%Z)
    then free_arrays c else c in
  match prices c with
  | None => alloc_arrays c (g_fft_n g)
  | Some _ => c
  end.

(** [init_fft_cache] (lines 343-572). *)
Definition init_fft_cache (g : Globals)
    (S r q T v0 kappa theta sigma rho : float) : Globals :=
  if cache_hit g S r q T then g
  else
    let c := prepare_arrays g in
    let g := precompute_fft_values (set_cache g c) S in
    let job :=
      MkFFTJob S r q T v0 kappa theta sigma rho
        (g_fft_n g) (g_alpha g) (g_eta g) (pre_S (g_precomputed g)) in
    let arrays := extract g job S (block (prices c), block (strikes c)) in
    set_cache g
      (MkFFTCache S r q T v0 kappa theta sigma rho
         (Some (fst arrays)) (Some (snd arrays)) (num_strikes c) true
         (g_fft_n g) (g_log_strike_range g) (g_alpha g) (g_eta g)).

(** The last step of [get_cached_option_price] (lines 621-647): linear
    interpolation between
    the two bracketing grid points, or [-1.0] when a bracketing price is not
    finite. *)
Definition interpolate (ps ks : list float) (idx_low idx_high : Z)
    (K : float) : float :=
  let K_low := load ks idx_low in
  let K_high := load ks idx_high in
  let price_low := load ps idx_low in
  let price_high := load ps idx_high in
  if negb (isfinite price_low) || negb (isfinite price_high) then -1.0
  else
    let weight := (K - K_low) / (K_high - K_low) in
    price_low + weight * (price_high - price_low).

(** [get_cached_option_price] (lines 575-648): [-1.0] signals an unusable
    cache. *)
Definition get_cached_option_price (g : Globals) (K : float) : float :=
  let c := g_cache g in
  match is_valid c, prices c, strikes c with
  | true, Some ps, Some ks =>
      if K <=? load ks 0 then load ps 0
      else if load ks (num_strikes c - 1) <=? K
      then load ps (num_strikes c - 1)
      else
        let (idx_low, idx_high) := bsearch ks K 0 (num_strikes c - 1) in
        interpolate ps ks idx_low idx_high K
  | _, _, _ => -1.0
  end.

(** [is_challenging_parameter_set] (lines 651-680). *)
Definition is_challenging_parameter_set
    (S K T v0 kappa theta sigma rho : float) : bool :=
  let moneyness := K / S in
  if (2.0 <? moneyness) || (moneyness <? 0.5) then true
  else if (T <? 0.15) && (0.04 <? v0) then true
  else if (1.0 <? sigma) || (0.9 <? fabs rho) then true
  else false.

(** [adapt_fft_parameters] (lines 683-721). *)
Definition adapt_fft_parameters (g : Globals) (S K T : float) : Globals :=
  let moneyness := K / S in
  let g :=
    if (1.5 <? moneyness) || (moneyness <? 0.7)
    then set_fft g 8192 4.0 (g_alpha g) (g_eta g) else g in
  let g :=
    if T <? 0.1
    then set_fft g (g_fft_n g) (g_log_strike_range g) 1.25 0.025 else g in
  if 2.0 <? T
  then set_fft g (g_fft_n g) (g_log_strike_range g) (g_alpha g) 0.1 else g.

(** The tail of [heston_call_fft] (lines 772-785): read the price, fall back
    to Black-Scholes when the cache cannot give one. *)
Definition price_or_fallback (g : Globals) (S K T r q v0 : float) : float :=
  let price := get_cached_option_price g K in
  if (price <? 0.0) || negb (isfinite price)
  then black_scholes_call S K T r q (sqrt v0)
  else price.

(** The settings under which [heston_call_fft] first calls
    [init_fft_cache] (lines 726-732). *)
Definition configure (g : Globals)
    (S K T v0 kappa theta sigma rho : float) : Globals :=
  if is_challenging_parameter_set S K T v0 kappa theta sigma rho
  then adapt_fft_parameters g S K T else g.

(** [heston_call_fft] (lines 724-786): the price and the globals it leaves
    behind. *)
Definition heston_call_fft (g : Globals)
    (S K T r q v0 kappa theta sigma rho : float) : float * Globals :=
  let g := configure g S K T v0 kappa theta sigma rho in
  let g := init_fft_cache g S r q T v0 kappa theta sigma rho in
  if negb (is_valid (g_cache g)) then
    let g := set_fft g 8192 (g_log_strike_range g) 1.0 0.1 in
    let g := init_fft_cache g S r q T v0 kappa theta sigma rho in
    if negb (is_valid (g_cache g)) then
      let g := set_fft g 2048 (g_log_strike_range g) 1.25 0.075 in
      let g := init_fft_cache g S r q T v0 kappa theta sigma rho in
      if negb (is_valid (g_cache g))
      then (black_scholes_call S K T r q (sqrt v0), g)
      else (price_or_fallback g S K T r q v0, g)
    else (price_or_fallback g S K T r q v0, g)
  else (price_or_fallback g S K T r q v0, g).

(** *** Calibration *)

(** The locals of [implied_vol_sv] that the grid search updates, the globals
    it threads through the pricer, and (as a ghost) the tuples priced so far,
    latest first. *)
Record Calib : Type := MkCalib {
  cal_globals : Globals;
  best_diff : float;
  best_v : float;
  best_kappa : float;
  best_theta : float;
  best_sigma : float;
  best_rho : float;
  priced : list Tuple
}.

(** [for (idx = 0; idx < NUM && !g_found_good_match; idx++)] over the values
    of one parameter array. *)
Fixpoint search_loop {A : Type} (body : A -> Calib -> Calib)
    (values : list A) (c : Calib) : Calib :=
  match values with
  | [] => c
  | x :: rest =>
      if g_found_good_match (cal_globals c) then c
      else search_loop body rest (body x c)
  end.

(** The body of the innermost loop (lines 901-930). *)
Definition try_tuple (market_price S K T r q : float)
    (test_v0 test_theta test_kappa test_sigma test_rho : float)
    (c : Calib) : Calib :=
  let (model_price, g) :=
    heston_call_fft (cal_globals c) S K T r q
      test_v0 test_kappa test_theta test_sigma test_rho in
  let test_diff := fabs (model_price - market_price) in
  let seen := MkTuple test_v0 test_kappa test_theta test_sigma test_rho
              :: priced c in
  if test_diff <? best_diff c then
    let g := if test_diff <? 0.005 * market_price then set_found g true else g in
    MkCalib g test_diff test_v0 test_kappa test_theta test_sigma test_rho seen
  else
    MkCalib g (best_diff c) (best_v c) (best_kappa c) (best_theta c)
      (best_sigma c) (best_rho c) seen.

(** The innermost loop body, applied to a tuple. *)
Definition visit (market_price S K T r q : float) (t : Tuple) (c : Calib) : Calib :=
  try_tuple market_price S K T r q
    (t_v0 t) (t_theta t) (t_kappa t) (t_sigma t) (t_rho t) c.

(** The seeds [init_v0], [init_kappa] (with the time adjustment) and
    [init_theta] (lines 805-837). *)
Definition init_v0 (S K T r q bs_iv : float) : float :=
  let forward := S * c_exp L ((r - q) * T) in
  let moneyness := forward / K in
  if 1.1 <? moneyness then bs_iv * bs_iv * 1.1
  else if moneyness <? 0.9 then bs_iv * bs_iv * 1.05
  else bs_iv * bs_iv.

Definition init_kappa (S K T r q : float) : float :=
  let forward := S * c_exp L ((r - q) * T) in
  let moneyness := forward / K in
  let init_kappa :=
    if 1.1 <? moneyness then 2.0
    else if moneyness <? 0.9 then 1.5
    else 1.0 in
  if T <? 0.1 then 3.0
  else if 1.0 <? T then 0.5
  else init_kappa.

Definition init_theta (S K T r q bs_iv : float) : float :=
  let forward := S * c_exp L ((r - q) * T) in
  let moneyness := forward / K in
  if 1.1 <? moneyness then bs_iv * bs_iv * 1.05
  else bs_iv * bs_iv.

Definition v0_values (v0 : float) : list float :=
  [v0; v0 * 0.85; v0 * 1.15; v0 * 0.7; v0 * 1.3].

Definition kappa_values (kappa : float) : list float :=
  [kappa; kappa * 1.5; kappa * 0.5].

Definition sigma_values : list float := [0.2; 0.4; 0.6].

Definition rho_values : list float := [-0.7; -0.4; 0.0].

(** The locals before the loops: [best_diff = DBL_MAX], the seeds,
    [best_sigma = 0.4], [best_rho = -0.7]; the flag is reset. *)
Definition start_state (g : Globals) (S K T r q bs_iv : float) : Calib :=
  MkCalib (set_found g false) DBL_MAX (init_v0 S K T r q bs_iv)
    (init_kappa S K T r q) (init_theta S K T r q bs_iv) 0.4 (-0.7) [].

(** The grid search of [implied_vol_sv] (lines 805-934), from the seeds to
    the end of the four nested loops. *)
Definition calibrate (g : Globals) (market_price S K T r q bs_iv : float) : Calib :=
  let v0 := init_v0 S K T r q bs_iv in
  let kappa := init_kappa S K T r q in
  let start := start_state g S K T r q bs_iv in
  search_loop (fun test_v0 =>
    let test_theta := test_v0 in
    search_loop (fun test_kappa =>
      search_loop (fun test_sigma =>
        search_loop (fun test_rho =>
          try_tuple market_price S K T r q
            test_v0 test_theta test_kappa test_sigma test_rho)
          rho_values)
        sigma_values)
      (kappa_values kappa))
    (v0_values v0) start.

(** The decision after the search (lines 950-987): which volatility is
    reported. *)
Definition select_vol (c : Calib) (market_price bs_iv : float) : float :=
  let sv_vol := sqrt (best_v c) in
  if 0.1 * market_price <? best_diff c then bs_iv
  else if sv_vol <? 0.05 then bs_iv
  else if 1.5 <? sv_vol then bs_iv
  else sv_vol.

(** [implied_vol_sv] (lines 789-988): the reported volatility and the
    globals left behind. *)
Definition implied_vol_sv (g : Globals)
    (market_price S K T r q : float) : float * Globals :=
  let bs_iv := bs_implied_vol market_price S K T r q in
  if bs_iv <? 0.0 then (-1.0, g)
  else
    let c := calibrate g market_price S K T r q bs_iv in
    (select_vol c market_price bs_iv, cal_globals c).

(** What a valid cache holds: two arrays of [fft_n] entries, the strikes
    laid out on the log-strike grid of its tags, every price at or above
    zero.  An invalid cache holds no arrays. *)
Definition cache_wf (c : FFTCache) : Prop :=
  if is_valid c then
    exists ps ks : list float,
      prices c = Some ps /\ strikes c = Some ks
      /\ num_strikes c = cache_fft_n c
      /\ length ps = Z.to_nat (cache_fft_n c)
      /\ ks = map (grid_strike (cache_log_strike_range c) (cache_fft_n c)
                     (cache_S c))
                (indices (cache_fft_n c))
      /\ Forall (fun p => (0 <=? p) = true) ps
  else prices c = None /\ strikes c = None.

End Engine.

(** The tuples of the four nested loops, in the order the loops visit them:
    [v0] outermost, then [kappa], [sigma], and [rho] innermost, with
    [theta = v0]. *)
Definition grid (v0 kappa : float) : list Tuple :=
  flat_map (fun a =>
    flat_map (fun b =>
      flat_map (fun s =>
        map (fun rh => MkTuple a b a s rh) rho_values)
        sigma_values)
      (kappa_values kappa))
    (v0_values v0).

(** *** The specification's reading of the search and of the blend *)

(** Stated from the specification: clamping to [[lo, hi]]. *)
Definition spec_clamp (lo hi x : float) : float := fmax lo (fmin hi x).

(** Stated from the specification (section 4.7, step 3): the product
    [v0 {0.7, 0.85, 1.0, 1.15, 1.3}] x [kappa {0.5, 1.0, 1.5}] x
    [sigma {0.8, 1.0, 1.2}] x [rho + {-0.2, -0.1, 0, 0.1, 0.2}] clamped to
    [[-0.9, 0]], in that order, with [theta = v0]. *)
Definition spec_grid (v0 kappa sigma rho : float) : list Tuple :=
  flat_map (fun a =>
    flat_map (fun b =>
      flat_map (fun s =>
        map (fun rh => MkTuple a b a s rh)
          (map (fun d => spec_clamp (-0.9) 0 (rho + d))
             [-0.2; -0.1; 0; 0.1; 0.2]))
        (map (fun f => sigma * f) [0.8; 1.0; 1.2]))
      (map (fun f => kappa * f) [0.5; 1.0; 1.5]))
    (map (fun f => v0 * f) [0.7; 0.85; 1.0; 1.15; 1.3]).

(** Stated from the specification (section 4.7, step 4): the strike and term
    adjustments, with [m_ = K / S]. *)
Definition spec_skew_adjustment (S K T : float) : float :=
  let m_ := K / S in
  let strike_adjust :=
    if 1.2 <? m_ then 0.05 * (m_ - 1.2)
    else if m_ <? 0.8 then 0.03 * (0.8 - m_)
    else 0 in
  let term_adjust :=
    if T <? 0.1 then 0.02 * (0.1 - T) / 0.1
    else if 1 <? T then - (0.01 * (T - 1))
    else 0 in
  strike_adjust + term_adjust.

(** Stated from the specification (section 4.7, step 5): the blend
    [w sigma_sv + (1 - w) sigma_bs] with [w = 1 - min(1, residual / m)], plus
    half the skew adjustment; [sigma_bs] when the result leaves
    [[0.05, 1.5]]. *)
Definition spec_blend (residual m sigma_sv sigma_bs skew : float) : float :=
  let w := 1 - fmin 1 (residual / m) in
  let blended := w * sigma_sv + (1 - w) * sigma_bs + 0.5 * skew in
  if (blended <? 0.05) || (1.5 <? blended) then sigma_bs else blended.

(** The four FFT settings of a state. *)
Definition settings (g : Globals) : Z * float * float * float :=
  (g_fft_n g, g_log_strike_range g, g_alpha g, g_eta g).

(** The tags a rebuilt cache carries: the full parameter key. *)
Definition tagged (c : FFTCache) (S r q T v0 kappa theta sigma rho : float)
    (n : Z) (range alpha eta : float) : Prop :=
  cache_S c = S /\ cache_r c = r /\ cache_q c = q /\ cache_T c = T
  /\ cache_v0 c = v0 /\ cache_kappa c = kappa /\ cache_theta c = theta
  /\ cache_sigma c = sigma /\ cache_rho c = rho
  /\ cache_fft_n c = n /\ cache_log_strike_range c = range
  /\ cache_alpha c = alpha /\ cache_eta c = eta.

(** *** The program around the engine *)

(** [cleanup_precomputed_values] (lines 991-1003). *)
Definition cleanup_precomputed_values (g : Globals) : Globals :=
  let p := g_precomputed g in
  set_precomputed g
    (MkFFTPrecomputed false (pre_fft_n p) (pre_eta p) (pre_alpha p) (pre_S p)).

(** [cleanup_fft_cache] (lines 1006-1021). *)
Definition cleanup_fft_cache (g : Globals) : Globals :=
  let c := g_cache g in
  cleanup_precomputed_values
    (set_cache g
       (MkFFTCache (cache_S c) (cache_r c) (cache_q c) (cache_T c) (cache_v0 c)
          (cache_kappa c) (cache_theta c) (cache_sigma c) (cache_rho c)
          None None (num_strikes c) false (cache_fft_n c)
          (cache_log_strike_range c) (cache_alpha c) (cache_eta c))).

(** [is_power_of_two] (lines 1046-1050); on a positive [int], [&] is the
    bitwise conjunction of the binary expansions. *)
Definition is_power_of_two (n : Z) : Z :=
  if (n <=? 0)%Z then 0%Z
  else if (Z.land n (n - 1) =? 0)%Z then 1%Z else 0%Z.

(** Assignment to [g_cache_tolerance]. *)
Definition set_cache_tolerance (g : Globals) (tol : float) : Globals :=
  MkGlobals (g_fft_n g) (g_log_strike_range g) (g_alpha g) (g_eta g)
    tol (g_cache g) (g_precomputed g) (g_found_good_match g).

(** One return of [getopt_long] in [main]: the option character and, for an
    option that takes an argument, [optarg].  [opt_unknown] is ['?'];
    [opt_other] is any character the [switch] has no case for. *)
Inductive Opt : Type :=
| opt_d
| opt_v
| opt_h
| opt_n (optarg : String.string)
| opt_r (optarg : String.string)
| opt_a (optarg : String.string)
| opt_e (optarg : String.string)
| opt_t (optarg : String.string)
| opt_unknown
| opt_other.

(** A command line as [getopt_long] presents it: the options it returns
    before [-1], and the operands [argv[optind .. argc-1]]. *)
Record CommandLine : Type := MkCommandLine {
  options : list Opt;
  operands : list String.string
}.

(** How a run of the program ends: the exit status, the [double] handed to
    [printf] if one was, and the file-scope state at that point. *)
Record Run : Type := MkRun {
  run_status : Z;
  run_printed : option float;
  run_globals : Globals
}.

Section Program.

Variable L : Libm.
Variable fft_re : FFTJob -> Z -> float.
Variable strtod : String.string -> Strtod.
Variable atoi : String.string -> Z.
Variable atof : String.string -> float.

(** [safe_atof] (lines 1024-1043): [-1.0] signals a string that is out of
    range or not a number. *)
Definition safe_atof (str : String.string) : float :=
  let c := strtod str in
  if sd_erange c then -1.0
  else if negb (sd_converted c) then -1.0
  else sd_value c.

(** One pass through the [switch] of [main] (lines 1088-1149): the state
    after the option, or the status [main] returns with.  The two debug
    flags only select diagnostics and are not part of the state. *)
Definition handle_option (g : Globals) (o : Opt) : Globals + Z :=
  match o with
  | opt_d => inl g
  | opt_v => inl g
  | opt_h => inr 0%Z
  | opt_n optarg =>
      let n := atoi optarg in
      if negb (is_power_of_two n =? 0)%Z
      then inl (set_fft g n (g_log_strike_range g) (g_alpha g) (g_eta g))
      else inl g
  | opt_r optarg =>
      let r := atof optarg in
      if 0.0 <? r
      then inl (set_fft g (g_fft_n g) r (g_alpha g) (g_eta g))
      else inl g
  | opt_a optarg =>
      let a := atof optarg in
      if 0.0 <? a
      then inl (set_fft g (g_fft_n g) (g_log_strike_range g) a (g_eta g))
      else inl g
  | opt_e optarg =>
      let eta := atof optarg in
      if 0.0 <? eta
      then inl (set_fft g (g_fft_n g) (g_log_strike_range g) (g_alpha g) eta)
      else inl g
  | opt_t optarg =>
      let tol := atof optarg in
      if 0.0 <? tol then inl (set_cache_tolerance g tol) else inl g
  | opt_unknown => inr 1%Z
  | opt_other => inl g
  end.

(** The [while ((c = getopt_long(...)) != -1)] loop (lines 1085-1150): the
    state it leaves and, when an option made [main] return, the status
    returned. *)
Fixpoint process_options (os : list Opt) (g : Globals) : Globals * option Z :=
  match os with
  | [] => (g, None)
  | o :: rest =>
      match handle_option g o with
      | inl g' => process_options rest g'
      | inr code => (g, Some code)
      end
  end.

(** [main] after the option loop (lines 1152-1276). *)
Definition run (g : Globals) (args : list String.string) : Run :=
  if negb (Z.of_nat (length args) =? 6)%Z then MkRun 1 None g
  else
    let arg i := nth i args String.EmptyString in
    let market_price := safe_atof (arg 0%nat) in
    let S := safe_atof (arg 1%nat) in
    let K := safe_atof (arg 2%nat) in
    let T := safe_atof (arg 3%nat) in
    let r := safe_atof (arg 4%nat) in
    let q := safe_atof (arg 5%nat) in
    if (market_price <? 0.0) || (S <? 0.0) || (K <? 0.0) || (T <? 0.0)
    then MkRun 1 None g
    else
      let g :=
        if is_challenging_parameter_set S K T 0.04 1.0 0.04 0.4 (-0.7)
        then adapt_fft_parameters g S K T else g in
      if market_price <=? 0.0 then MkRun 1 None g
      else if S <=? 0.0 then MkRun 1 None g
      else if K <=? 0.0 then MkRun 1 None g
      else if T <=? 0.0 then MkRun 1 None g
      else
        let (iv, g) := implied_vol_sv L fft_re g market_price S K T r q in
        let g := cleanup_fft_cache g in
        if iv <? 0.0 then MkRun 1 None g
        else MkRun 0 (Some iv) g.

(** [main] (lines 1068-1277), from the initial file-scope state. *)
Definition main (cl : CommandLine) : Run :=
  match process_options (options cl) initial_globals with
  | (g, Some code) => MkRun code None g
  | (g, None) => run g (operands cl)
  end.

End Program.

(** The FFT settings are usable: the grid size is a power of two, and the
    range, the damping factor, the spacing and the cache tolerance are
    positive. *)
Definition config_ok (g : Globals) : Prop :=
  is_power_of_two (g_fft_n g) = 1%Z
  /\ (0.0 <? g_log_strike_range g) = true
  /\ (0.0 <? g_alpha g) = true
  /\ (0.0 <? g_eta g) = true
  /\ (0.0 <? g_cache_tolerance g) = true.

(** The best parameters of a calibration state, as a tuple. *)
Definition best_tuple (c : Calib) : Tuple :=
  MkTuple (best_v c) (best_kappa c) (best_theta c) (best_sigma c) (best_rho c).

(** The cache holds no arrays and is marked invalid. *)
Definition released (g : Globals) : Prop :=
  prices (g_cache g) = None /\ strikes (g_cache g) = None
  /\ is_valid (g_cache g) = false.

(** *** States and transform outputs used in closed examples *)

(** The globals after the option [--fft-n=16]: a grid of 16 points, every
    other setting at its default.  Closed examples that read the cache
    arrays start here; none of them depends on the grid size. *)
Definition small_grid_globals : Globals := set_fft initial_globals 16 3.0 1.5 0.05.


(** An all-zero spectrum (what FFTW returns for an all-zero input, the case
    in which every modified characteristic-function value was replaced by
    the safe default [0]). *)
Definition zero_spectrum (job : FFTJob) (i : Z) : float := 0.

(** A spectrum whose real part is [1] at every index. *)
Definition unit_spectrum (job : FFTJob) (i : Z) : float := 1.

(** A spectrum that depends on the initial variance of the job. *)
Definition spectrum_of_v0 (job : FFTJob) (i : Z) : float := job_v0 job.

End SV5.

(** ** [calculate_sv_v4.c]: the Heston path before the adaptive settings *)

Module SV4.

Import SV5.

(** The file-scope state, the cache record, the array helpers, the anchor
    ([black_scholes_call], lines 147-159; [bs_implied_vol], lines 162-219),
    [precompute_fft_values] (lines 791-843), the storage step of
    [init_fft_cache] (lines 275-306), [get_cached_option_price]
    (lines 404-477) and the seeds of the calibration (lines 519-550) read in
    this file as they do in [calculate_sv_v5.c]; the definitions of [SV5]
    are used for them.  The flag [g_found_good_match] does not exist here
    and is never touched. *)

(** The locals of [implied_vol_sv] that the grid search updates, the globals
    it threads through the pricer, whether control has left the loops by
    [goto calibration_complete], and (as a ghost) the tuples priced so far,
    latest first. *)
Record Calib : Type := MkCalib {
  cal_globals : Globals;
  best_diff : float;
  best_v : float;
  best_kappa : float;
  best_theta : float;
  best_sigma : float;
  best_rho : float;
  jumped : bool;
  priced : list Tuple
}.

(** [for (idx = 0; idx < NUM; idx++)] over the values of one parameter
    array; once the [goto] is taken no further iteration starts. *)
Fixpoint search_loop {A : Type} (body : A -> Calib -> Calib)
    (values : list A) (c : Calib) : Calib :=
  match values with
  | [] => c
  | x :: rest =>
      if jumped c then c else search_loop body rest (body x c)
  end.

Section Engine.

Variable L : Libm.
Variable fft_re : FFTJob -> Z -> float.

(** The test at the head of [init_fft_cache] (lines 246-259): the whole
    key. *)
Definition cache_hit (g : Globals)
    (S r q T v0 kappa theta sigma rho : float) : bool :=
  let c := g_cache g in
  is_valid c
  && (fabs (cache_S c - S) <? g_cache_tolerance g)
  && (fabs (cache_r c - r) <? g_cache_tolerance g)
  && (fabs (cache_q c - q) <? g_cache_tolerance g)
  && (fabs (cache_T c - T) <? g_cache_tolerance g)
  && (fabs (cache_v0 c - v0) <? g_cache_tolerance g)
  && (fabs (cache_kappa c - kappa) <? g_cache_tolerance g)
  && (fabs (cache_theta c - theta) <? g_cache_tolerance g)
  && (fabs (cache_sigma c - sigma) <? g_cache_tolerance g)
  && (fabs (cache_rho c - rho) <? g_cache_tolerance g)
  && (cache_fft_n c =? g_fft_n g)%Z
  && (fabs (cache_log_strike_range c - g_log_strike_range g) <? g_cache_tolerance g)
  && (fabs (cache_alpha c - g_alpha g) <? g_cache_tolerance g)
  && (fabs (cache_eta c - g_eta g) <? g_cache_tolerance g).

(** The price stored in [prices[i]] by the extraction loop (lines 355-375);
    the real part of the transform is used as it comes. *)
Definition grid_price (range alpha : float) (n : Z) (job : FFTJob)
    (S : float) (i : Z) : float :=
  let log_K := grid_log_strike L range n S i in
  let inv_pi := 1.0 / M_PI in
  let exp_factor := c_exp L (- alpha * log_K) * inv_pi in
  let price_part := fft_re job i * exp_factor in
  fmax 0.0 price_part.

Definition extract_step (g : Globals) (job : FFTJob) (S : float)
    (arrays : list float * list float) (i : Z) : list float * list float :=
  (store (fst arrays) (Z.to_nat i)
     (grid_price (g_log_strike_range g) (g_alpha g) (g_fft_n g) job S i),
   store (snd arrays) (Z.to_nat i)
     (grid_strike L (g_log_strike_range g) (g_fft_n g) S i)).

Definition extract (g : Globals) (job : FFTJob) (S : float)
    (arrays : list float * list float) : list float * list float :=
  fold_left (extract_step g job S) (indices (g_fft_n g)) arrays.

(** [init_fft_cache] (lines 222-401). *)
Definition init_fft_cache (g : Globals)
    (S r q T v0 kappa theta sigma rho : float) : Globals :=
  if cache_hit g S r q T v0 kappa theta sigma rho then g
  else
    let c := prepare_arrays g in
    let g := precompute_fft_values (set_cache g c) S in
    let job :=
      MkFFTJob S r q T v0 kappa theta sigma rho
        (g_fft_n g) (g_alpha g) (g_eta g) (pre_S (g_precomputed g)) in
    let arrays := extract g job S (block (prices c), block (strikes c)) in
    set_cache g
      (MkFFTCache S r q T v0 kappa theta sigma rho
         (Some (fst arrays)) (Some (snd arrays)) (num_strikes c) true
         (g_fft_n g) (g_log_strike_range g) (g_alpha g) (g_eta g)).

(** [heston_call_fft] (lines 480-499): the price and the globals it leaves
    behind. *)
Definition heston_call_fft (g : Globals)
    (S K T r q v0 kappa theta sigma rho : float) : float * Globals :=
  let g := init_fft_cache g S r q T v0 kappa theta sigma rho in
  let price := get_cached_option_price g K in
  if price <? 0.0
  then (black_scholes_call L S K T r q (sqrt v0), g)
  else (price, g).

(** The four parameter arrays (lines 577-592); [i] is converted to
    [double]. *)
Definition v0_values (init_v0 : float) : list float :=
  map (fun i => init_v0 * (0.7 + 0.15 * of_int i)) (indices 5).

Definition kappa_values (init_kappa : float) : list float :=
  map (fun i => init_kappa * (0.5 + 0.5 * of_int i)) (indices 3).

Definition sigma_values : list float :=
  map (fun i => 0.2 + 0.15 * of_int i) (indices 5).

Definition rho_values : list float :=
  map (fun i => -0.8 + 0.2 * of_int i) (indices 5).

(** The body of the innermost loop (lines 605-637). *)
Definition try_tuple (market_price S K T r q : float)
    (test_v0 test_theta test_kappa test_sigma test_rho : float)
    (c : Calib) : Calib :=
  let (model_price, g) :=
    heston_call_fft (cal_globals c) S K T r q
      test_v0 test_kappa test_theta test_sigma test_rho in
  let test_diff := fabs (model_price - market_price) in
  let seen := MkTuple test_v0 test_kappa test_theta test_sigma test_rho
              :: priced c in
  if test_diff <? best_diff c then
    MkCalib g test_diff test_v0 test_kappa test_theta test_sigma test_rho
      (test_diff <? 0.001) seen
  else
    MkCalib g (best_diff c) (best_v c) (best_kappa c) (best_theta c)
      (best_sigma c) (best_rho c) (jumped c) seen.

(** The innermost loop body, applied to a tuple. *)
Definition visit (market_price S K T r q : float) (t : Tuple) (c : Calib) : Calib :=
  try_tuple market_price S K T r q
    (t_v0 t) (t_theta t) (t_kappa t) (t_sigma t) (t_rho t) c.

(** The locals before the loops (lines 554-560). *)
Definition start_state (g : Globals) (S K T r q bs_iv : float) : Calib :=
  MkCalib g DBL_MAX (init_v0 L S K T r q bs_iv)
    (init_kappa L S K T r q) (init_theta L S K T r q bs_iv) 0.4 (-0.7)
    false [].

(** The grid search of [implied_vol_sv] (lines 519-642). *)
Definition calibrate (g : Globals) (market_price S K T r q bs_iv : float) : Calib :=
  let v0 := init_v0 L S K T r q bs_iv in
  let kappa := init_kappa L S K T r q in
  let start := start_state g S K T r q bs_iv in
  search_loop (fun test_v0 =>
    let test_theta := test_v0 in
    search_loop (fun test_kappa =>
      search_loop (fun test_sigma =>
        search_loop (fun test_rho =>
          try_tuple market_price S K T r q
            test_v0 test_theta test_kappa test_sigma test_rho)
          rho_values)
        sigma_values)
      (kappa_values kappa))
    (v0_values v0) start.

(** The two adjustments (lines 659-677). *)
Definition strike_adjust (moneyness : float) : float :=
  if 1.2 <? moneyness then (moneyness - 1.2) * 0.05
  else if moneyness <? 0.8 then (0.8 - moneyness) * 0.03
  else 0.0.

Definition time_adjust (T : float) : float :=
  if T <? 0.1 then 0.02 * (0.1 - T) / 0.1
  else if 1.0 <? T then (-0.01) * (T - 1.0) / 1.0
  else 0.0.

(** [adjusted_sv_vol] after the two clamping assignments (lines 680-684). *)
Definition adjusted_sv_vol (c : Calib) (moneyness T : float) : float :=
  let sv_vol := sqrt (best_v c) in
  let adjusted_sv_vol := sv_vol + strike_adjust moneyness + time_adjust T in
  let adjusted_sv_vol :=
    if adjusted_sv_vol <? 0.05 then 0.05 else adjusted_sv_vol in
  if 1.5 <? adjusted_sv_vol then 1.5 else adjusted_sv_vol.

(** [blended_vol] (lines 690-694). *)
Definition blended_vol (c : Calib) (market_price bs_iv moneyness T : float) : float :=
  let blend_weight := 1.0 - fmin 1.0 (best_diff c / market_price) in
  let blended_vol :=
    blend_weight * adjusted_sv_vol c moneyness T
    + (1.0 - blend_weight) * bs_iv in
  blended_vol + (strike_adjust moneyness + time_adjust T) * 0.5.

(** The decision after the search (lines 650-733). *)
Definition select_vol (c : Calib) (market_price bs_iv moneyness T : float) : float :=
  let adjusted_sv_vol := adjusted_sv_vol c moneyness T in
  if 0.1 * market_price <? best_diff c
  then blended_vol c market_price bs_iv moneyness T
  else if adjusted_sv_vol <? 0.05 then bs_iv
  else if 1.5 <? adjusted_sv_vol then bs_iv
  else adjusted_sv_vol.

(** [implied_vol_sv] (lines 502-734): the reported volatility and the
    globals left behind. *)
Definition implied_vol_sv (g : Globals)
    (market_price S K T r q : float) : float * Globals :=
  let bs_iv := bs_implied_vol L market_price S K T r q in
  if bs_iv <? 0.0 then (-1.0, g)
  else
    let forward := S * c_exp L ((r - q) * T) in
    let moneyness := forward / K in
    let c := calibrate g market_price S K T r q bs_iv in
    (select_vol c market_price bs_iv moneyness T, cal_globals c).

End Engine.

(** The tuples of the four nested loops, in the order the loops visit
    them. *)
Definition grid (v0 kappa : float) : list Tuple :=
  flat_map (fun a =>
    flat_map (fun b =>
      flat_map (fun s =>
        map (fun rh => MkTuple a b a s rh) rho_values)
        sigma_values)
      (kappa_values kappa))
    (v0_values v0).

End SV4.

(** ** Conversions used in closed examples *)

(** [strtod] on the strings of the closed examples; any other string is
    reported as not a number. *)
Definition example_strtod (s : String.string) : Strtod :=
  if String.eqb s "10.45"%string then MkStrtod 10.45 false true
  else if String.eqb s "12"%string then MkStrtod 12 false true
  else if String.eqb s "100"%string then MkStrtod 100 false true
  else if String.eqb s "110"%string then MkStrtod 110 false true
  else if String.eqb s "1"%string then MkStrtod 1 false true
  else if String.eqb s "0.05"%string then MkStrtod 0.05 false true
  else if String.eqb s "0.01"%string then MkStrtod 0.01 false true
  else if String.eqb s "0"%string then MkStrtod 0 false true
  else if String.eqb s "-1.0"%string then MkStrtod (-1.0) false true
  else MkStrtod 0 false false.

(** [atoi] and [atof] on the same strings. *)
Definition example_atoi (s : String.string) : Z :=
  if String.eqb s "16"%string then 16%Z else 0%Z.

Definition example_atof (s : String.string) : float :=
  sd_value (example_strtod s).

(** ** The value of a binary64 number and rounding to nearest even

    Every finite binary64 number is an integer multiple of [2^-1074]; scaled
    by [2^bias] with [bias = 2148] it is an integer, and so is the exact
    product of two of them scaled by [2^bias] once more.  The definitions
    below state rounding to nearest, ties to even, on such scaled integers;
    module [Rounding] proves that the operations of [SpecFloat] compute
    them. *)

Module Binary64.

#[local] Open Scope Z_scope.

Definition bias : Z := 2148.

(** A shift record of [SpecFloat] as one integer: four times the mantissa,
    plus two for the round bit, plus one for the sticky bit. *)
Definition code (mrs : shr_record) : Z :=
  4 * shr_m mrs + (if shr_r mrs then 2 else 0) + (if shr_s mrs then 1 else 0).

(** A location (exact; below, at or above the midpoint) as such a code. *)
Definition loc_code (l : location) : Z :=
  match l with
  | loc_Exact => 0
  | loc_Inexact Lt => 1
  | loc_Inexact Eq => 2
  | loc_Inexact Gt => 3
  end.

(** The code after dropping [n] more bits: the last bit dropped becomes the
    round bit, and the sticky bit records whether anything else was lost. *)
Definition shift_code (n c : Z) : Z :=
  2 * (c / 2 ^ (n + 1)) + (if c mod 2 ^ (n + 1) =? 0 then 0 else 1).

(** Rounding a code to the nearest mantissa, ties to even. *)
Definition round_code (c : Z) : Z :=
  c / 4 + (if (c mod 4 =? 3) || ((c mod 4 =? 2) && Z.odd (c / 4)) then 1 else 0).

(** The exponent of the binary64 grid around the scaled magnitude [X]:
    53 significant bits, and nothing finer than [2^-1074]. *)
Definition grid_exp (X : Z) : Z := Z.max (Z.log2 X - 52) (bias - 1074).

(** The scaled magnitude [X], rounded to the grid. *)
Definition round_mag (X : Z) : Z :=
  round_code (shift_code (grid_exp X) (4 * X)) * 2 ^ grid_exp X.

(** The value that stands for infinity: [2^1024], scaled. *)
Definition top : Z := 2 ^ (1024 + bias).

(** Rounding a scaled value: symmetric in the sign, and overflowing to
    infinity. *)
Definition round_val (X : Z) : Z :=
  if X <? 0 then - Z.min (round_mag (- X)) top else Z.min (round_mag X) top.

(** The scaled value of a number; NaN is given the value [0]. *)
Definition val (f : spec_float) : Z :=
  match f with
  | S754_zero _ => 0
  | S754_nan => 0
  | S754_infinity s => cond_Zopp s top
  | S754_finite s m e => cond_Zopp s (Z.pos m * 2 ^ (e + bias))
  end.

(** The value of a [double], scaled by [2^bias]. *)
Definition fval (x : float) : Z := val (Prim2SF x).

(** A zero or a finite number. *)
Definition finite_or_zero (f : spec_float) : Prop :=
  match f with
  | S754_zero _ | S754_finite _ _ _ => True
  | _ => False
  end.

End Binary64.

(** * Properties *)

(** ** Order and sign of binary64 values *)

Module FloatFacts.

Lemma SFcompare_antisym (a b : spec_float) :
  SFcompare b a = option_map CompOpp (SFcompare a b).
Proof.
  destruct a as [sa|sa| |sa ma ea], b as [sb|sb| |sb mb eb]; simpl;
    try destruct sa; try destruct sb; try reflexivity.
  - rewrite (Z.compare_antisym eb ea).
    destruct (eb ?= ea)%Z; simpl; try reflexivity.
    rewrite CompOpp_involutive. f_equal.
    exact (Pos.compare_cont_antisym mb ma Eq).
  - rewrite (Z.compare_antisym eb ea).
    destruct (eb ?= ea)%Z; simpl; try reflexivity.
    f_equal. symmetry. exact (Pos.compare_cont_antisym ma mb Eq).
Qed.

Lemma SFcompare_refl (a : spec_float) :
  a <> S754_nan -> SFcompare a a = Some Eq.
Proof.
  destruct a as [s|s| |s m e]; simpl; intros H; try congruence;
    destruct s; try reflexivity;
    pose proof (Z.compare_refl e) as Ee;
    pose proof (Pos.compare_cont_refl m Eq) as Em;
    rewrite Ee, Em; reflexivity.
Qed.

Lemma SFcompare_None (a b : spec_float) :
  SFcompare a b = None -> a = S754_nan \/ b = S754_nan.
Proof.
  destruct a, b; simpl; intros H; try discriminate H; auto.
Qed.

Lemma is_nan_spec (x : float) : is_nan x = true <-> Prim2SF x = S754_nan.
Proof.
  unfold is_nan. rewrite FloatAxioms.eqb_spec. unfold SFeqb. split.
  - intros H. destruct (Prim2SF x) eqn:E; try reflexivity;
      rewrite SFcompare_refl in H by congruence; discriminate.
  - intros ->. reflexivity.
Qed.

Lemma ltb_leb (x y : float) : (x <? y) = true -> (x <=? y) = true.
Proof.
  rewrite FloatAxioms.ltb_spec, FloatAxioms.leb_spec. unfold SFltb, SFleb.
  destruct (SFcompare _ _) as [[]|]; congruence.
Qed.

Lemma ltb_antisym (x y : float) : (x <? y) = true -> (y <=? x) = false.
Proof.
  rewrite FloatAxioms.ltb_spec, FloatAxioms.leb_spec. unfold SFltb, SFleb.
  rewrite (SFcompare_antisym (Prim2SF x) (Prim2SF y)).
  destruct (SFcompare (Prim2SF x) (Prim2SF y)) as [[]|]; simpl; congruence.
Qed.

Lemma ltb_asym (x y : float) : (x <? y) = true -> (y <? x) = false.
Proof.
  rewrite !FloatAxioms.ltb_spec. unfold SFltb.
  rewrite (SFcompare_antisym (Prim2SF x) (Prim2SF y)).
  destruct (SFcompare (Prim2SF x) (Prim2SF y)) as [[]|]; simpl; congruence.
Qed.

Lemma leb_antisym (x y : float) : (x <=? y) = true -> (y <? x) = false.
Proof.
  rewrite FloatAxioms.ltb_spec, FloatAxioms.leb_spec. unfold SFltb, SFleb.
  rewrite (SFcompare_antisym (Prim2SF x) (Prim2SF y)).
  destruct (SFcompare (Prim2SF x) (Prim2SF y)) as [[]|]; simpl; congruence.
Qed.

(** Trichotomy away from NaN. *)
Lemma ltb_false_leb (x y : float) :
  (x <? y) = false -> is_nan x = false -> is_nan y = false ->
  (y <=? x) = true.
Proof.
  rewrite FloatAxioms.ltb_spec, FloatAxioms.leb_spec. unfold SFltb, SFleb.
  rewrite (SFcompare_antisym (Prim2SF x) (Prim2SF y)).
  intros H Hx Hy.
  destruct (SFcompare (Prim2SF x) (Prim2SF y)) as [[]|] eqn:E;
    simpl; try congruence.
  apply SFcompare_None in E.
  destruct E as [E|E]; apply is_nan_spec in E; congruence.
Qed.

Lemma ltb_not_nan (x y : float) :
  (x <? y) = true -> is_nan x = false /\ is_nan y = false.
Proof.
  rewrite FloatAxioms.ltb_spec. unfold SFltb. intros H.
  split.
  - destruct (is_nan x) eqn:E; [|reflexivity].
    apply is_nan_spec in E. rewrite E in H. discriminate.
  - destruct (is_nan y) eqn:E; [|reflexivity].
    apply is_nan_spec in E. rewrite E in H.
    destruct (Prim2SF x); discriminate.
Qed.


Lemma binary_round_aux_sign (s : bool) (m e : Z) (l : location) :
  sf_sign_is s (binary_round_aux prec emax s m e l).
Proof.
  unfold binary_round_aux.
  destruct (shr_fexp prec emax m e l) as [mrs' e'].
  destruct (shr_fexp prec emax _ e' loc_Exact) as [mrs'' e''].
  destruct (shr_m mrs''); simpl; auto.
  destruct (Z.leb e'' _); simpl; auto.
Qed.

Lemma binary_round_sign (s : bool) (m : positive) (e : Z) :
  sf_sign_is s (binary_round prec emax s m e).
Proof.
  unfold binary_round.
  destruct (shl_align _ _ _) as [mz ez].
  apply binary_round_aux_sign.
Qed.

Lemma signed_nonneg_add (a b : float) :
  signed_nonneg a -> signed_nonneg b -> signed_nonneg (a + b).
Proof.
  unfold signed_nonneg. rewrite add_spec. unfold SF64add, SFadd.
  destruct (Prim2SF a) as [sa|sa| |sa ma ea], (Prim2SF b) as [sb|sb| |sb mb eb];
    intros Ha Hb; try subst sa; try subst sb; try exact I; try reflexivity.
  cbv [cond_Zopp]. cbn [Z.add binary_normalize].
  apply (binary_round_sign false).
Qed.

Lemma signed_nonneg_mul (a b : float) :
  signed_nonneg a -> signed_nonneg b -> signed_nonneg (a * b).
Proof.
  unfold signed_nonneg. rewrite mul_spec. unfold SF64mul, SFmul.
  destruct (Prim2SF a) as [sa|sa| |sa ma ea], (Prim2SF b) as [sb|sb| |sb mb eb];
    intros Ha Hb; try subst sa; try subst sb; try exact I; try reflexivity.
  apply (binary_round_aux_sign false).
Qed.

Lemma signed_nonneg_not_neg (x : float) :
  signed_nonneg x -> (x <? 0) = false.
Proof.
  unfold signed_nonneg. rewrite FloatAxioms.ltb_spec. unfold SFltb.
  replace (Prim2SF 0) with (S754_zero false) by (vm_compute; reflexivity).
  destruct (Prim2SF x) as [s|s| |s m e]; intros H; try subst s; reflexivity.
Qed.

Lemma signed_nonneg_not_minus_one (x : float) :
  signed_nonneg x -> x <> -1.0.
Proof.
  unfold signed_nonneg. intros H E. subst x.
  vm_compute in H. discriminate H.
Qed.

End FloatFacts.

(** ** The Black-Scholes anchor solver *)

Section AnchorSolver.

Import SV5 FloatFacts.

Variable L : Libm.

(** Every volatility the bisection can return is a midpoint of sign-clear
    values: it is never negative, and never the sentinel. *)
Lemma bisection_signed_nonneg (m S K T r q : float) (n : nat) :
  forall lo hi mid : float,
    signed_nonneg lo -> signed_nonneg hi -> signed_nonneg mid ->
    signed_nonneg (bisection L m S K T r q n lo hi mid).
Proof.
  induction n as [|n IH]; intros lo hi mid Hlo Hhi Hmid; simpl; [exact Hmid|].
  assert (Hm : signed_nonneg ((lo + hi) * 0.5)).
  { apply signed_nonneg_mul; [apply signed_nonneg_add; assumption|].
    vm_compute. reflexivity. }
  destruct (fabs _ <? _); [exact Hm|].
  destruct (_ <? m); apply IH; assumption.
Qed.

Lemma validation_passes (m S K T : float) :
  (0 <? m) = true -> (0 <? S) = true -> (0 <? K) = true -> (0 <? T) = true ->
  (m <=? 0.0) || (S <=? 0.0) || (K <=? 0.0) || (T <=? 0.0) = false.
Proof.
  intros Hm HS HK HT.
  rewrite (ltb_antisym _ _ Hm), (ltb_antisym _ _ HS),
    (ltb_antisym _ _ HK), (ltb_antisym _ _ HT).
  reflexivity.
Qed.

(** C6 (as amended): for positive [m], [S], [K], [T] and [m] at or above the
    intrinsic value, [bs_implied_vol] returns the sentinel [-1.0] exactly
    when [m <= C(0.001)] or [m >= C(2.0)], the two bracket ends included;
    otherwise it returns the result of the 100-step bisection started on
    [[0.001, 2.0]], and that result is not negative. *)
Theorem bs_implied_vol_bracket (m S K T r q : float) :
  (0 <? m) = true -> (0 <? S) = true -> (0 <? K) = true -> (0 <? T) = true ->
  (intrinsic L S K T r q <=? m) = true ->
  let price_low := black_scholes_call L S K T r q 0.001 in
  let price_high := black_scholes_call L S K T r q 2.0 in
  (bs_implied_vol L m S K T r q = -1.0
   <-> (m <=? price_low) || (price_high <=? m) = true)
  /\ ((m <=? price_low) || (price_high <=? m) = false ->
      bs_implied_vol L m S K T r q
        = bisection L m S K T r q 100 0.001 2.0 0.001
      /\ (bs_implied_vol L m S K T r q <? 0) = false).
Proof.
  intros Hm HS HK HT Hi price_low price_high.
  assert (Hb : signed_nonneg (bisection L m S K T r q 100 0.001 2.0 0.001)).
  { apply bisection_signed_nonneg; vm_compute; reflexivity. }
  unfold bs_implied_vol.
  rewrite (validation_passes m S K T Hm HS HK HT).
  rewrite (leb_antisym _ _ Hi).
  fold price_low price_high.
  destruct ((m <=? price_low) || (price_high <=? m)) eqn:E.
  - split; [split; reflexivity | discriminate].
  - split.
    + split; [|discriminate].
      intros F. exfalso. exact (signed_nonneg_not_minus_one _ Hb F).
    + intros _. split; [reflexivity|].
      apply signed_nonneg_not_neg. exact Hb.
Qed.

End AnchorSolver.

(** At [(10.45, 100, 100, 1, 0.05, 0)] the price is bracketed and the
    bisection answers. *)
Lemma bs_implied_vol_bracket_witness :
  (SV5.bs_implied_vol ref_libm 10.45 100 100 1 0.05 0 = -1.0
   <-> (10.45 <=? SV5.black_scholes_call ref_libm 100 100 1 0.05 0 0.001)
       || (SV5.black_scholes_call ref_libm 100 100 1 0.05 0 2.0 <=? 10.45) = true)
  /\ ((10.45 <=? SV5.black_scholes_call ref_libm 100 100 1 0.05 0 0.001)
      || (SV5.black_scholes_call ref_libm 100 100 1 0.05 0 2.0 <=? 10.45) = false ->
      SV5.bs_implied_vol ref_libm 10.45 100 100 1 0.05 0
        = SV5.bisection ref_libm 10.45 100 100 1 0.05 0 100 0.001 2.0 0.001
      /\ (SV5.bs_implied_vol ref_libm 10.45 100 100 1 0.05 0 <? 0) = false).
Proof.
  apply (bs_implied_vol_bracket ref_libm 10.45 100 100 1 0.05 0);
    vm_compute; reflexivity.
Defined.

(** C6 as stated fails at a bracket end: the price [m = C(2.0)] lies in the
    closed interval [[C(0.001), C(2.0)]], is positive and above the
    intrinsic value, and the solver still answers [-1.0]. *)
Lemma bs_implied_vol_fails_at_bracket_end :
  let m := SV5.black_scholes_call ref_libm 100 100 1 0.05 0 2.0 in
  (0 <? m) = true
  /\ (SV5.intrinsic ref_libm 100 100 1 0.05 0 <=? m) = true
  /\ (SV5.black_scholes_call ref_libm 100 100 1 0.05 0 0.001 <=? m) = true
  /\ (m <=? SV5.black_scholes_call ref_libm 100 100 1 0.05 0 2.0) = true
  /\ SV5.bs_implied_vol ref_libm m 100 100 1 0.05 0 = -1.0.
Proof.
  vm_compute. repeat split.
Qed.

(** ** [bs_call] near zero volatility-time *)

(** C8 (the code departs from it): at [S = 100], [K = 50], [T = 1e-24],
    [r = 0], [q = 1e24], [sigma = 0.0001] the product [sigma sqrt T] is below
    machine epsilon and the intrinsic value
    [max(0, S e^(-qT) - K e^(-rT))] is [0], yet [bs_call] returns
    [max(0, S - K e^(-rT)) = 50].  The guard on [sqrt T] alone does the same
    at [T = 1e-32], [q = 1e32], [sigma = 0.21], while the branch below
    [sigma = 0.0001] returns [0]. *)
Lemma bs_call_drops_dividend_discount :
  (0.0001 * sqrt 1e-24 <? DBL_EPSILON) = true
  /\ IV2.bs_call ref_libm 100 50 1e-24 0 1e24 0.0001 = 50
  /\ fmax 0.0 (100 * c_exp ref_libm (- 1e24 * 1e-24)
               - 50 * c_exp ref_libm (- 0 * 1e-24)) = 0
  /\ (0.21 * sqrt 1e-32 <? DBL_EPSILON) = true
  /\ IV2.bs_call ref_libm 100 50 1e-32 0 1e32 0.21 = 50
  /\ fmax 0.0 (100 * c_exp ref_libm (- 1e32 * 1e-32)
               - 50 * c_exp ref_libm (- 0 * 1e-32)) = 0
  /\ IV2.bs_call ref_libm 100 50 1e-24 0 1e24 0.00009 = 0.
Proof.
  vm_compute. repeat split.
Qed.

(** ** The strike-grid cache and the FFT settings *)

Section Cache.

Import SV5 FloatFacts.

Variable L : Libm.
Variable fft_re : FFTJob -> Z -> float.

Lemma init_fft_cache_frame (g : Globals)
    (S r q T v0 kappa theta sigma rho : float) :
  let g' := init_fft_cache L fft_re g S r q T v0 kappa theta sigma rho in
  settings g' = settings g
  /\ g_cache_tolerance g' = g_cache_tolerance g
  /\ g_found_good_match g' = g_found_good_match g.
Proof.
  unfold init_fft_cache, settings.
  destruct (cache_hit g S r q T); [repeat split|].
  unfold precompute_fft_values.
  match goal with |- context [if ?b then _ else _] => destruct b end;
    cbn; repeat split.
Qed.

Lemma init_fft_cache_valid (g : Globals)
    (S r q T v0 kappa theta sigma rho : float) :
  is_valid (g_cache (init_fft_cache L fft_re g S r q T v0 kappa theta sigma rho))
  = true.
Proof.
  unfold init_fft_cache.
  destruct (cache_hit g S r q T) eqn:H.
  - unfold cache_hit in H. repeat (apply andb_prop in H; destruct H as [H _]).
    exact H.
  - reflexivity.
Qed.

Lemma cache_hit_false_intro (g : Globals) (S r q T : float) :
  is_valid (g_cache g) = false
  \/ (fabs (cache_S (g_cache g) - S) <? g_cache_tolerance g) = false
  \/ (fabs (cache_r (g_cache g) - r) <? g_cache_tolerance g) = false
  \/ (fabs (cache_q (g_cache g) - q) <? g_cache_tolerance g) = false
  \/ (fabs (cache_T (g_cache g) - T) <? g_cache_tolerance g) = false
  \/ cache_fft_n (g_cache g) <> g_fft_n g
  \/ (fabs (cache_log_strike_range (g_cache g) - g_log_strike_range g)
        <? g_cache_tolerance g) = false
  \/ (fabs (cache_alpha (g_cache g) - g_alpha g) <? g_cache_tolerance g) = false
  \/ (fabs (cache_eta (g_cache g) - g_eta g) <? g_cache_tolerance g) = false ->
  cache_hit g S r q T = false.
Proof.
  unfold cache_hit. intros H.
  repeat match goal with
         | H : _ \/ _ |- _ => destruct H as [H|H]
         end;
    try (rewrite H; rewrite ?andb_false_r; reflexivity).
  apply Z.eqb_neq in H. rewrite H. rewrite ?andb_false_r. reflexivity.
Qed.

(** A rebuild re-tags the cache with the full key. *)
Lemma init_fft_cache_miss_tags (g : Globals)
    (S r q T v0 kappa theta sigma rho : float) :
  cache_hit g S r q T = false ->
  tagged (g_cache (init_fft_cache L fft_re g S r q T v0 kappa theta sigma rho))
    S r q T v0 kappa theta sigma rho
    (g_fft_n g) (g_log_strike_range g) (g_alpha g) (g_eta g).
Proof.
  intros H. unfold init_fft_cache. rewrite H.
  unfold precompute_fft_values.
  match goal with |- context [if ?b then _ else _] => destruct b end;
    cbn; unfold tagged; cbn; repeat split.
Qed.

(** Hit or miss, the cache ends up with the grid size in force. *)
Lemma init_fft_cache_fft_n (g : Globals)
    (S r q T v0 kappa theta sigma rho : float) :
  cache_fft_n (g_cache (init_fft_cache L fft_re g S r q T v0 kappa theta sigma rho))
  = g_fft_n g.
Proof.
  destruct (cache_hit g S r q T) eqn:E.
  - unfold init_fft_cache. rewrite E. unfold cache_hit in E.
    repeat (apply andb_prop in E; destruct E as [E ?]).
    apply Z.eqb_eq. assumption.
  - pose proof (init_fft_cache_miss_tags g S r q T v0 kappa theta sigma rho E)
      as Ht.
    unfold tagged in Ht. tauto.
Qed.

(** C7 (as amended): [adapt_fft_parameters] applies the stated thresholds,
    but [heston_call_fft] calls it only for a parameter set that
    [is_challenging_parameter_set] accepts ([K/S > 2] or [< 0.5]; [T < 0.15]
    with [v0 > 0.04]; [sigma > 1] or [|rho| > 0.9]).  Otherwise the settings
    are left as they are, and the cache is built with them. *)
Theorem fft_configuration_adjustment (g : Globals)
    (S K T r q v0 kappa theta sigma rho : float) :
  let moneyness := K / S in
  let adapted := adapt_fft_parameters g S K T in
  let challenging := is_challenging_parameter_set S K T v0 kappa theta sigma rho in
  let after := snd (heston_call_fft L fft_re g S K T r q v0 kappa theta sigma rho) in
  g_fft_n adapted
    = (if (1.5 <? moneyness) || (moneyness <? 0.7) then 8192%Z else g_fft_n g)
  /\ g_log_strike_range adapted
    = (if (1.5 <? moneyness) || (moneyness <? 0.7) then 4.0
       else g_log_strike_range g)
  /\ g_alpha adapted = (if T <? 0.1 then 1.25 else g_alpha g)
  /\ g_eta adapted
    = (if 2.0 <? T then 0.1 else if T <? 0.1 then 0.025 else g_eta g)
  /\ challenging
    = ((2.0 <? moneyness) || (moneyness <? 0.5)
       || ((T <? 0.15) && (0.04 <? v0))
       || ((1.0 <? sigma) || (0.9 <? fabs rho)))
  /\ settings after = settings (if challenging then adapted else g)
  /\ cache_fft_n (g_cache after) = g_fft_n (if challenging then adapted else g).
Proof.
  intros moneyness adapted challenging after.
  repeat match goal with |- _ /\ _ => split end.
  - subst adapted. unfold adapt_fft_parameters. fold moneyness.
    destruct ((1.5 <? moneyness) || (moneyness <? 0.7));
      destruct (T <? 0.1); destruct (2.0 <? T); reflexivity.
  - subst adapted. unfold adapt_fft_parameters. fold moneyness.
    destruct ((1.5 <? moneyness) || (moneyness <? 0.7));
      destruct (T <? 0.1); destruct (2.0 <? T); reflexivity.
  - subst adapted. unfold adapt_fft_parameters. fold moneyness.
    destruct ((1.5 <? moneyness) || (moneyness <? 0.7));
      destruct (T <? 0.1); destruct (2.0 <? T); reflexivity.
  - subst adapted. unfold adapt_fft_parameters. fold moneyness.
    destruct ((1.5 <? moneyness) || (moneyness <? 0.7));
      destruct (T <? 0.1); destruct (2.0 <? T); reflexivity.
  - subst challenging. unfold is_challenging_parameter_set. fold moneyness.
    destruct ((2.0 <? moneyness) || (moneyness <? 0.5)); [reflexivity|].
    destruct ((T <? 0.15) && (0.04 <? v0)); [reflexivity|].
    destruct ((1.0 <? sigma) || (0.9 <? fabs rho)); reflexivity.
  - subst after. unfold heston_call_fft, configure.
    fold challenging adapted.
    rewrite init_fft_cache_valid. cbn [negb snd].
    apply init_fft_cache_frame.
  - subst after. unfold heston_call_fft, configure.
    fold challenging adapted.
    rewrite init_fft_cache_valid. cbn [negb snd].
    apply init_fft_cache_fft_n.
Qed.

Lemma store_at_end (l1 l2 : list float) (y x : float) :
  store (l1 ++ y :: l2) (length l1) x = l1 ++ x :: l2.
Proof.
  induction l1 as [|h t IH]; simpl; [reflexivity|]. rewrite IH. reflexivity.
Qed.

Lemma skipn_step (k : nat) (a : list float) (y : float) (rest : list float) :
  skipn k a = y :: rest -> skipn (S k) a = rest.
Proof.
  revert a. induction k as [|k IH]; intros a H.
  - simpl in H. subst a. reflexivity.
  - destruct a as [|h t]; [discriminate|]. simpl in H. exact (IH t H).
Qed.

(** A loop that stores [f i] at every index of a block of the right size
    leaves [f 0, f 1, ...] in it. *)
Lemma fill_prefix (f : Z -> float) (k : nat) (a : list float) :
  (k <= length a)%nat ->
  fold_left (fun a i => store a (Z.to_nat i) (f i)) (map Z.of_nat (seq 0 k)) a
  = map f (map Z.of_nat (seq 0 k)) ++ skipn k a.
Proof.
  induction k as [|k IH]; intros Hk; [reflexivity|].
  rewrite seq_S, !map_app, fold_left_app, IH by lia.
  cbn [fold_left map Nat.add]. rewrite Nat2Z.id.
  destruct (skipn k a) as [|y rest] eqn:E.
  - apply (f_equal (@length float)) in E. rewrite length_skipn in E.
    simpl in E. lia.
  - rewrite (skipn_step _ _ _ _ E).
    replace k with (length (map f (map Z.of_nat (seq 0 k)))) at 2
      by (rewrite !length_map, length_seq; reflexivity).
    rewrite store_at_end, <- app_assoc. reflexivity.
Qed.

Lemma fill_all (f : Z -> float) (n : Z) (a : list float) :
  length a = Z.to_nat n ->
  fold_left (fun a i => store a (Z.to_nat i) (f i)) (indices n) a
  = map f (indices n).
Proof.
  intros H. unfold indices. rewrite fill_prefix by lia.
  rewrite <- H, skipn_all, app_nil_r. reflexivity.
Qed.

Lemma extract_fst (g : Globals) (job : FFTJob) (S : float) (l : list Z) :
  forall a b,
    fst (fold_left (extract_step L fft_re g job S) l (a, b))
    = fold_left (fun a i => store a (Z.to_nat i)
        (grid_price L fft_re (g_log_strike_range g) (g_alpha g) (g_fft_n g) job S i))
        l a.
Proof.
  induction l as [|i l IH]; intros a b; [reflexivity|]. cbn [fold_left].
  unfold extract_step at 2. cbn [fst snd]. apply IH.
Qed.

Lemma extract_snd (g : Globals) (job : FFTJob) (S : float) (l : list Z) :
  forall a b,
    snd (fold_left (extract_step L fft_re g job S) l (a, b))
    = fold_left (fun a i => store a (Z.to_nat i)
        (grid_strike L (g_log_strike_range g) (g_fft_n g) S i))
        l b.
Proof.
  induction l as [|i l IH]; intros a b; [reflexivity|]. cbn [fold_left].
  unfold extract_step at 2. cbn [fst snd]. apply IH.
Qed.

(** The extraction loop on two blocks of [g_fft_n] entries. *)
Lemma extract_spec (g : Globals) (job : FFTJob) (S : float) (ps ks : list float) :
  length ps = Z.to_nat (g_fft_n g) -> length ks = Z.to_nat (g_fft_n g) ->
  extract L fft_re g job S (ps, ks)
  = (map (grid_price L fft_re (g_log_strike_range g) (g_alpha g) (g_fft_n g) job S)
       (indices (g_fft_n g)),
     map (grid_strike L (g_log_strike_range g) (g_fft_n g) S)
       (indices (g_fft_n g))).
Proof.
  intros Hp Hk. unfold extract.
  rewrite (surjective_pairing (fold_left _ _ _)).
  rewrite extract_fst, extract_snd, !fill_all by assumption. reflexivity.
Qed.

Lemma fmax_zero_nonneg (x : float) : (0 <=? fmax 0.0 x) = true.
Proof.
  unfold fmax. change (is_nan 0.0) with false. cbv iota.
  destruct (is_nan x); [reflexivity|].
  destruct (0.0 <? x) eqn:E; [|reflexivity].
  apply ltb_leb. exact E.
Qed.

Lemma grid_price_nonneg (range alpha : float) (n : Z) (job : FFTJob)
    (S : float) (i : Z) :
  (0 <=? grid_price L fft_re range alpha n job S i) = true.
Proof. unfold grid_price. apply fmax_zero_nonneg. Qed.

Lemma length_indices (n : Z) : length (indices n) = Z.to_nat n.
Proof. unfold indices. rewrite length_map, length_seq. reflexivity. Qed.

(** The storage step hands the extraction loop two blocks of [g_fft_n]
    entries. *)
Lemma prepare_arrays_spec (g : Globals) :
  cache_wf L (g_cache g) ->
  exists ps ks : list float,
    prices (prepare_arrays g) = Some ps
    /\ strikes (prepare_arrays g) = Some ks
    /\ length ps = Z.to_nat (g_fft_n g)
    /\ length ks = Z.to_nat (g_fft_n g)
    /\ num_strikes (prepare_arrays g) = g_fft_n g.
Proof.
  unfold cache_wf, prepare_arrays. intros H.
  destruct (is_valid (g_cache g)) eqn:V.
  - destruct H as (ps & ks & Hp & Hk & Hn & Hl & Hks & _).
    cbn [andb].
    destruct (negb (cache_fft_n (g_cache g) =? g_fft_n g)%Z
              || negb (num_strikes (g_cache g) =? g_fft_n g)%Z) eqn:E.
    + cbn. exists (repeat 0.0 (Z.to_nat (g_fft_n g))),
        (repeat 0.0 (Z.to_nat (g_fft_n g))).
      rewrite repeat_length. repeat split.
    + apply orb_false_elim in E. destruct E as [E1 E2].
      apply negb_false_iff, Z.eqb_eq in E1.
      apply negb_false_iff, Z.eqb_eq in E2.
      rewrite Hp. exists ps, ks. rewrite Hp, Hk.
      repeat split; try congruence.
      rewrite Hks, length_map, length_indices. congruence.
  - destruct H as [Hp Hk]. cbn [andb]. rewrite Hp. cbn.
    exists (repeat 0.0 (Z.to_nat (g_fft_n g))),
      (repeat 0.0 (Z.to_nat (g_fft_n g))).
    rewrite repeat_length. repeat split.
Qed.

Lemma precompute_settings (g : Globals) (S : float) :
  let g' := precompute_fft_values g S in
  g_fft_n g' = g_fft_n g /\ g_log_strike_range g' = g_log_strike_range g
  /\ g_alpha g' = g_alpha g /\ g_eta g' = g_eta g /\ g_cache g' = g_cache g.
Proof.
  unfold precompute_fft_values.
  match goal with |- context [if ?b then _ else _] => destruct b end;
    cbn; repeat split.
Qed.

(** The state of the cache after a rebuild. *)
Lemma init_fft_cache_rebuild (g : Globals)
    (S r q T v0 kappa theta sigma rho : float) :
  cache_wf L (g_cache g) -> cache_hit g S r q T = false ->
  exists job : FFTJob,
    g_cache (init_fft_cache L fft_re g S r q T v0 kappa theta sigma rho)
    = MkFFTCache S r q T v0 kappa theta sigma rho
        (Some (map (grid_price L fft_re (g_log_strike_range g) (g_alpha g)
                      (g_fft_n g) job S) (indices (g_fft_n g))))
        (Some (map (grid_strike L (g_log_strike_range g) (g_fft_n g) S)
                 (indices (g_fft_n g))))
        (g_fft_n g) true
        (g_fft_n g) (g_log_strike_range g) (g_alpha g) (g_eta g).
Proof.
  intros Hwf Hmiss. unfold init_fft_cache. rewrite Hmiss.
  destruct (prepare_arrays_spec g Hwf) as (ps & ks & Hp & Hk & Hlp & Hlk & Hn).
  set (g1 := precompute_fft_values (set_cache g (prepare_arrays g)) S).
  destruct (precompute_settings (set_cache g (prepare_arrays g)) S)
    as (En & Er & Ea & Ee & _).
  fold g1 in En, Er, Ea, Ee. cbn in En, Er, Ea, Ee.
  rewrite Hp, Hk. cbn [block].
  eexists. cbn [g_cache set_cache].
  rewrite extract_spec by (rewrite En; assumption).
  cbn [fst snd]. rewrite En, Er, Ea, Ee, Hn. reflexivity.
Qed.

(** [init_fft_cache] keeps the cache well formed. *)
Lemma init_fft_cache_wf (g : Globals)
    (S r q T v0 kappa theta sigma rho : float) :
  cache_wf L (g_cache g) ->
  cache_wf L (g_cache (init_fft_cache L fft_re g S r q T v0 kappa theta sigma rho)).
Proof.
  intros Hwf. destruct (cache_hit g S r q T) eqn:E.
  - unfold init_fft_cache. rewrite E. exact Hwf.
  - destruct (init_fft_cache_rebuild g S r q T v0 kappa theta sigma rho Hwf E)
      as [job ->].
    unfold cache_wf. cbn.
    eexists _, _. repeat split.
    + rewrite length_map, length_indices. reflexivity.
    + apply Forall_forall. intros p Hin. apply in_map_iff in Hin.
      destruct Hin as (i & <- & _). apply grid_price_nonneg.
Qed.

Lemma initial_cache_wf : cache_wf L initial_cache.
Proof. unfold cache_wf. cbn. split; reflexivity. Qed.



Lemma quot2_between (lo hi : Z) :
  (1 < hi - lo)%Z -> (lo < Z.quot (lo + hi) 2 < hi)%Z.
Proof.
  intros H.
  pose proof (Z.quot_rem' (lo + hi) 2) as E.
  pose proof (Z.rem_bound_abs (lo + hi) 2) as B.
  lia.
Qed.

(** The binary search keeps [strikes[idx_low] < K] and
    [not (strikes[idx_high] < K)] and stops on adjacent indices. *)
Lemma bsearch_bracket (ks : list float) (K : float) (lo hi : Z) :
  (lo < hi)%Z -> (load ks lo <? K) = true -> (load ks hi <? K) = false ->
  (snd (bsearch ks K lo hi) = fst (bsearch ks K lo hi) + 1)%Z
  /\ (lo <= fst (bsearch ks K lo hi))%Z
  /\ (snd (bsearch ks K lo hi) <= hi)%Z
  /\ (load ks (fst (bsearch ks K lo hi)) <? K) = true
  /\ (load ks (snd (bsearch ks K lo hi)) <? K) = false.
Proof.
  funelim (bsearch ks K lo hi).
  - intros Hlt Hlo Hhi.
    pose proof (quot2_between idx_low idx_high l) as Hq.
    destruct (load ks (Z.quot (idx_low + idx_high) 2) <? K) eqn:E.
    + assert (Hm : ((idx_low + idx_high) ÷ 2 < idx_high)%Z) by lia.
      specialize (H Hm eq_refl Hhi). intuition lia.
    + assert (Hm : (idx_low < (idx_low + idx_high) ÷ 2)%Z) by lia.
      specialize (H0 Hm Hlo eq_refl). intuition lia.
  - intros Hlt Hlo Hhi. cbn [fst snd].
    repeat split; try lia; assumption.
Qed.

Lemma load_indices (f : Z -> float) (n i : Z) :
  (0 <= i < n)%Z -> load (map f (indices n)) i = f i.
Proof.
  intros H. unfold load, indices.
  rewrite nth_indep with (d' := f (Z.of_nat 0))
    by (rewrite !length_map, length_seq; lia).
  rewrite map_map, (map_nth (fun k => f (Z.of_nat k))), seq_nth by lia.
  rewrite Nat.add_0_l, Z2Nat.id by lia. reflexivity.
Qed.


Lemma load_in_length (l : list float) (i : Z) :
  is_nan (load l i) = false -> (Z.to_nat i < length l)%nat.
Proof.
  unfold load. intros H.
  destruct (Nat.lt_ge_cases (Z.to_nat i) (length l)) as [Hlt|Hge]; [exact Hlt|].
  rewrite nth_overflow in H by exact Hge. discriminate H.
Qed.

Lemma isfinite_not_nan (x : float) : isfinite x = true -> is_nan x = false.
Proof.
  unfold isfinite, is_finite. intros H.
  apply negb_true_iff, orb_false_elim in H. tauto.
Qed.

(** C9 (as amended): after [init_fft_cache] the cache is valid and
    [strikes[i]] is [exp(ln S - R + (2R/N) i)], computed in binary64 from the
    cached tags, for every [i] in [[0, N)].  For a query strictly inside the
    grid the binary search ends on adjacent indices with
    [strikes[idx_low] < K], and [K <= strikes[idx_high]] unless that strike
    is NaN; [get_cached_option_price] then interpolates between them.  The
    strikes themselves need not increase strictly. *)
Theorem strike_grid_bracketing (g : Globals)
    (S r q T v0 kappa theta sigma rho : float) :
  cache_wf L (g_cache g) ->
  let g' := init_fft_cache L fft_re g S r q T v0 kappa theta sigma rho in
  let c := g_cache g' in
  is_valid c = true
  /\ exists ps ks : list float,
       prices c = Some ps /\ strikes c = Some ks
       /\ length ks = Z.to_nat (num_strikes c)
       /\ (forall i : Z, (0 <= i < num_strikes c)%Z ->
           load ks i
           = c_exp L (c_log L (cache_S c) - cache_log_strike_range c
                      + 2.0 * cache_log_strike_range c
                        / of_int (num_strikes c) * of_int i))
       /\ (forall K : float,
           (load ks 0 <? K) = true ->
           (K <? load ks (num_strikes c - 1)) = true ->
           let idx_low := fst (bsearch ks K 0 (num_strikes c - 1)) in
           let idx_high := snd (bsearch ks K 0 (num_strikes c - 1)) in
           idx_high = (idx_low + 1)%Z
           /\ (0 <= idx_low)%Z /\ (idx_high <= num_strikes c - 1)%Z
           /\ (load ks idx_low <? K) = true
           /\ (load ks idx_high <? K) = false
           /\ (is_nan (load ks idx_high) = false ->
               (K <=? load ks idx_high) = true)
           /\ get_cached_option_price g' K
              = interpolate ps ks idx_low idx_high K).
Proof.
  intros Hwf g' c.
  pose proof (init_fft_cache_wf g S r q T v0 kappa theta sigma rho Hwf) as Hc.
  pose proof (init_fft_cache_valid g S r q T v0 kappa theta sigma rho)
    as Hv.
  fold g' c in Hc, Hv. split; [exact Hv|].
  unfold cache_wf in Hc. rewrite Hv in Hc.
  destruct Hc as (ps & ks & Hp & Hk & Hn & Hl & Hks & Hnn).
  exists ps, ks. split; [exact Hp|]. split; [exact Hk|]. split; [|split].
  - rewrite Hks, length_map, length_indices, Hn. reflexivity.
  - intros i Hi. rewrite Hks, load_indices by lia.
    unfold grid_strike, grid_log_strike. rewrite Hn. reflexivity.
  - intros K Hlo Hhi idx_low idx_high.
    assert (Hpos : (0 < num_strikes c - 1)%Z).
    { destruct (Z_lt_dec 0 (num_strikes c - 1)) as [|Hle]; [assumption|].
      exfalso. unfold load in Hlo, Hhi.
      replace (Z.to_nat (num_strikes c - 1)) with (Z.to_nat 0) in Hhi by lia.
      apply ltb_asym in Hlo. congruence. }
    pose proof (ltb_asym _ _ Hhi) as Hhi'.
    destruct (bsearch_bracket ks K 0 (num_strikes c - 1) Hpos Hlo Hhi')
      as (Hadj & Hge & Hle & Hl1 & Hl2).
    fold idx_low idx_high in Hadj, Hge, Hle, Hl1, Hl2.
    repeat split; try assumption.
    + intros Hnan. apply ltb_false_leb; [exact Hl2|exact Hnan|].
      apply (ltb_not_nan _ _ Hl1).
    + unfold get_cached_option_price. fold c. rewrite Hv, Hp, Hk.
      rewrite (ltb_antisym _ _ Hlo), (ltb_antisym _ _ Hhi).
      rewrite (surjective_pairing (bsearch ks K 0 (num_strikes c - 1))).
      reflexivity.
Qed.

End Cache.

(** C1 (the code departs from it): after a pricing at [v0 = 0.04], a second
    pricing that differs only in the Heston parameters ([v0 = 0.09], more
    than the tolerance away from the cached tag) does not rebuild the cache.
    The state, and with it the price vector, is untouched and still tagged
    [v0 = 0.04]; both calls return the same price, although a fresh build
    for the second parameter set gives a different one. *)
Lemma cache_reused_across_heston_parameters :
  let first := SV5.heston_call_fft ref_libm SV5.spectrum_of_v0 SV5.small_grid_globals
                 100 100 1 0.05 0 0.04 1.0 0.04 0.4 (-0.7) in
  let g1 := snd first in
  let second := SV5.heston_call_fft ref_libm SV5.spectrum_of_v0 g1
                  100 100 1 0.05 0 0.09 2.0 0.09 0.6 (-0.4) in
  SV5.is_valid (SV5.g_cache g1) = true
  /\ SV5.cache_v0 (SV5.g_cache g1) = 0.04
  /\ (SV5.g_cache_tolerance g1 <? fabs (SV5.cache_v0 (SV5.g_cache g1) - 0.09))
     = true
  /\ snd second = g1
  /\ fst second = fst first
  /\ (fst first
      =? fst (SV5.heston_call_fft ref_libm SV5.spectrum_of_v0 SV5.small_grid_globals
                100 100 1 0.05 0 0.09 2.0 0.09 0.6 (-0.4))) = false.
Proof.
  vm_compute. repeat split.
Qed.

(** C7 as stated fails: at [K/S = 1.6 > 1.5] with [T = 1] the parameter set
    is not "challenging", nothing is adjusted, and the cache is built on the
    default grid of 4096 points with range 3.0. *)
Lemma unadjusted_beyond_threshold :
  let after := snd (SV5.heston_call_fft ref_libm SV5.zero_spectrum
                      SV5.initial_globals
                      100 160 1 0.05 0 0.04 1.0 0.04 0.4 (-0.7)) in
  (1.5 <? 160 / 100) = true
  /\ SV5.is_challenging_parameter_set 100 160 1 0.04 1.0 0.04 0.4 (-0.7) = false
  /\ SV5.g_fft_n after = 4096%Z
  /\ SV5.g_log_strike_range after = 3.0
  /\ SV5.cache_fft_n (SV5.g_cache after) = 4096%Z
  /\ SV5.cache_log_strike_range (SV5.g_cache after) = 3.0.
Proof.
  vm_compute. repeat split.
Qed.

(** The initial state satisfies the hypothesis of the bracketing theorem. *)
Lemma strike_grid_bracketing_witness :
  SV5.cache_wf ref_libm (SV5.g_cache SV5.initial_globals)
  /\ let c := SV5.g_cache (SV5.init_fft_cache ref_libm SV5.zero_spectrum
                 SV5.initial_globals 100 0.05 0 1 0.04 1.0 0.04 0.4 (-0.7)) in
     SV5.is_valid c = true
     /\ exists ps ks : list float,
          SV5.prices c = Some ps /\ SV5.strikes c = Some ks
          /\ length ks = Z.to_nat (SV5.num_strikes c).
Proof.
  split; [apply initial_cache_wf|].
  destruct (strike_grid_bracketing ref_libm SV5.zero_spectrum SV5.initial_globals
              100 0.05 0 1 0.04 1.0 0.04 0.4 (-0.7)
              (initial_cache_wf ref_libm))
    as (Hv & ps & ks & Hp & Hk & Hl & _).
  split; [exact Hv|]. exists ps, ks. repeat split; assumption.
Defined.

(** C9 as stated fails: with the log-strike range set to [1e-20] (a positive
    value, as [--log-strike-range] accepts) and [S = 100], every grid point
    rounds to [ln S] and all strikes of the rebuilt cache are equal. *)
Lemma strikes_not_strictly_increasing :
  let g0 := SV5.set_fft SV5.initial_globals 16 1e-20 1.5 0.05 in
  let c := SV5.g_cache (SV5.init_fft_cache ref_libm SV5.zero_spectrum g0
             100 0.05 0 1 0.04 1.0 0.04 0.4 (-0.7)) in
  (0 <? SV5.g_log_strike_range g0) = true
  /\ SV5.is_valid c = true
  /\ (SV5.load (SV5.block (SV5.strikes c)) 0
      <? SV5.load (SV5.block (SV5.strikes c)) 1) = false
  /\ SV5.load (SV5.block (SV5.strikes c)) 0
     = SV5.load (SV5.block (SV5.strikes c)) 15.
Proof.
  vm_compute. repeat split.
Qed.


(** ** The calibration grid search *)

Section Calibration.

Import SV5 FloatFacts.

Variable L : Libm.
Variable fft_re : FFTJob -> Z -> float.

Lemma search_loop_found {A : Type} (body : A -> Calib -> Calib)
    (l : list A) (c : Calib) :
  g_found_good_match (cal_globals c) = true -> search_loop body l c = c.
Proof.
  intros H. destruct l as [|x l]; [reflexivity|]. simpl. rewrite H. reflexivity.
Qed.

Lemma search_loop_app {A : Type} (body : A -> Calib -> Calib)
    (l1 l2 : list A) :
  forall c : Calib,
    search_loop body (l1 ++ l2) c = search_loop body l2 (search_loop body l1 c).
Proof.
  induction l1 as [|x l1 IH]; intros c; [reflexivity|]. simpl.
  destruct (g_found_good_match (cal_globals c)) eqn:E.
  - symmetry. apply search_loop_found. exact E.
  - apply IH.
Qed.

Lemma search_loop_map {A B : Type} (f : A -> B) (body : B -> Calib -> Calib)
    (l : list A) :
  forall c : Calib,
    search_loop body (map f l) c = search_loop (fun x => body (f x)) l c.
Proof.
  induction l as [|x l IH]; intros c; [reflexivity|]. simpl.
  destruct (g_found_good_match (cal_globals c)); [reflexivity|]. apply IH.
Qed.

(** A loop whose body is a loop over [f a] is one loop over the
    concatenation. *)
Lemma search_loop_nest {A B : Type} (f : A -> list B)
    (body : B -> Calib -> Calib) (outer : list A) :
  forall c : Calib,
    search_loop (fun a => search_loop body (f a)) outer c
    = search_loop body (flat_map f outer) c.
Proof.
  induction outer as [|a outer IH]; intros c; [reflexivity|]. simpl.
  rewrite search_loop_app.
  destruct (g_found_good_match (cal_globals c)) eqn:E.
  - rewrite (search_loop_found body (f a) c E).
    symmetry. apply search_loop_found. exact E.
  - apply IH.
Qed.

Lemma search_loop_ext {A : Type} (b1 b2 : A -> Calib -> Calib) (l : list A) :
  (forall x c, b1 x c = b2 x c) ->
  forall c, search_loop b1 l c = search_loop b2 l c.
Proof.
  intros H. induction l as [|x l IH]; intros c; [reflexivity|]. simpl.
  destruct (g_found_good_match (cal_globals c)); [reflexivity|].
  rewrite H. apply IH.
Qed.

(** The four nested loops are one loop over [grid]. *)
Lemma calibrate_flat (g : Globals) (m S K T r q bs_iv : float) :
  calibrate L fft_re g m S K T r q bs_iv
  = search_loop (visit L fft_re m S K T r q)
      (grid (init_v0 L S K T r q bs_iv) (init_kappa L S K T r q))
      (start_state L g S K T r q bs_iv).
Proof.
  unfold calibrate, grid.
  rewrite <- search_loop_nest. apply search_loop_ext. intros a c.
  rewrite <- search_loop_nest. apply search_loop_ext. intros b c'.
  rewrite <- search_loop_nest. apply search_loop_ext. intros s c''.
  rewrite search_loop_map. reflexivity.
Qed.

Lemma heston_call_fft_found (g : Globals)
    (S K T r q v0 kappa theta sigma rho : float) :
  g_found_good_match
    (snd (heston_call_fft L fft_re g S K T r q v0 kappa theta sigma rho))
  = g_found_good_match g.
Proof.
  unfold heston_call_fft. rewrite init_fft_cache_valid. cbn [negb snd].
  destruct (init_fft_cache_frame L fft_re
              (configure g S K T v0 kappa theta sigma rho)
              S r q T v0 kappa theta sigma rho) as (_ & _ & ->).
  unfold configure, adapt_fft_parameters.
  repeat match goal with |- context [if ?b then _ else _] => destruct b end;
    reflexivity.
Qed.

(** One visit prices one tuple; it raises the flag only on a residual that
    improves on the best and is below [0.005 m], and the tuple is then the
    best one. *)
Lemma visit_spec (m S K T r q : float) (t : Tuple) (c : Calib) :
  let c' := visit L fft_re m S K T r q t c in
  priced c' = t :: priced c
  /\ (g_found_good_match (cal_globals c) = false ->
      g_found_good_match (cal_globals c') = true ->
      (best_diff c' <? 0.005 * m) = true
      /\ MkTuple (best_v c') (best_kappa c') (best_theta c') (best_sigma c')
           (best_rho c') = t).
Proof.
  unfold visit, try_tuple.
  pose proof (heston_call_fft_found (cal_globals c) S K T r q
                (t_v0 t) (t_kappa t) (t_theta t) (t_sigma t) (t_rho t)) as F.
  destruct (heston_call_fft L fft_re (cal_globals c) S K T r q
              (t_v0 t) (t_kappa t) (t_theta t) (t_sigma t) (t_rho t))
    as [model_price g1].
  cbn [snd] in F. destruct t as [a b th s rh]. cbn [t_v0 t_kappa t_theta t_sigma t_rho].
  destruct (fabs (model_price - m) <? best_diff c).
  - destruct (fabs (model_price - m) <? 0.005 * m) eqn:E; cbn.
    + split; [reflexivity|]. intros _ _. split; [exact E|reflexivity].
    + split; [reflexivity|]. intros H0 H1. congruence.
  - cbn. split; [reflexivity|]. intros H0 H1. congruence.
Qed.

(** The flat loop: the tuples priced are a prefix of the list, the whole
    list when the flag stays down; when the flag goes up the last tuple
    priced is the best one and its residual is below [0.005 m]. *)
Lemma search_trace (m S K T r q : float) (l : list Tuple) :
  forall c : Calib,
    g_found_good_match (cal_globals c) = false ->
    let c' := search_loop (visit L fft_re m S K T r q) l c in
    exists done rest : list Tuple,
      l = done ++ rest
      /\ priced c' = rev done ++ priced c
      /\ (g_found_good_match (cal_globals c') = false -> rest = [])
      /\ (g_found_good_match (cal_globals c') = true ->
          (best_diff c' <? 0.005 * m) = true
          /\ exists earlier : list Tuple,
               priced c'
               = MkTuple (best_v c') (best_kappa c') (best_theta c')
                   (best_sigma c') (best_rho c') :: earlier).
Proof.
  induction l as [|t l IH]; intros c Hc; cbn zeta.
  - exists [], []. cbn. rewrite Hc. repeat split; try discriminate.
  - cbn [search_loop]. rewrite Hc.
    destruct (visit_spec m S K T r q t c) as [Hp Hf].
    set (c1 := visit L fft_re m S K T r q t c) in *.
    destruct (g_found_good_match (cal_globals c1)) eqn:E1.
    + rewrite (search_loop_found _ l c1 E1).
      exists [t], l. rewrite E1. cbn [rev app]. repeat split; try discriminate.
      * exact Hp.
      * apply (Hf Hc eq_refl).
      * destruct (Hf Hc eq_refl) as [_ Hbest]. rewrite Hbest.
        exists (priced c). exact Hp.
    + destruct (IH c1 E1) as (done & rest & Hl & Hpr & Hr & Hb).
      exists (t :: done), rest. repeat split.
      * cbn. rewrite Hl. reflexivity.
      * rewrite Hpr, Hp. cbn [rev]. rewrite <- app_assoc. reflexivity.
      * exact Hr.
      * apply Hb. assumption.
      * apply Hb. assumption.
Qed.

Lemma grid_length (v0 kappa : float) : length (grid v0 kappa) = 135%nat.
Proof. reflexivity. Qed.

(** C4 (as amended): the search visits, in this order and with
    [theta = v0], the tuples of
    [v0 {1, 0.85, 1.15, 0.7, 1.3}] x [kappa {1, 1.5, 0.5}] x
    [sigma in {0.2, 0.4, 0.6}] x [rho in {-0.7, -0.4, 0}]
    ([v0] outermost, [rho] innermost): the tuples priced are a prefix of
    that list of 135, and all of it unless the search stops early. *)
Theorem calibration_grid_order (g : Globals) (m S K T r q bs_iv : float) :
  let c := calibrate L fft_re g m S K T r q bs_iv in
  let v0 := init_v0 L S K T r q bs_iv in
  let kappa := init_kappa L S K T r q in
  grid v0 kappa
  = flat_map (fun a =>
      flat_map (fun b =>
        flat_map (fun s =>
          map (fun rh => MkTuple a b a s rh) [-0.7; -0.4; 0.0])
          [0.2; 0.4; 0.6])
        [kappa; kappa * 1.5; kappa * 0.5])
      [v0; v0 * 0.85; v0 * 1.15; v0 * 0.7; v0 * 1.3]
  /\ exists rest : list Tuple,
       grid v0 kappa = rev (priced c) ++ rest
       /\ (g_found_good_match (cal_globals c) = false -> rest = []).
Proof.
  intros c v0 kappa. split; [reflexivity|].
  subst c. rewrite calibrate_flat. fold v0 kappa.
  destruct (search_trace m S K T r q (grid v0 kappa)
              (start_state L g S K T r q bs_iv) eq_refl)
    as (done & rest & Hl & Hp & Hr & _).
  exists rest. split; [|exact Hr].
  rewrite Hp. cbn [priced start_state]. rewrite app_nil_r, rev_involutive.
  exact Hl.
Qed.

(** C3 (as amended): when the anchor is available and the best residual
    exceeds [0.1 m], [implied_vol_sv] returns the anchor [sigma_bs] itself:
    nothing is blended and no skew adjustment is added.  Otherwise it returns
    [sigma_sv = sqrt(best v0)] when that is neither below 0.05 nor above 1.5,
    and the anchor when it is. *)
Theorem poor_calibration_returns_anchor (g : Globals) (m S K T r q : float) :
  let bs_iv := bs_implied_vol L m S K T r q in
  let c := calibrate L fft_re g m S K T r q bs_iv in
  let sv_vol := sqrt (best_v c) in
  let result := fst (implied_vol_sv L fft_re g m S K T r q) in
  (bs_iv <? 0.0) = false ->
  ((0.1 * m <? best_diff c) = true -> result = bs_iv)
  /\ ((0.1 * m <? best_diff c) = false ->
      (sv_vol <? 0.05) = true \/ (1.5 <? sv_vol) = true -> result = bs_iv)
  /\ ((0.1 * m <? best_diff c) = false ->
      (sv_vol <? 0.05) = false -> (1.5 <? sv_vol) = false -> result = sv_vol).
Proof.
  intros bs_iv c sv_vol result Hbs. subst result.
  unfold implied_vol_sv. fold bs_iv. rewrite Hbs. fold c. cbn [fst].
  unfold select_vol. fold sv_vol.
  split; [|split].
  - intros ->. reflexivity.
  - intros -> [H|H].
    + rewrite H. reflexivity.
    + rewrite H. destruct (sv_vol <? 0.05); reflexivity.
  - intros -> -> ->. reflexivity.
Qed.

End Calibration.

(** C4 as stated fails: on [(10.45, 100, 100, 1, 0.05, 0)] with an all-zero
    spectrum the search runs to the end.  It prices 135 tuples, the first
    one [(v0, kappa, 0.2, -0.7)] at the seeds themselves, while the product
    of the specification has 225 tuples whatever the seeds of [sigma] and
    [rho], the first one at [0.7 v0] and [0.5 kappa]. *)
Lemma grid_differs_from_specification :
  let bs_iv := SV5.bs_implied_vol ref_libm 10.45 100 100 1 0.05 0 in
  let c := SV5.calibrate ref_libm SV5.zero_spectrum SV5.small_grid_globals
             10.45 100 100 1 0.05 0 bs_iv in
  let v0 := SV5.init_v0 ref_libm 100 100 1 0.05 0 bs_iv in
  let kappa := SV5.init_kappa ref_libm 100 100 1 0.05 0 in
  length (rev (SV5.priced c)) = 135%nat
  /\ hd_error (rev (SV5.priced c)) = Some (SV5.MkTuple v0 kappa v0 0.2 (-0.7))
  /\ (forall sigma rho : float,
        length (SV5.spec_grid v0 kappa sigma rho) = 225%nat)
  /\ (forall sigma rho : float,
        option_map SV5.t_v0 (hd_error (SV5.spec_grid v0 kappa sigma rho))
        = Some (v0 * 0.7))
  /\ (v0 * 0.7 =? v0) = false.
Proof.
  vm_compute. repeat split.
Qed.

(** C5 as stated fails: on [(10.45, 100, 100, 1, 0.05, 0)] with an all-zero
    spectrum every model price is [0], no residual is below [0.005 m], and
    the pricer is called 135 times. *)
Lemma more_than_fifty_evaluations :
  let bs_iv := SV5.bs_implied_vol ref_libm 10.45 100 100 1 0.05 0 in
  let c := SV5.calibrate ref_libm SV5.zero_spectrum SV5.small_grid_globals
             10.45 100 100 1 0.05 0 bs_iv in
  (bs_iv <? 0.0) = false
  /\ length (SV5.priced c) = 135%nat
  /\ (50 <? 135)%nat = true
  /\ SV5.g_found_good_match (SV5.cal_globals c) = false
  /\ (SV5.best_diff c <? 0.005 * 10.45) = false.
Proof.
  vm_compute. repeat split.
Qed.

(** On [(10.45, 100, 100, 1, 0.05, 0)] the anchor is available and, with an
    all-zero spectrum, the residual exceeds [0.1 m]. *)
Lemma poor_calibration_returns_anchor_witness :
  (SV5.bs_implied_vol ref_libm 10.45 100 100 1 0.05 0 <? 0.0) = false
  /\ (0.1 * 10.45
      <? SV5.best_diff
           (SV5.calibrate ref_libm SV5.zero_spectrum SV5.small_grid_globals
              10.45 100 100 1 0.05 0
              (SV5.bs_implied_vol ref_libm 10.45 100 100 1 0.05 0))) = true
  /\ fst (SV5.implied_vol_sv ref_libm SV5.zero_spectrum SV5.small_grid_globals
            10.45 100 100 1 0.05 0)
     = SV5.bs_implied_vol ref_libm 10.45 100 100 1 0.05 0.
Proof.
  assert (H0 : (SV5.bs_implied_vol ref_libm 10.45 100 100 1 0.05 0 <? 0.0)
               = false) by (vm_compute; reflexivity).
  assert (H1 : (0.1 * 10.45
      <? SV5.best_diff
           (SV5.calibrate ref_libm SV5.zero_spectrum SV5.small_grid_globals
              10.45 100 100 1 0.05 0
              (SV5.bs_implied_vol ref_libm 10.45 100 100 1 0.05 0))) = true)
    by (vm_compute; reflexivity).
  split; [exact H0|]. split; [exact H1|].
  exact (proj1 (poor_calibration_returns_anchor ref_libm SV5.zero_spectrum
                  SV5.small_grid_globals 10.45 100 100 1 0.05 0 H0) H1).
Defined.

(** C3 as stated fails: on [(15, 100, 100, 2, 0.05, 0)] with an all-zero
    spectrum the best residual is [m], above [0.1 m].  The blend of the
    specification is [sigma_bs] plus half the term adjustment [-0.01], and it
    lies inside [[0.05, 1.5]]; [implied_vol_sv] returns [sigma_bs] itself. *)
Lemma anchor_returned_instead_of_blend :
  let bs_iv := SV5.bs_implied_vol ref_libm 15 100 100 2 0.05 0 in
  let c := SV5.calibrate ref_libm SV5.zero_spectrum SV5.small_grid_globals
             15 100 100 2 0.05 0 bs_iv in
  let result := fst (SV5.implied_vol_sv ref_libm SV5.zero_spectrum
                       SV5.small_grid_globals 15 100 100 2 0.05 0) in
  let blend := SV5.spec_blend (SV5.best_diff c) 15 (sqrt (SV5.best_v c)) bs_iv
                 (SV5.spec_skew_adjustment 100 100 2) in
  (0.1 * 15 <? SV5.best_diff c) = true
  /\ result = bs_iv
  /\ blend = bs_iv + 0.5 * -0.01
  /\ (0.05 <=? blend) = true /\ (blend <=? 1.5) = true
  /\ (result =? blend) = false.
Proof.
  vm_compute. repeat split.
Qed.


(** * Further properties of the two programs *)

(** ** Order, NaN and sign of binary64 values, continued *)

Module FloatOrder.

Import FloatFacts.

(** Comparison is transitive on numbers. *)
Lemma SFcompare_trans (a b c : spec_float) (x y : comparison) :
  SFcompare a b = Some x -> SFcompare b c = Some y ->
  x <> Gt -> y <> Gt ->
  SFcompare a c = Some (comp_join x y).
Proof.
  destruct a as [sa|sa| |sa ma ea], b as [sb|sb| |sb mb eb],
    c as [sc|sc| |sc mc ec]; simpl;
    try destruct sa; try destruct sb; try destruct sc; simpl;
    intros H1 H2 Hx Hy;
    try discriminate;
    try (injection H1 as <-); try (injection H2 as <-);
    try reflexivity; try congruence.
  all: revert Hx Hy;
    repeat match goal with
    | |- context [(?u ?= ?v)%Z] => destruct (Z.compare_spec u v); subst
    end.
  all: try lia.
  all: repeat match goal with
    | |- context [Pos.compare_cont Eq ?u ?v] =>
        change (Pos.compare_cont Eq u v) with (Pos.compare u v)
    end.
  all: repeat match goal with
    | |- context [(?u ?= ?v)%positive] => destruct (Pos.compare_spec u v); subst
    end; simpl; intros; try congruence; try lia.
Qed.

Lemma ltb_cmp (x y : float) :
  (x <? y) = true <-> SFcompare (Prim2SF x) (Prim2SF y) = Some Lt.
Proof.
  rewrite FloatAxioms.ltb_spec. unfold SFltb.
  destruct (SFcompare _ _) as [[]|]; split; congruence.
Qed.

Lemma leb_cmp (x y : float) :
  (x <=? y) = true <->
  exists c, SFcompare (Prim2SF x) (Prim2SF y) = Some c /\ c <> Gt.
Proof.
  rewrite FloatAxioms.leb_spec. unfold SFleb.
  destruct (SFcompare _ _) as [[]|]; split; try congruence;
    try (intros _; eexists; split; [reflexivity|congruence]);
    intros (c & E & N); congruence.
Qed.

Lemma ltb_trans (x y z : float) :
  (x <? y) = true -> (y <? z) = true -> (x <? z) = true.
Proof.
  rewrite !ltb_cmp. intros H1 H2.
  rewrite (SFcompare_trans _ _ _ _ _ H1 H2); [reflexivity| |]; congruence.
Qed.

Lemma ltb_leb_trans (x y z : float) :
  (x <? y) = true -> (y <=? z) = true -> (x <? z) = true.
Proof.
  rewrite !ltb_cmp, leb_cmp. intros H1 (c & H2 & N).
  rewrite (SFcompare_trans _ _ _ _ _ H1 H2); [reflexivity|congruence|exact N].
Qed.

Lemma leb_ltb_trans (x y z : float) :
  (x <=? y) = true -> (y <? z) = true -> (x <? z) = true.
Proof.
  rewrite !ltb_cmp, leb_cmp. intros (c & H1 & N) H2.
  rewrite (SFcompare_trans _ _ _ _ _ H1 H2); [|exact N|congruence].
  destruct c; try reflexivity. congruence.
Qed.

Lemma leb_trans (x y z : float) :
  (x <=? y) = true -> (y <=? z) = true -> (x <=? z) = true.
Proof.
  rewrite !leb_cmp. intros (c & H1 & N) (d & H2 & M).
  exists (comp_join c d). split.
  - apply (SFcompare_trans _ _ _ _ _ H1 H2); assumption.
  - destruct c; simpl; congruence.
Qed.

Lemma leb_false_ltb (x y : float) :
  (x <=? y) = false -> is_nan x = false -> is_nan y = false ->
  (y <? x) = true.
Proof.
  rewrite FloatAxioms.ltb_spec, FloatAxioms.leb_spec. unfold SFltb, SFleb.
  rewrite (SFcompare_antisym (Prim2SF x) (Prim2SF y)).
  intros H Hx Hy.
  destruct (SFcompare (Prim2SF x) (Prim2SF y)) as [[]|] eqn:E;
    simpl; try congruence.
  apply SFcompare_None in E.
  destruct E as [E|E]; apply is_nan_spec in E; congruence.
Qed.

Lemma is_nan_false (x : float) : is_nan x = false <-> Prim2SF x <> S754_nan.
Proof.
  pose proof (is_nan_spec x) as H. destruct (is_nan x); split; intros; try congruence.
  - exfalso. apply H0. apply H. reflexivity.
  - intros E. apply H in E. discriminate.
Qed.

Lemma isfinite_spec (x : float) :
  isfinite x = true <->
  (exists s, Prim2SF x = S754_zero s)
  \/ (exists s m e, Prim2SF x = S754_finite s m e).
Proof.
  unfold isfinite, is_finite.
  destruct (is_nan x) eqn:E.
  - apply is_nan_spec in E. rewrite E. simpl.
    split; [discriminate|intros [[? H]|(? & ? & ? & H)]; discriminate].
  - apply is_nan_false in E. unfold is_infinity.
    rewrite FloatAxioms.eqb_spec, abs_spec.
    change (Prim2SF infinity) with (S754_infinity false).
    unfold SFeqb, SFabs.
    destruct (Prim2SF x) as [s|s| |s m e]; simpl; try congruence.
    + split; eauto.
    + split; [discriminate|intros [[? H]|(? & ? & ? & H)]; discriminate].
    + split; eauto.
Qed.

Lemma shr_1_nonneg (mrs : shr_record) :
  (0 <= shr_m mrs)%Z -> (0 <= shr_m (shr_1 mrs))%Z.
Proof.
  destruct mrs as [m r s]. simpl.
  destruct m as [|[p|p|]|[p|p|]]; simpl; lia.
Qed.

Lemma iter_shr_1_nonneg (p : positive) :
  forall mrs : shr_record,
    (0 <= shr_m mrs)%Z -> (0 <= shr_m (SpecFloat.iter_pos shr_1 p mrs))%Z.
Proof.
  induction p as [p IH|p IH|]; intros mrs H; simpl.
  - apply IH, IH, shr_1_nonneg, H.
  - apply IH, IH, H.
  - apply shr_1_nonneg, H.
Qed.

Lemma shr_fexp_nonneg (m e : Z) (l : location) :
  (0 <= m)%Z -> (0 <= shr_m (fst (shr_fexp prec emax m e l)))%Z.
Proof.
  intros H. unfold shr_fexp, shr.
  assert (H0 : (0 <= shr_m (shr_record_of_loc m l))%Z)
    by (destruct l as [|[]]; exact H).
  destruct (_ - e)%Z; simpl; try exact H0.
  apply iter_shr_1_nonneg, H0.
Qed.

Lemma round_nearest_even_nonneg (m : Z) (l : location) :
  (0 <= m)%Z -> (0 <= round_nearest_even m l)%Z.
Proof.
  intros H. destruct l as [|[]]; simpl; try lia.
  destruct (Z.even m); lia.
Qed.

(** Rounding a magnitude yields a zero, a finite number or an infinity. *)
Lemma binary_round_aux_not_nan (s : bool) (m e : Z) (l : location) :
  (0 <= m)%Z -> binary_round_aux prec emax s m e l <> S754_nan.
Proof.
  intros H. unfold binary_round_aux.
  pose proof (shr_fexp_nonneg m e l H) as H1.
  destruct (shr_fexp prec emax m e l) as [mrs' e']. cbn [fst] in H1.
  pose proof (shr_fexp_nonneg _ e' loc_Exact
                (round_nearest_even_nonneg _ (loc_of_shr_record mrs') H1)) as H2.
  destruct (shr_fexp prec emax _ e' loc_Exact) as [mrs'' e'']. cbn [fst] in H2.
  destruct (shr_m mrs''); try discriminate; [|lia].
  destruct (Z.leb e'' _); discriminate.
Qed.

Lemma binary_round_not_nan (s : bool) (m : positive) (e : Z) :
  binary_round prec emax s m e <> S754_nan.
Proof.
  unfold binary_round.
  destruct (shl_align _ _ _) as [mz ez].
  apply binary_round_aux_not_nan. lia.
Qed.

Lemma binary_normalize_not_nan (m e : Z) (s : bool) :
  binary_normalize prec emax m e s <> S754_nan.
Proof.
  unfold binary_normalize. destruct m; try discriminate;
    apply binary_round_not_nan.
Qed.

(** Adding or subtracting a finite number, or multiplying by a finite
    number other than zero, produces no NaN out of a number. *)
Lemma add_finite_not_nan (a b : float) :
  isfinite a = true -> is_nan b = false -> is_nan (a + b) = false.
Proof.
  rewrite isfinite_spec, !is_nan_false, add_spec. unfold SF64add, SFadd.
  intros [[s Ha]|(s & m & e & Ha)] Hb; rewrite Ha;
    destruct (Prim2SF b) as [sb|sb| |sb mb eb]; try congruence;
    try discriminate; try apply binary_normalize_not_nan.
  destruct s, sb; discriminate.
Qed.

Lemma sub_finite_not_nan (a b : float) :
  isfinite a = true -> is_nan b = false -> is_nan (a - b) = false.
Proof.
  rewrite isfinite_spec, !is_nan_false, sub_spec. unfold SF64sub, SFsub.
  intros [[s Ha]|(s & m & e & Ha)] Hb; rewrite Ha;
    destruct (Prim2SF b) as [sb|sb| |sb mb eb]; try congruence;
    try discriminate; try apply binary_normalize_not_nan.
  destruct s, sb; discriminate.
Qed.

Lemma sub_finite_not_nan_r (a b : float) :
  is_nan a = false -> isfinite b = true -> is_nan (a - b) = false.
Proof.
  rewrite isfinite_spec, !is_nan_false, sub_spec. unfold SF64sub, SFsub.
  intros Ha [[s Hb]|(s & m & e & Hb)]; rewrite Hb;
    destruct (Prim2SF a) as [sa|sa| |sa ma ea]; try congruence;
    try discriminate; try apply binary_normalize_not_nan.
  destruct sa, s; discriminate.
Qed.

Lemma mul_finite_not_nan (a b : float) (s : bool) (m : positive) (e : Z) :
  Prim2SF a = S754_finite s m e -> is_nan b = false -> is_nan (a * b) = false.
Proof.
  rewrite !is_nan_false, mul_spec. unfold SF64mul, SFmul.
  intros Ha Hb; rewrite Ha;
    destruct (Prim2SF b) as [sb|sb| |sb mb eb]; try congruence;
    try discriminate. apply binary_round_aux_not_nan. lia.
Qed.

Lemma mul_finite_not_nan_r (a b : float) (s : bool) (m : positive) (e : Z) :
  is_nan a = false -> Prim2SF b = S754_finite s m e -> is_nan (a * b) = false.
Proof.
  rewrite !is_nan_false, mul_spec. unfold SF64mul, SFmul.
  intros Ha Hb; rewrite Hb;
    destruct (Prim2SF a) as [sa|sa| |sa ma ea]; try congruence;
    try discriminate. apply binary_round_aux_not_nan. lia.
Qed.


(** *** The sign of a difference *)

Lemma iter_xO_pow (d m : positive) :
  Z.pos (Pos.iter xO m d) = (Z.pos m * 2 ^ Z.pos d)%Z.
Proof.
  induction d as [|d IH] using Pos.peano_ind.
  - simpl. lia.
  - rewrite Pos.iter_succ, Pos2Z.inj_succ, Z.pow_succ_r by lia.
    rewrite Pos2Z.inj_xO, IH. lia.
Qed.

Lemma shl_align_fst (m : positive) (e ez : Z) :
  (ez <= e)%Z ->
  Z.pos (fst (shl_align m e ez)) = (Z.pos m * 2 ^ (e - ez))%Z.
Proof.
  intros H. unfold shl_align.
  destruct (ez - e)%Z as [|d|d] eqn:E; cbn [fst].
  - replace (e - ez)%Z with 0%Z by lia. simpl. lia.
  - lia.
  - replace (e - ez)%Z with (Z.pos d) by lia. apply iter_xO_pow.
Qed.

Lemma digits2_pos_bounds (m : positive) :
  (2 ^ (Z.pos (digits2_pos m) - 1) <= Z.pos m < 2 ^ Z.pos (digits2_pos m))%Z.
Proof.
  induction m as [m IH|m IH|]; cbn [digits2_pos].
  - rewrite Pos2Z.inj_succ.
    replace (Z.succ (Z.pos (digits2_pos m)) - 1)%Z
      with (Z.succ (Z.pos (digits2_pos m) - 1)) by lia.
    rewrite !Z.pow_succ_r by lia. lia.
  - rewrite Pos2Z.inj_succ.
    replace (Z.succ (Z.pos (digits2_pos m)) - 1)%Z
      with (Z.succ (Z.pos (digits2_pos m) - 1)) by lia.
    rewrite !Z.pow_succ_r by lia. lia.
  - simpl. lia.
Qed.

(** Of two valid positive finite numbers, the one with the smaller exponent
    is the smaller one. *)
Lemma smaller_exponent (m1 m2 : positive) (e1 e2 : Z) :
  bounded prec emax m1 e1 = true -> bounded prec emax m2 e2 = true ->
  (e1 < e2)%Z ->
  (Z.pos m1 < Z.pos m2 * 2 ^ (e2 - e1))%Z.
Proof.
  unfold bounded, canonical_mantissa, fexp, SpecFloat.emin, prec, emax.
  intros H1 H2 He.
  apply andb_prop in H1. destruct H1 as [H1 _].
  apply andb_prop in H2. destruct H2 as [H2 _].
  apply Z.eqb_eq in H1. apply Z.eqb_eq in H2.
  pose proof (digits2_pos_bounds m1) as [_ B1].
  pose proof (digits2_pos_bounds m2) as [B2 _].
  assert (D2 : Z.pos (digits2_pos m2) = 53%Z) by lia.
  assert (D1 : (Z.pos (digits2_pos m1) <= 53)%Z) by lia.
  rewrite D2 in B2.
  assert (P1 : (2 ^ Z.pos (digits2_pos m1) <= 2 ^ 53)%Z)
    by (apply Z.pow_le_mono_r; lia).
  assert (P2 : (2 ^ 1 <= 2 ^ (e2 - e1))%Z)
    by (apply Z.pow_le_mono_r; lia).
  change (2 ^ (53 - 1))%Z with 4503599627370496%Z in B2.
  change (2 ^ 53)%Z with 9007199254740992%Z in P1.
  change (2 ^ 1)%Z with 2%Z in P2.
  nia.
Qed.

Lemma SFsub_sign (a b : spec_float) :
  valid_binary a = true -> valid_binary b = true ->
  SFcompare b a = Some Lt ->
  sf_sign_is false (SFsub prec emax a b).
Proof.
  destruct a as [sa|sa| |sa ma ea], b as [sb|sb| |sb mb eb];
    cbn [valid_binary SFsub SFcompare]; intros Va Vb H;
    try discriminate H;
    try (destruct sa, sb; try discriminate H; reflexivity);
    try (destruct sa; try discriminate H; reflexivity);
    try (destruct sb; try discriminate H; reflexivity).
  cbv zeta.
  assert (Hd : (0 <= cond_Zopp sa (Z.pos (fst (shl_align ma ea (Z.min ea eb))))
                    - cond_Zopp sb (Z.pos (fst (shl_align mb eb (Z.min ea eb)))))%Z).
  { rewrite !shl_align_fst by lia.
    destruct sa, sb; cbn [cond_Zopp]; try discriminate H; [| |].
    - (* both negative *)
      destruct (Z.compare_spec eb ea) as [E|E|E]; try discriminate H.
      + subst eb. rewrite Z.min_id, Z.sub_diag. simpl Z.pow.
        injection H as H. change (Pos.compare_cont Eq mb ma) with (Pos.compare mb ma) in H.
        destruct (Pos.compare_spec mb ma); try discriminate H. lia.
      + pose proof (smaller_exponent ma mb ea eb Va Vb E).
        rewrite Z.min_l by lia. rewrite Z.sub_diag. simpl (2 ^ 0)%Z. lia.
    - (* a positive, b negative *)
      assert (0 < 2 ^ (ea - Z.min ea eb))%Z by (apply Z.pow_pos_nonneg; lia).
      assert (0 < 2 ^ (eb - Z.min ea eb))%Z by (apply Z.pow_pos_nonneg; lia).
      nia.
    - (* both positive *)
      destruct (Z.compare_spec eb ea) as [E|E|E]; try discriminate H.
      + subst eb. rewrite Z.min_id, Z.sub_diag. simpl Z.pow.
        injection H as H. change (Pos.compare_cont Eq mb ma) with (Pos.compare mb ma) in H.
        destruct (Pos.compare_spec mb ma); try discriminate H. lia.
      + pose proof (smaller_exponent mb ma eb ea Vb Va E).
        rewrite Z.min_r by lia. rewrite Z.sub_diag. simpl (2 ^ 0)%Z. lia. }
  unfold binary_normalize.
  destruct (_ - _)%Z; try lia.
  - reflexivity.
  - apply (binary_round_sign false).
Qed.

(** The difference of a number and a smaller one has its sign bit clear. *)
Lemma ltb_sub_signed_nonneg (a b : float) :
  (b <? a) = true -> signed_nonneg (a - b).
Proof.
  rewrite ltb_cmp. intros H. unfold signed_nonneg.
  rewrite sub_spec. unfold SF64sub.
  pose proof (SFsub_sign (Prim2SF a) (Prim2SF b)
                (Prim2SF_valid a) (Prim2SF_valid b) H) as Hs.
  unfold sf_sign_is in Hs.
  destruct (SFsub prec emax (Prim2SF a) (Prim2SF b)); auto.
Qed.


(** *** Numbers that are not negative *)

Lemma not_neg_spec (x : float) :
  (x <? 0) = false <->
  match Prim2SF x with
  | S754_zero _ | S754_nan => True
  | S754_infinity s | S754_finite s _ _ => s = false
  end.
Proof.
  rewrite FloatAxioms.ltb_spec. unfold SFltb.
  change (Prim2SF 0) with (S754_zero false).
  destruct (Prim2SF x) as [s|s| |s m e]; simpl; try tauto;
    destruct s; split; intros; congruence.
Qed.

Lemma not_leb_zero_spec (x : float) :
  (x <=? 0) = false <->
  match Prim2SF x with
  | S754_zero _ => False
  | S754_nan => True
  | S754_infinity s | S754_finite s _ _ => s = false
  end.
Proof.
  rewrite FloatAxioms.leb_spec. unfold SFleb.
  change (Prim2SF 0) with (S754_zero false).
  destruct (Prim2SF x) as [s|s| |s m e]; simpl; try tauto;
    try (destruct s; split; intros; congruence).
  split; [discriminate|tauto].
Qed.

(** A positive number times a number that is not negative is not negative. *)
Lemma mul_not_neg (a b : float) :
  (a <=? 0) = false -> (b <? 0) = false -> (a * b <? 0) = false.
Proof.
  rewrite not_leb_zero_spec, !not_neg_spec, mul_spec. unfold SF64mul, SFmul.
  destruct (Prim2SF a) as [sa|sa| |sa ma ea], (Prim2SF b) as [sb|sb| |sb mb eb];
    intros Ha Hb; try subst sa; try subst sb; try exact I; try reflexivity;
    try contradiction.
  pose proof (binary_round_aux_sign false (Z.pos (ma * mb)) (ea + eb) loc_Exact)
    as Hs.
  cbn [xorb]. unfold sf_sign_is in Hs.
  destruct (binary_round_aux _ _ _ _ _ _); auto.
Qed.

(** The product of two numbers that are not negative is not negative. *)
Lemma mul_not_neg_both (a b : float) :
  (a <? 0) = false -> (b <? 0) = false -> (a * b <? 0) = false.
Proof.
  rewrite !not_neg_spec, mul_spec. unfold SF64mul, SFmul.
  destruct (Prim2SF a) as [sa|sa| |sa ma ea], (Prim2SF b) as [sb|sb| |sb mb eb];
    intros Ha Hb; try subst sa; try subst sb; try exact I; try reflexivity.
  pose proof (binary_round_aux_sign false (Z.pos (ma * mb)) (ea + eb) loc_Exact)
    as Hs.
  cbn [xorb]. unfold sf_sign_is in Hs.
  destruct (binary_round_aux _ _ _ _ _ _); auto.
Qed.

(** Dividing a number that is not negative by a positive finite number
    gives a number that is not negative. *)
Lemma div_not_neg (a b : float) (m : positive) (e : Z) :
  (a <? 0) = false -> Prim2SF b = S754_finite false m e ->
  (a / b <? 0) = false.
Proof.
  rewrite !not_neg_spec, div_spec. unfold SF64div, SFdiv.
  intros Ha Hb. rewrite Hb.
  destruct (Prim2SF a) as [sa|sa| |sa ma ea]; try subst sa; try exact I;
    try reflexivity.
  destruct (SFdiv_core_binary _ _ _ _ _ _) as [[mz ez] lz].
  pose proof (binary_round_aux_sign false mz ez lz) as Hs.
  cbn [xorb]. unfold sf_sign_is in Hs.
  destruct (binary_round_aux _ _ _ _ _ _); auto.
Qed.

(** The square root of a number that is not at or below zero is not
    negative. *)
Lemma sqrt_not_neg (a : float) :
  (a <=? 0) = false -> (sqrt a <? 0) = false.
Proof.
  rewrite not_leb_zero_spec, not_neg_spec, sqrt_spec. unfold SF64sqrt, SFsqrt.
  destruct (Prim2SF a) as [sa|sa| |sa ma ea]; intros Ha; try subst sa;
    try exact I; try reflexivity; try contradiction.
  destruct (SFsqrt_core_binary _ _ _ _) as [[mz ez] lz].
  pose proof (binary_round_aux_sign false mz ez lz) as Hs.
  unfold sf_sign_is in Hs.
  destruct (binary_round_aux _ _ _ _ _ _); auto.
Qed.

(** A finite number is within any positive tolerance of itself. *)
Lemma sub_self (x : float) : isfinite x = true -> x - x = 0.
Proof.
  intros H. apply Prim2SF_inj. rewrite sub_spec. unfold SF64sub, SFsub.
  change (Prim2SF 0) with (S754_zero false).
  apply isfinite_spec in H.
  destruct H as [[s H]|(s & m & e & H)]; rewrite H.
  - destruct s; reflexivity.
  - cbv zeta. rewrite Z.sub_diag. reflexivity.
Qed.

Lemma self_within (x tol : float) :
  isfinite x = true -> (0.0 <? tol) = true -> (fabs (x - x) <? tol) = true.
Proof.
  intros H Ht. rewrite (sub_self x H). exact Ht.
Qed.

End FloatOrder.

(** ** [calculate_iv_v2.c]: the Newton solver and the program *)

Section ImpliedVol.

Import IV2 FloatFacts FloatOrder.

Variable L : Libm.

Lemma init_vol_seed_not_nan (m : float) :
  is_nan (if m <? 0.95 then 0.2 - 0.05 * (1 - m)
          else if 1.05 <? m then 0.2 + 0.05 * (m - 1) else 0.2) = false.
Proof.
  destruct (m <? 0.95) eqn:E1.
  - apply ltb_not_nan in E1. destruct E1 as [Hm _].
    apply sub_finite_not_nan; [reflexivity|].
    eapply mul_finite_not_nan; [vm_compute; reflexivity|].
    apply sub_finite_not_nan; [reflexivity|exact Hm].
  - destruct (1.05 <? m) eqn:E2; [|reflexivity].
    apply ltb_not_nan in E2. destruct E2 as [_ Hm].
    apply add_finite_not_nan; [reflexivity|].
    eapply mul_finite_not_nan; [vm_compute; reflexivity|].
    apply sub_finite_not_nan_r; [exact Hm|reflexivity].
Qed.

(** The initial guess lies in [[0.01, 1.0]], whatever the inputs. *)
Lemma init_vol_range (S K T : float) :
  (0.01 <=? init_vol S K T) = true /\ (init_vol S K T <=? 1.0) = true.
Proof.
  unfold init_vol.
  pose proof (init_vol_seed_not_nan (K / S)) as H1.
  set (v1 := if K / S <? 0.95 then _ else _) in *.
  assert (H2 : is_nan (if T <? 0.1 then v1 * 1.2
                       else if 2 <? T then v1 * 0.9 else v1) = false).
  { destruct (T <? 0.1); [|destruct (2 <? T)]; try exact H1;
      (eapply mul_finite_not_nan_r; [exact H1|vm_compute; reflexivity]). }
  set (v2 := if T <? 0.1 then _ else _) in *.
  destruct (v2 <? 0.01) eqn:E1.
  - split; reflexivity.
  - destruct (1.0 <? v2) eqn:E2.
    + split; reflexivity.
    + split; apply ltb_false_leb; try assumption; reflexivity.
Qed.

Lemma reasonable_vol_range (S K T : float) :
  (0.001 <? reasonable_vol S K T) = true
  /\ (reasonable_vol S K T <=? 1.0) = true.
Proof.
  unfold reasonable_vol.
  destruct (K / S <? 0.9); [|destruct (1.1 <? K / S)];
    (destruct (T <? 0.1); [|destruct (2 <? T)]); split; reflexivity.
Qed.

(** The iterate stays in [(0.001, 1.0]]. *)
Lemma newton_range (m S K T r q : float) (iters : nat) :
  forall sigma best_sigma min_diff : float,
    (0.001 <? sigma) = true -> (sigma <=? 1.0) = true ->
    match newton L m S K T r q iters sigma best_sigma min_diff with
    | Returned v => (0.001 <? v) = true /\ (v <=? 1.0) = true
    | LeftLoop _ _ => True
    end.
Proof.
  induction iters as [|k IH]; intros sigma best_sigma min_diff Hlo Hhi;
    cbn [newton]; [exact I|].
  cbv zeta.
  destruct (bs_call L S K T r q sigma <? 0); [exact I|].
  destruct (fabs (bs_call L S K T r q sigma - m) <? 1e-8);
    [split; assumption|].
  destruct (fabs (bs_vega L S K T r q sigma) <? 1e-8); [exact I|].
  set (new_sigma := sigma - _ * 0.5).
  destruct (new_sigma <=? 0.001) eqn:E1; [exact I|].
  destruct (1.0 <? new_sigma) eqn:E2; [exact I|].
  destruct (isfinite new_sigma) eqn:E3; [|exact I].
  cbn [orb negb].
  assert (Hn : is_nan new_sigma = false) by (apply isfinite_not_nan; exact E3).
  assert (Hlo' : (0.001 <? new_sigma) = true)
    by (apply leb_false_ltb; [exact E1|exact Hn|reflexivity]).
  assert (Hhi' : (new_sigma <=? 1.0) = true)
    by (apply ltb_false_leb; [exact E2|reflexivity|exact Hn]).
  destruct (fabs (new_sigma - sigma) <? 1e-8); [split; assumption|].
  apply IH; assumption.
Qed.

Lemma implied_vol_in_range (m S K T r q : float) :
  (m <=? 0.0) || (S <=? 0.0) || (K <=? 0.0) || (T <=? 0.0) = false ->
  (0.001 <? implied_vol L m S K T r q) = true
  /\ (implied_vol L m S K T r q <=? 1.0) = true.
Proof.
  intros Hv. unfold implied_vol. rewrite Hv. cbv zeta.
  match goal with |- context [if ?b then 0.3 else _] => destruct b end;
    [split; reflexivity|].
  match goal with |- context [if ?b then 0.2 else _] => destruct b end;
    [split; reflexivity|].
  set (atm := sqrt (2 * M_PI / T) * m / S).
  match goal with
  | |- context [if ?b then atm else ?rest] =>
      assert (Hrest : (0.001 <? rest) = true /\ (rest <=? 1.0) = true);
        [|destruct b eqn:Eb; [|exact Hrest]]
  end.
  - destruct (init_vol_range S K T) as [Hlo Hhi].
    assert (Hlo' : (0.001 <? init_vol S K T) = true)
      by (apply (ltb_leb_trans 0.001 0.01); [reflexivity|exact Hlo]).
    destruct (fabs (_ - m) <? 0.001); [split; assumption|].
    pose proof (newton_range m S K T r q 50 (init_vol S K T) (init_vol S K T)
                  DBL_MAX Hlo' Hhi) as Hn.
    destruct (newton L m S K T r q 50 _ _ _) as [v|best_sigma min_diff];
      [exact Hn|].
    destruct (0.01 <? best_sigma) eqn:B1; cbn [andb];
      [|apply reasonable_vol_range].
    destruct (best_sigma <? 1.0) eqn:B2; cbn [andb];
      [|apply reasonable_vol_range].
    destruct (min_diff <? 0.1); [|apply reasonable_vol_range].
    split.
    + apply (ltb_trans 0.001 0.01); [reflexivity|exact B1].
    + apply ltb_leb. exact B2.
  - apply andb_prop in Eb. destruct Eb as [_ Eb].
    apply andb_prop in Eb. destruct Eb as [Eb _].
    apply andb_prop in Eb. destruct Eb as [A1 A2].
    split.
    + apply (ltb_leb_trans 0.001 0.1 atm); [reflexivity|exact A1].
    + apply (leb_trans atm 0.5 1.0); [exact A2|reflexivity].
Qed.

(** X4: [implied_vol] returns the sentinel [-1.0] exactly when one of the
    market price, the spot, the strike and the time is at or below zero;
    on every other input (NaN included, which passes these tests) it returns
    a number above 0.001 and at most 1.0, whichever of its exits is taken:
    the shortcuts, the initial guess, the Newton iteration or the fallback
    estimate. *)
Theorem implied_vol_range (m S K T r q : float) :
  let v := implied_vol L m S K T r q in
  ((m <=? 0.0) || (S <=? 0.0) || (K <=? 0.0) || (T <=? 0.0) = true ->
   v = -1.0)
  /\ ((m <=? 0.0) || (S <=? 0.0) || (K <=? 0.0) || (T <=? 0.0) = false ->
      (0.001 <? v) = true /\ (v <=? 1.0) = true).
Proof.
  cbv zeta. split.
  - intros H. unfold implied_vol. rewrite H. reflexivity.
  - apply implied_vol_in_range.
Qed.

(** X5: a value that the Newton loop returns either reprices to within
    [1e-8] of the market price, or is the damped Newton step from the
    previous iterate and lies within [1e-8] of it (the previous iterate not
    repricing to within [1e-8]). *)
Theorem newton_returned (m S K T r q : float) (iters : nat)
    (sigma best_sigma min_diff v : float) :
  newton L m S K T r q iters sigma best_sigma min_diff = Returned v ->
  (fabs (bs_call L S K T r q v - m) <? 1e-8) = true
  \/ exists previous : float,
       (fabs (v - previous) <? 1e-8) = true
       /\ (fabs (bs_call L S K T r q previous - m) <? 1e-8) = false
       /\ v = previous
              - (bs_call L S K T r q previous - m)
                / bs_vega L S K T r q previous * 0.5.
Proof.
  revert sigma best_sigma min_diff v.
  induction iters as [|k IH]; intros sigma best_sigma min_diff v;
    cbn [newton]; [discriminate|].
  cbv zeta.
  destruct (bs_call L S K T r q sigma <? 0); [discriminate|].
  destruct (fabs (bs_call L S K T r q sigma - m) <? 1e-8) eqn:E1.
  { intros H. injection H as <-. left. exact E1. }
  destruct (fabs (bs_vega L S K T r q sigma) <? 1e-8); [discriminate|].
  set (new_sigma := sigma - _ * 0.5).
  destruct ((new_sigma <=? 0.001) || (1.0 <? new_sigma)
            || negb (isfinite new_sigma)); [discriminate|].
  destruct (fabs (new_sigma - sigma) <? 1e-8) eqn:E2.
  { intros H. injection H as <-. right. exists sigma.
    repeat split; assumption. }
  apply IH.
Qed.

(** X6: [bs_call] returns the sentinel [-1.0] or a value that is not below
    zero, provided [exp] does not return a negative number for the dividend
    discount [exp(-q T)]. *)
Theorem bs_call_sign (S K T r q sigma : float) :
  (c_exp L (- q * T) <? 0) = false ->
  bs_call L S K T r q sigma = -1.0
  \/ (bs_call L S K T r q sigma <? 0) = false.
Proof.
  intros He. unfold bs_call.
  destruct (sigma <=? 0); [left; reflexivity|].
  destruct (T <=? 0); [left; reflexivity|].
  destruct (S <=? 0) eqn:ES; [left; reflexivity|].
  destruct (K <=? 0); [left; reflexivity|].
  cbn [orb].
  destruct (sigma <? 0.0001).
  { right.
    destruct (K * c_exp L (- r * T) <? S * c_exp L (- q * T)) eqn:E;
      [|reflexivity].
    apply signed_nonneg_not_neg, ltb_sub_signed_nonneg, E. }
  cbv zeta.
  destruct (sqrt T <? DBL_EPSILON);
    [right; apply leb_antisym, fmax_zero_nonneg|].
  destruct (sigma * sqrt T <? DBL_EPSILON);
    [right; apply leb_antisym, fmax_zero_nonneg|].
  set (d1 := (c_log L (S * c_exp L ((r - q) * T) / K)
              + 0.5 * sigma * sigma * T) / (sigma * sqrt T)).
  set (d2 := d1 - sigma * sqrt T).
  destruct (negb (isfinite d1) || negb (isfinite d2)).
  - destruct (100 <? d1); [right; apply mul_not_neg; assumption|].
    destruct (d2 <? -100); [right|left]; reflexivity.
  - destruct (negb (isfinite (cdf L d1)) || negb (isfinite (cdf L d2)));
      [left; reflexivity|].
    right.
    match goal with |- context [if 0 <? ?c then _ else _] =>
      destruct (0 <? c) eqn:E end.
    + apply ltb_asym, E.
    + reflexivity.
Qed.

(** X21: [bs_vega] never returns a negative number, provided [exp] returns
    no negative number at the two arguments it is called with (the dividend
    discount and the exponent of the density): the Newton step of
    [implied_vol] never divides by a negative vega. *)
Theorem bs_vega_sign (S K T r q sigma : float) :
  let d1 := (c_log L (S / K) + (r - q + 0.5 * sigma * sigma) * T)
            / (sigma * sqrt T) in
  (c_exp L (- q * T) <? 0) = false ->
  (c_exp L (- 0.5 * d1 * d1) <? 0) = false ->
  (bs_vega L S K T r q sigma <? 0) = false.
Proof.
  intros d1 H1 H2. unfold bs_vega.
  destruct (sigma <=? 0); [reflexivity|].
  destruct (T <=? 0) eqn:ET; [reflexivity|].
  destruct (S <=? 0) eqn:ES; [reflexivity|].
  destruct (K <=? 0); [reflexivity|].
  cbn [orb]. cbv zeta.
  destruct (sqrt T <? DBL_EPSILON); [reflexivity|].
  destruct (sigma * sqrt T <? DBL_EPSILON); [reflexivity|].
  fold d1. destruct (negb (isfinite d1)); [reflexivity|].
  apply mul_not_neg_both; [|apply sqrt_not_neg, ET].
  apply mul_not_neg_both; [apply mul_not_neg; assumption|].
  unfold pdf. eapply div_not_neg; [exact H2|vm_compute; reflexivity].
Qed.

End ImpliedVol.

(** On [(12, 100, 110, 1, 0.05, 0.01)] the Newton loop returns. *)
Lemma newton_returned_witness :
  IV2.newton ref_libm 12 100 110 1 0.05 0.01 50
    (IV2.init_vol 100 110 1) (IV2.init_vol 100 110 1) DBL_MAX
  = IV2.Returned (IV2.implied_vol ref_libm 12 100 110 1 0.05 0.01)
  /\ ((fabs (IV2.bs_call ref_libm 100 110 1 0.05 0.01
               (IV2.implied_vol ref_libm 12 100 110 1 0.05 0.01) - 12)
       <? 1e-8) = true
      \/ exists previous : float,
           (fabs (IV2.implied_vol ref_libm 12 100 110 1 0.05 0.01 - previous)
            <? 1e-8) = true
           /\ (fabs (IV2.bs_call ref_libm 100 110 1 0.05 0.01 previous - 12)
               <? 1e-8) = false
           /\ IV2.implied_vol ref_libm 12 100 110 1 0.05 0.01
              = previous
                - (IV2.bs_call ref_libm 100 110 1 0.05 0.01 previous - 12)
                  / IV2.bs_vega ref_libm 100 110 1 0.05 0.01 previous * 0.5).
Proof.
  assert (H : IV2.newton ref_libm 12 100 110 1 0.05 0.01 50
                (IV2.init_vol 100 110 1) (IV2.init_vol 100 110 1) DBL_MAX
              = IV2.Returned (IV2.implied_vol ref_libm 12 100 110 1 0.05 0.01))
    by (vm_compute; reflexivity).
  split; [exact H|].
  exact (newton_returned ref_libm 12 100 110 1 0.05 0.01 50 _ _ _ _ H).
Defined.

(** At [q = 0.01], [T = 1] the reference [exp] returns a positive number. *)
Lemma bs_call_sign_witness :
  (c_exp ref_libm (- 0.01 * 1) <? 0) = false
  /\ (IV2.bs_call ref_libm 100 110 1 0.05 0.01 0.2 = -1.0
      \/ (IV2.bs_call ref_libm 100 110 1 0.05 0.01 0.2 <? 0) = false).
Proof.
  split; [vm_compute; reflexivity|].
  apply (bs_call_sign ref_libm 100 110 1 0.05 0.01 0.2).
  vm_compute; reflexivity.
Defined.

(** At [(100, 110, 1, 0.05, 0.01)] and [sigma = 0.2] the reference [exp]
    returns positive numbers at both arguments. *)
Lemma bs_vega_sign_witness :
  (c_exp ref_libm (- 0.01 * 1) <? 0) = false
  /\ (0 <? IV2.bs_vega ref_libm 100 110 1 0.05 0.01 0.2) = true
  /\ (IV2.bs_vega ref_libm 100 110 1 0.05 0.01 0.2 <? 0) = false.
Proof.
  split; [vm_compute; reflexivity|].
  split; [vm_compute; reflexivity|].
  apply (bs_vega_sign ref_libm 100 110 1 0.05 0.01 0.2);
    vm_compute; reflexivity.
Defined.

Section Program2.

Import IV2 FloatFacts FloatOrder.

Variable L : Libm.
Variable strtod : String.string -> Strtod.

(** X7: on a command line of six arguments that [strtod] converts, with a
    market price, a spot, a strike and a time that are not at or below
    zero, [main] prints the result of [implied_vol] and exits with status 0;
    the value printed is above 0.001 and at most 1.0.  The failure branch
    after the call ([iv < 0]) is never taken. *)
Theorem main_prints_on_valid_input
    (argv : list String.string) (m S K T r q : float) :
  length argv = 7%nat ->
  safe_atof strtod (nth 1 argv String.EmptyString) = Some m ->
  safe_atof strtod (nth 2 argv String.EmptyString) = Some S ->
  safe_atof strtod (nth 3 argv String.EmptyString) = Some K ->
  safe_atof strtod (nth 4 argv String.EmptyString) = Some T ->
  safe_atof strtod (nth 5 argv String.EmptyString) = Some r ->
  safe_atof strtod (nth 6 argv String.EmptyString) = Some q ->
  (m <=? 0.0) = false -> (S <=? 0.0) = false ->
  (K <=? 0.0) = false -> (T <=? 0.0) = false ->
  let iv := implied_vol L m S K T r q in
  main L strtod argv = MkOutcome 0 (Some iv)
  /\ (0.001 <? iv) = true /\ (iv <=? 1.0) = true.
Proof.
  intros Hl H1 H2 H3 H4 H5 H6 Pm PS PK PT iv.
  assert (Hv : (m <=? 0.0) || (S <=? 0.0) || (K <=? 0.0) || (T <=? 0.0) = false)
    by (rewrite Pm, PS, PK, PT; reflexivity).
  destruct (implied_vol_in_range L m S K T r q Hv) as [Hlo Hhi].
  fold iv in Hlo, Hhi.
  split; [|split; assumption].
  unfold main. rewrite Hl.
  cbn [Z.of_nat Z.eqb negb Pos.of_succ_nat Pos.succ Pos.eqb].
  unfold parse. rewrite H1, H2, H3, H4, H5, H6, Pm, PS, PK, PT.
  fold iv.
  assert (Hn : (iv <? 0) = false).
  { apply leb_antisym. apply ltb_leb.
    apply (ltb_trans 0 0.001 iv); [reflexivity|exact Hlo]. }
  rewrite Hn. reflexivity.
Qed.

End Program2.

(** The command line [prog 12 100 110 1 0.05 0.01]. *)
Lemma main_prints_on_valid_input_witness :
  IV2.main ref_libm example_strtod
    ["prog"; "12"; "100"; "110"; "1"; "0.05"; "0.01"]%string
  = IV2.MkOutcome 0 (Some (IV2.implied_vol ref_libm 12 100 110 1 0.05 0.01))
  /\ (0.001 <? IV2.implied_vol ref_libm 12 100 110 1 0.05 0.01) = true
  /\ (IV2.implied_vol ref_libm 12 100 110 1 0.05 0.01 <=? 1.0) = true.
Proof.
  apply (main_prints_on_valid_input ref_libm example_strtod
           ["prog"; "12"; "100"; "110"; "1"; "0.05"; "0.01"]%string
           12 100 110 1 0.05 0.01);
    reflexivity.
Defined.

(** ** [calculate_sv_v5.c]: settings, cache and program *)

(** *** Powers of two *)

Lemma land_pred_pow2 (k : Z) : (0 <= k)%Z -> Z.land (2 ^ k) (2 ^ k - 1) = 0%Z.
Proof.
  intros H. replace (2 ^ k - 1)%Z with (Z.ones k)
    by (rewrite Z.ones_equiv; lia).
  rewrite Z.land_ones by exact H. apply Z.mod_same.
  apply Z.pow_nonzero; lia.
Qed.

Lemma land_pred_zero (n : Z) :
  (0 < n)%Z -> Z.land n (n - 1) = 0%Z -> n = (2 ^ Z.log2 n)%Z.
Proof.
  intros Hn H.
  destruct (Z.log2_spec n Hn) as [Hlo Hhi].
  destruct (Z.eq_dec n (2 ^ Z.log2 n)) as [E|E]; [exact E|exfalso].
  assert (Hk : Z.log2 (n - 1) = Z.log2 n).
  { apply Z.log2_unique; [apply Z.log2_nonneg|]. lia. }
  assert (B1 : Z.testbit n (Z.log2 n) = true) by (apply Z.bit_log2; exact Hn).
  assert (B2 : Z.testbit (n - 1) (Z.log2 n) = true).
  { rewrite <- Hk. apply Z.bit_log2.
    pose proof (Z.pow_pos_nonneg 2 (Z.log2 n) ltac:(lia) (Z.log2_nonneg n)).
    lia. }
  assert (B : Z.testbit (Z.land n (n - 1)) (Z.log2 n) = true)
    by (rewrite Z.land_spec, B1, B2; reflexivity).
  rewrite H, Z.bits_0 in B. discriminate.
Qed.

Lemma is_power_of_two_cases (n : Z) :
  SV5.is_power_of_two n = 0%Z \/ SV5.is_power_of_two n = 1%Z.
Proof.
  unfold SV5.is_power_of_two.
  destruct (n <=? 0)%Z; [left; reflexivity|].
  destruct (Z.land n (n - 1) =? 0)%Z; [right|left]; reflexivity.
Qed.

(** X8: [is_power_of_two] returns 1 exactly on the powers of two
    [1, 2, 4, ...], and 0 on every other integer, zero and the negative
    ones included. *)
Theorem is_power_of_two_spec (n : Z) :
  (SV5.is_power_of_two n = 1%Z
   <-> exists k : Z, (0 <= k)%Z /\ n = (2 ^ k)%Z)
  /\ (SV5.is_power_of_two n = 0%Z \/ SV5.is_power_of_two n = 1%Z).
Proof.
  split; [|apply is_power_of_two_cases]. unfold SV5.is_power_of_two.
  destruct (n <=? 0)%Z eqn:E0.
  - apply Z.leb_le in E0. split; [discriminate|].
    intros (k & Hk & ->).
    pose proof (Z.pow_pos_nonneg 2 k ltac:(lia) Hk). lia.
  - apply Z.leb_gt in E0.
    destruct (Z.land n (n - 1) =? 0)%Z eqn:E1.
    + apply Z.eqb_eq in E1. split; [|reflexivity]. intros _.
      exists (Z.log2 n). split; [apply Z.log2_nonneg|].
      apply land_pred_zero; assumption.
    + apply Z.eqb_neq in E1. split; [discriminate|].
      intros (k & Hk & ->). exfalso. apply E1. apply land_pred_pow2, Hk.
Qed.

(** *** The FFT settings stay usable *)

Section Configuration.

Import SV5 FloatFacts FloatOrder.

Variable L : Libm.
Variable fft_re : FFTJob -> Z -> float.
Variable atoi : String.string -> Z.
Variable atof : String.string -> float.

Lemma initial_config : config_ok initial_globals.
Proof. unfold config_ok. repeat split. Qed.

Lemma handle_option_config (g g' : Globals) (o : Opt) :
  config_ok g -> handle_option atoi atof g o = inl g' -> config_ok g'.
Proof.
  unfold config_ok. intros (Hn & Hr & Ha & He & Ht) H.
  destruct o; cbn [handle_option] in H; try discriminate H;
    try (injection H as <-; repeat split; assumption).
  - destruct (is_power_of_two (atoi optarg) =? 0)%Z eqn:E; cbn [negb] in H;
      injection H as <-; cbn; repeat split; try assumption.
    apply Z.eqb_neq in E.
    destruct (is_power_of_two_cases (atoi optarg)); congruence.
  - destruct (0.0 <? atof optarg) eqn:E; injection H as <-; cbn;
      repeat split; assumption.
  - destruct (0.0 <? atof optarg) eqn:E; injection H as <-; cbn;
      repeat split; assumption.
  - destruct (0.0 <? atof optarg) eqn:E; injection H as <-; cbn;
      repeat split; assumption.
  - destruct (0.0 <? atof optarg) eqn:E; injection H as <-; cbn;
      repeat split; assumption.
Qed.

Lemma process_options_config (os : list Opt) :
  forall g : Globals,
    config_ok g -> config_ok (fst (process_options atoi atof os g)).
Proof.
  induction os as [|o os IH]; intros g Hg; cbn [process_options fst];
    [exact Hg|].
  destruct (handle_option atoi atof g o) as [g'|code] eqn:E; [|exact Hg].
  apply IH. apply (handle_option_config g g' o Hg E).
Qed.

Lemma handle_option_cache (g g' : Globals) (o : Opt) :
  handle_option atoi atof g o = inl g' -> g_cache g' = g_cache g.
Proof.
  destruct o; cbn [handle_option]; intros H; try discriminate H;
    try (injection H as <-; reflexivity);
    match type of H with
    | (if ?b then _ else _) = _ => destruct b
    end; injection H as <-; reflexivity.
Qed.

Lemma process_options_cache (os : list Opt) :
  forall g : Globals,
    g_cache (fst (process_options atoi atof os g)) = g_cache g.
Proof.
  induction os as [|o os IH]; intros g; cbn [process_options fst];
    [reflexivity|].
  destruct (handle_option atoi atof g o) as [g'|code] eqn:E; [|reflexivity].
  rewrite IH. apply (handle_option_cache g g' o E).
Qed.

(** X9: whatever options are given, and whatever [atoi] and [atof] make of
    their arguments, the state the option loop leaves has a grid size that
    is a power of two and a positive range, damping factor, spacing and
    cache tolerance; the cache is still the empty initial one. *)
Theorem options_leave_usable_settings (os : list Opt) :
  let g := fst (process_options atoi atof os initial_globals) in
  config_ok g /\ g_cache g = initial_cache.
Proof.
  cbv zeta. split.
  - apply process_options_config, initial_config.
  - apply process_options_cache.
Qed.

Lemma adapt_config (g : Globals) (S K T : float) :
  config_ok g -> config_ok (adapt_fft_parameters g S K T).
Proof.
  unfold config_ok, adapt_fft_parameters. intros (Hn & Hr & Ha & He & Ht).
  destruct ((1.5 <? K / S) || (K / S <? 0.7)), (T <? 0.1), (2.0 <? T);
    cbn; repeat split; assumption.
Qed.

Lemma adapt_cache (g : Globals) (S K T : float) :
  g_cache (adapt_fft_parameters g S K T) = g_cache g.
Proof.
  unfold adapt_fft_parameters.
  repeat match goal with |- context [if ?b then _ else _] => destruct b end;
    reflexivity.
Qed.

Lemma configure_config (g : Globals) (S K T v0 kappa theta sigma rho : float) :
  config_ok g -> config_ok (configure g S K T v0 kappa theta sigma rho).
Proof.
  intros H. unfold configure.
  destruct (is_challenging_parameter_set _ _ _ _ _ _ _ _);
    [apply adapt_config|]; exact H.
Qed.

(** After [heston_call_fft] the settings are those chosen on entry, and the
    cache is the one [init_fft_cache] left under them: the retries with
    other settings are never needed. *)
Lemma heston_call_fft_settings (g : Globals)
    (S K T r q v0 kappa theta sigma rho : float) :
  let g' := snd (heston_call_fft L fft_re g S K T r q v0 kappa theta sigma rho) in
  settings g' = settings (configure g S K T v0 kappa theta sigma rho)
  /\ g_cache_tolerance g' = g_cache_tolerance g
  /\ g_cache g'
     = g_cache (init_fft_cache L fft_re
                  (configure g S K T v0 kappa theta sigma rho)
                  S r q T v0 kappa theta sigma rho).
Proof.
  unfold heston_call_fft. rewrite init_fft_cache_valid. cbn [negb snd].
  destruct (init_fft_cache_frame L fft_re
              (configure g S K T v0 kappa theta sigma rho)
              S r q T v0 kappa theta sigma rho) as (Hs & Ht & _).
  repeat split; try assumption.
  rewrite Ht. unfold configure, adapt_fft_parameters.
  repeat match goal with |- context [if ?b then _ else _] => destruct b end;
    reflexivity.
Qed.

Lemma heston_call_fft_config (g : Globals)
    (S K T r q v0 kappa theta sigma rho : float) :
  config_ok g ->
  config_ok (snd (heston_call_fft L fft_re g S K T r q v0 kappa theta sigma rho)).
Proof.
  intros H.
  destruct (heston_call_fft_settings g S K T r q v0 kappa theta sigma rho)
    as (Hs & Ht & _).
  pose proof (configure_config g S K T v0 kappa theta sigma rho H) as Hc.
  unfold settings in Hs. injection Hs as Hn Hr Ha He.
  unfold config_ok in *. rewrite Hn, Hr, Ha, He, Ht. tauto.
Qed.

(** A property of the calibration state that each pricing preserves holds
    when the search ends. *)
Lemma search_loop_invariant {A : Type} (P : Calib -> Prop)
    (body : A -> Calib -> Calib) (l : list A) :
  (forall x c, In x l -> P c -> P (body x c)) ->
  forall c : Calib, P c -> P (search_loop body l c).
Proof.
  induction l as [|x l IH]; intros Hb c Hc; cbn [search_loop]; [exact Hc|].
  destruct (g_found_good_match (cal_globals c)); [exact Hc|].
  apply IH.
  - intros y c' Hy. apply Hb. right. exact Hy.
  - apply Hb; [left; reflexivity|exact Hc].
Qed.

Lemma try_tuple_globals (m S K T r q a th b s rh : float) (c : Calib) :
  let g1 := snd (heston_call_fft L fft_re (cal_globals c) S K T r q a b th s rh) in
  let g' := cal_globals (try_tuple L fft_re m S K T r q a th b s rh c) in
  g' = g1 \/ g' = set_found g1 true.
Proof.
  unfold try_tuple.
  destruct (heston_call_fft L fft_re (cal_globals c) S K T r q a b th s rh)
    as [model_price g1]. cbn [snd].
  destruct (fabs (model_price - m) <? best_diff c);
    [|left; reflexivity].
  destruct (fabs (model_price - m) <? 0.005 * m); [right|left]; reflexivity.
Qed.

(** A property of the file-scope state that the flag does not affect and
    that each pricing preserves is preserved by [implied_vol_sv]. *)
Lemma implied_vol_sv_invariant (P : Globals -> Prop) :
  (forall g b, P g -> P (set_found g b)) ->
  (forall g S K T r q v0 kappa theta sigma rho,
      P g ->
      P (snd (heston_call_fft L fft_re g S K T r q v0 kappa theta sigma rho))) ->
  forall g m S K T r q,
    P g -> P (snd (implied_vol_sv L fft_re g m S K T r q)).
Proof.
  intros Hf Hh g m S K T r q Hg. unfold implied_vol_sv.
  destruct (bs_implied_vol L m S K T r q <? 0.0); cbn [snd]; [exact Hg|].
  rewrite calibrate_flat.
  apply (search_loop_invariant (fun c => P (cal_globals c))).
  - intros t c _ Hc. unfold visit.
    destruct (try_tuple_globals m S K T r q (t_v0 t) (t_theta t) (t_kappa t)
                (t_sigma t) (t_rho t) c) as [E|E]; rewrite E.
    + apply Hh, Hc.
    + apply Hf, Hh, Hc.
  - cbn. apply Hf, Hg.
Qed.

(** X10: from usable settings, [heston_call_fft] leaves usable settings and
    a valid cache built for the grid size in force, a power of two; and the
    whole of [implied_vol_sv], which adapts the settings along the way,
    leaves usable settings as well. *)
Theorem fft_settings_stay_usable (g : Globals)
    (m S K T r q v0 kappa theta sigma rho : float) :
  config_ok g ->
  let g1 := snd (heston_call_fft L fft_re g S K T r q v0 kappa theta sigma rho) in
  config_ok g1
  /\ is_valid (g_cache g1) = true
  /\ cache_fft_n (g_cache g1) = g_fft_n g1
  /\ is_power_of_two (cache_fft_n (g_cache g1)) = 1%Z
  /\ config_ok (snd (implied_vol_sv L fft_re g m S K T r q)).
Proof.
  intros H g1.
  pose proof (heston_call_fft_config g S K T r q v0 kappa theta sigma rho H)
    as H1. fold g1 in H1.
  destruct (heston_call_fft_settings g S K T r q v0 kappa theta sigma rho)
    as (Hs & _ & Hc). fold g1 in Hs, Hc.
  assert (En : cache_fft_n (g_cache g1) = g_fft_n g1).
  { rewrite Hc, init_fft_cache_fft_n. unfold settings in Hs. congruence. }
  split; [exact H1|].
  split; [rewrite Hc; apply init_fft_cache_valid|].
  split; [exact En|].
  split; [rewrite En; apply H1|].
  apply (implied_vol_sv_invariant config_ok);
    [intros g0 b H0; exact H0
    |intros; apply heston_call_fft_config; assumption
    |exact H].
Qed.

(** *** The cache across pricings *)

Lemma heston_call_fft_wf (g : Globals)
    (S K T r q v0 kappa theta sigma rho : float) :
  cache_wf L (g_cache g) ->
  cache_wf L (g_cache (snd (heston_call_fft L fft_re g S K T r q
                              v0 kappa theta sigma rho))).
Proof.
  intros H.
  destruct (heston_call_fft_settings g S K T r q v0 kappa theta sigma rho)
    as (_ & _ & ->).
  apply init_fft_cache_wf.
  unfold configure. destruct (is_challenging_parameter_set _ _ _ _ _ _ _ _);
    [rewrite adapt_cache|]; exact H.
Qed.

(** X11: a well-formed cache (invalid and without arrays, or valid with
    [fft_n] prices at or above zero and [fft_n] strikes laid out on the grid
    of its tags) stays well formed through every pricing and through the
    whole calibration, adaptations of the grid size included. *)
Theorem cache_stays_well_formed (g : Globals)
    (m S K T r q v0 kappa theta sigma rho : float) :
  cache_wf L (g_cache g) ->
  cache_wf L (g_cache (snd (heston_call_fft L fft_re g S K T r q
                              v0 kappa theta sigma rho)))
  /\ cache_wf L (g_cache (snd (implied_vol_sv L fft_re g m S K T r q))).
Proof.
  intros H. split; [apply heston_call_fft_wf, H|].
  apply (implied_vol_sv_invariant (fun g => cache_wf L (g_cache g)));
    [intros g0 b H0; exact H0
    |intros; apply heston_call_fft_wf; assumption
    |exact H].
Qed.

(** X12: the price [heston_call_fft] returns is the Black-Scholes price at
    volatility [sqrt v0], or it is the value read from the cache, which is
    then finite and at or above zero. *)
Theorem heston_call_fft_price (g : Globals)
    (S K T r q v0 kappa theta sigma rho : float) :
  let call := heston_call_fft L fft_re g S K T r q v0 kappa theta sigma rho in
  fst call = black_scholes_call L S K T r q (sqrt v0)
  \/ (fst call = get_cached_option_price (snd call) K
      /\ isfinite (fst call) = true /\ (0.0 <=? fst call) = true).
Proof.
  cbv zeta. unfold heston_call_fft. rewrite init_fft_cache_valid.
  cbn [negb fst snd]. unfold price_or_fallback.
  set (g1 := init_fft_cache L fft_re _ S r q T v0 kappa theta sigma rho).
  destruct (get_cached_option_price g1 K <? 0.0) eqn:E1; [left; reflexivity|].
  destruct (isfinite (get_cached_option_price g1 K)) eqn:E2;
    [|left; reflexivity].
  right. cbn [negb orb]. repeat split.
  - exact E2.
  - apply ltb_false_leb; [exact E1| |reflexivity].
    apply isfinite_not_nan, E2.
Qed.

Lemma adapt_settled (g0 g1 : Globals) (S K T : float) :
  settings g1 = settings (adapt_fft_parameters g0 S K T) ->
  adapt_fft_parameters g1 S K T = g1.
Proof.
  unfold adapt_fft_parameters, settings.
  destruct g0, g1; cbn.
  destruct ((1.5 <? K / S) || (K / S <? 0.7)), (T <? 0.1), (2.0 <? T);
    cbn; intros H; injection H as -> -> -> ->; reflexivity.
Qed.

Lemma configure_settled (g0 g1 : Globals)
    (S K T v0 kappa theta sigma rho : float) :
  settings g1 = settings (configure g0 S K T v0 kappa theta sigma rho) ->
  configure g1 S K T v0 kappa theta sigma rho = g1.
Proof.
  unfold configure.
  destruct (is_challenging_parameter_set S K T v0 kappa theta sigma rho);
    [apply adapt_settled|reflexivity].
Qed.

Lemma configure_finite (g : Globals) (S K T v0 kappa theta sigma rho : float) :
  isfinite (g_log_strike_range g) = true ->
  isfinite (g_alpha g) = true ->
  isfinite (g_eta g) = true ->
  let g' := configure g S K T v0 kappa theta sigma rho in
  isfinite (g_log_strike_range g') = true
  /\ isfinite (g_alpha g') = true
  /\ isfinite (g_eta g') = true
  /\ g_cache_tolerance g' = g_cache_tolerance g.
Proof.
  intros Hr Ha He. unfold configure, adapt_fft_parameters.
  destruct (is_challenging_parameter_set S K T v0 kappa theta sigma rho);
    [|cbn; auto].
  destruct ((1.5 <? K / S) || (K / S <? 0.7)), (T <? 0.1), (2.0 <? T);
    cbn; auto.
Qed.

(** With finite option data and settings and a positive tolerance, the
    state [init_fft_cache] leaves passes its own reuse test. *)
Lemma init_fft_cache_then_hit (g : Globals)
    (S r q T v0 kappa theta sigma rho : float) :
  isfinite S = true -> isfinite r = true ->
  isfinite q = true -> isfinite T = true ->
  isfinite (g_log_strike_range g) = true ->
  isfinite (g_alpha g) = true ->
  isfinite (g_eta g) = true ->
  (0.0 <? g_cache_tolerance g) = true ->
  cache_hit (init_fft_cache L fft_re g S r q T v0 kappa theta sigma rho)
    S r q T = true.
Proof.
  intros HS Hr Hq HT Hrange Halpha Heta Htol.
  destruct (cache_hit g S r q T) eqn:E.
  - unfold init_fft_cache. rewrite E. exact E.
  - pose proof (init_fft_cache_miss_tags L fft_re g S r q T
                  v0 kappa theta sigma rho E) as Ht.
    pose proof (init_fft_cache_valid L fft_re g S r q T
                  v0 kappa theta sigma rho) as Hv.
    destruct (init_fft_cache_frame L fft_re g S r q T v0 kappa theta sigma rho)
      as (Hs & Htl & _).
    set (g1 := init_fft_cache L fft_re g S r q T v0 kappa theta sigma rho) in *.
    unfold settings in Hs. injection Hs as Hn Hra Hal Het.
    unfold tagged in Ht.
    destruct Ht as (T1 & T2 & T3 & T4 & _ & _ & _ & _ & _ & T5 & T6 & T7 & T8).
    unfold cache_hit.
    rewrite Hv, T1, T2, T3, T4, T5, T6, T7, T8, Hn, Hra, Hal, Het, Htl.
    rewrite Z.eqb_refl, !self_within by assumption. reflexivity.
Qed.

(** X13: pricing the same option a second time changes nothing: with finite
    [S], [r], [q], [T], finite settings and a positive tolerance, the second
    call of [heston_call_fft] finds the cache of the first, leaves the state
    as it is and returns the same price. *)
Theorem heston_call_fft_repeated (g : Globals)
    (S K T r q v0 kappa theta sigma rho : float) :
  isfinite S = true -> isfinite r = true ->
  isfinite q = true -> isfinite T = true ->
  isfinite (g_log_strike_range g) = true ->
  isfinite (g_alpha g) = true ->
  isfinite (g_eta g) = true ->
  (0.0 <? g_cache_tolerance g) = true ->
  let first := heston_call_fft L fft_re g S K T r q v0 kappa theta sigma rho in
  heston_call_fft L fft_re (snd first) S K T r q v0 kappa theta sigma rho
  = first.
Proof.
  intros HS Hr Hq HT Hrange Halpha Heta Htol first.
  destruct (configure_finite g S K T v0 kappa theta sigma rho
              Hrange Halpha Heta) as (Fr & Fa & Fe & Ft).
  set (g' := configure g S K T v0 kappa theta sigma rho) in *.
  rewrite <- Ft in Htol.
  pose proof (init_fft_cache_then_hit g' S r q T v0 kappa theta sigma rho
                HS Hr Hq HT Fr Fa Fe Htol) as Hhit.
  destruct (init_fft_cache_frame L fft_re g' S r q T v0 kappa theta sigma rho)
    as (Hs & _ & _).
  assert (E1 : first
               = (price_or_fallback L
                    (init_fft_cache L fft_re g' S r q T v0 kappa theta sigma rho)
                    S K T r q v0,
                  init_fft_cache L fft_re g' S r q T v0 kappa theta sigma rho)).
  { unfold first, heston_call_fft. fold g'.
    rewrite init_fft_cache_valid. reflexivity. }
  set (g1 := init_fft_cache L fft_re g' S r q T v0 kappa theta sigma rho) in *.
  rewrite E1. cbn [snd]. unfold heston_call_fft.
  rewrite (configure_settled g g1 S K T v0 kappa theta sigma rho Hs).
  assert (E2 : init_fft_cache L fft_re g1 S r q T v0 kappa theta sigma rho = g1).
  { unfold init_fft_cache at 1. rewrite Hhit. reflexivity. }
  rewrite E2.
  assert (Hv : is_valid (g_cache g1) = true) by apply init_fft_cache_valid.
  rewrite Hv. reflexivity.
Qed.

(** *** What the calibration can return *)

Lemma grid_members (v0 kappa : float) (t : Tuple) :
  In t (grid v0 kappa) ->
  In (t_v0 t) (v0_values v0) /\ t_theta t = t_v0 t
  /\ In (t_kappa t) (kappa_values kappa)
  /\ In (t_sigma t) sigma_values /\ In (t_rho t) rho_values.
Proof.
  unfold grid. intros H.
  apply in_flat_map in H. destruct H as (a & Ha & H).
  apply in_flat_map in H. destruct H as (b & Hb & H).
  apply in_flat_map in H. destruct H as (s & Hs & H).
  apply in_map_iff in H. destruct H as (rh & <- & Hrh).
  cbn. auto.
Qed.

Lemma visit_best (m S K T r q : float) (t : Tuple) (c : Calib) :
  let c' := visit L fft_re m S K T r q t c in
  (best_tuple c' = best_tuple c /\ best_diff c' = best_diff c)
  \/ (best_tuple c' = t /\ (best_diff c' <? best_diff c) = true).
Proof.
  unfold visit, try_tuple, best_tuple.
  destruct (heston_call_fft L fft_re (cal_globals c) S K T r q
              (t_v0 t) (t_kappa t) (t_theta t) (t_sigma t) (t_rho t))
    as [model_price g1].
  destruct (fabs (model_price - m) <? best_diff c) eqn:E.
  - right. destruct t; cbn. split; [reflexivity|exact E].
  - left. cbn. split; reflexivity.
Qed.

(** Through a search over the tuples [l], the best tuple is the one the
    search started with as long as no residual came below [DBL_MAX], and a
    tuple of [l] afterwards. *)
Lemma search_best (m S K T r q : float) (l : list Tuple) (seed : Tuple)
    (c : Calib) :
  best_diff c = DBL_MAX -> best_tuple c = seed ->
  let c' := search_loop (visit L fft_re m S K T r q) l c in
  (best_diff c' = DBL_MAX /\ best_tuple c' = seed)
  \/ ((best_diff c' <? DBL_MAX) = true /\ In (best_tuple c') l).
Proof.
  intros Hd Hs.
  apply (search_loop_invariant
           (fun c' =>
              (best_diff c' = DBL_MAX /\ best_tuple c' = seed)
              \/ ((best_diff c' <? DBL_MAX) = true /\ In (best_tuple c') l))).
  - intros t c0 Ht Hc.
    destruct (visit_best m S K T r q t c0) as [[E1 E2]|[E Hlt]].
    + rewrite E1, E2. exact Hc.
    + right. rewrite E. split; [|exact Ht].
      destruct Hc as [[Hd0 _]|[Hd0 _]].
      * rewrite Hd0 in Hlt. exact Hlt.
      * apply (ltb_trans _ _ _ Hlt Hd0).
  - left. split; assumption.
Qed.

Lemma calibrate_best_v (g : Globals) (m S K T r q bs_iv : float) :
  In (best_v (calibrate L fft_re g m S K T r q bs_iv))
    (v0_values (init_v0 L S K T r q bs_iv)).
Proof.
  rewrite calibrate_flat.
  destruct (search_best m S K T r q
              (grid (init_v0 L S K T r q bs_iv) (init_kappa L S K T r q))
              (best_tuple (start_state L g S K T r q bs_iv))
              (start_state L g S K T r q bs_iv) eq_refl eq_refl)
    as [[_ E]|[_ Hin]].
  - apply (f_equal t_v0) in E. cbn [t_v0 best_tuple] in E. rewrite E.
    left. reflexivity.
  - apply grid_members in Hin. destruct Hin as [Hin _].
    cbn [t_v0 best_tuple] in Hin. exact Hin.
Qed.

(** X14: whatever the transform returns, [implied_vol_sv] reports the
    sentinel [-1.0], the Black-Scholes anchor, or the square root of one of
    the five candidate variances [v0 {1, 0.85, 1.15, 0.7, 1.3}], where the
    seed [v0] is the squared anchor times 1.1, times 1.05, or as it is. *)
Theorem implied_vol_sv_candidates (g : Globals) (m S K T r q : float) :
  let bs_iv := bs_implied_vol L m S K T r q in
  let v0 := init_v0 L S K T r q bs_iv in
  let result := fst (implied_vol_sv L fft_re g m S K T r q) in
  In v0 [bs_iv * bs_iv * 1.1; bs_iv * bs_iv * 1.05; bs_iv * bs_iv]
  /\ (result = -1.0 \/ result = bs_iv
      \/ In result
           (map sqrt [v0; v0 * 0.85; v0 * 1.15; v0 * 0.7; v0 * 1.3])).
Proof.
  intros bs_iv v0 result. split.
  - unfold v0, init_v0.
    destruct (1.1 <? _); [left; reflexivity|].
    destruct (_ <? 0.9); [right; left; reflexivity|].
    right; right; left; reflexivity.
  - unfold result, implied_vol_sv. fold bs_iv.
    destruct (bs_iv <? 0.0); [left; reflexivity|].
    cbn [fst]. unfold select_vol.
    destruct (0.1 * m <? _); [right; left; reflexivity|].
    destruct (_ <? 0.05); [right; left; reflexivity|].
    destruct (1.5 <? _); [right; left; reflexivity|].
    right; right. apply in_map.
    exact (calibrate_best_v g m S K T r q bs_iv).
Qed.

(** *** The program *)

Variable strtod : String.string -> Strtod.

Lemma run_released (g : Globals) (args : list String.string) :
  released g -> released (run_globals (run L fft_re strtod g args)).
Proof.
  intros H. unfold run.
  destruct (negb _); [exact H|]. cbv zeta.
  set (mp := safe_atof strtod (nth 0 args String.EmptyString)).
  set (S := safe_atof strtod (nth 1 args String.EmptyString)).
  set (K := safe_atof strtod (nth 2 args String.EmptyString)).
  set (T := safe_atof strtod (nth 3 args String.EmptyString)).
  destruct (_ || _); [exact H|].
  set (g1 := if is_challenging_parameter_set _ _ _ _ _ _ _ _ then _ else g).
  assert (H1 : released g1).
  { unfold g1. destruct (is_challenging_parameter_set _ _ _ _ _ _ _ _);
      [|exact H]. unfold released. rewrite adapt_cache. exact H. }
  destruct (mp <=? 0.0); [exact H1|].
  destruct (S <=? 0.0); [exact H1|].
  destruct (K <=? 0.0); [exact H1|].
  destruct (T <=? 0.0); [exact H1|].
  destruct (implied_vol_sv L fft_re g1 _ _ _ _ _ _) as [iv g2].
  destruct (iv <? 0.0); cbn; repeat split.
Qed.

(** X15: however [main] ends (help, a bad option, a wrong number of
    operands, a rejected operand, a failed or a successful computation), the
    state it leaves holds no cache arrays and its cache is marked invalid:
    what the calibration allocated has been released. *)
Theorem main_releases_cache (cl : CommandLine) :
  let g := run_globals (main L fft_re strtod atoi atof cl) in
  prices (g_cache g) = None /\ strikes (g_cache g) = None
  /\ is_valid (g_cache g) = false.
Proof.
  cbv zeta. unfold main.
  pose proof (process_options_cache (options cl) initial_globals) as Hc.
  destruct (process_options atoi atof (options cl) initial_globals)
    as [g [code|]]; cbn [fst] in Hc.
  - cbn [run_globals]. rewrite Hc. repeat split.
  - apply run_released. unfold released. rewrite Hc. repeat split.
Qed.

(** X16: when [main] prints a volatility, it exits with status 0; there were
    six operands, of which the price, the spot, the strike and the time as
    [safe_atof] read them are not at or below zero; and the value printed is
    not negative and is what [implied_vol_sv] returned on the six values,
    from usable settings and an empty cache. *)
Theorem main_prints (cl : CommandLine) (iv : float) :
  run_printed (main L fft_re strtod atoi atof cl) = Some iv ->
  let arg i := safe_atof strtod (nth i (operands cl) String.EmptyString) in
  run_status (main L fft_re strtod atoi atof cl) = 0%Z
  /\ (iv <? 0.0) = false
  /\ length (operands cl) = 6%nat
  /\ (arg 0%nat <=? 0.0) = false /\ (arg 1%nat <=? 0.0) = false
  /\ (arg 2%nat <=? 0.0) = false /\ (arg 3%nat <=? 0.0) = false
  /\ exists g : Globals,
       config_ok g /\ g_cache g = initial_cache
       /\ iv = fst (implied_vol_sv L fft_re g (arg 0%nat) (arg 1%nat)
                      (arg 2%nat) (arg 3%nat) (arg 4%nat) (arg 5%nat)).
Proof.
  unfold main.
  pose proof (process_options_cache (options cl) initial_globals) as Hc.
  pose proof (process_options_config (options cl) initial_globals
                initial_config) as Hk.
  destruct (process_options atoi atof (options cl) initial_globals)
    as [g [code|]]; cbn [fst] in Hc, Hk; [discriminate|].
  unfold run.
  destruct (Z.of_nat (length (operands cl)) =? 6)%Z eqn:El;
    cbn [negb]; [|discriminate].
  apply Z.eqb_eq in El. cbv zeta.
  set (mp := safe_atof strtod (nth 0 (operands cl) String.EmptyString)).
  set (S := safe_atof strtod (nth 1 (operands cl) String.EmptyString)).
  set (K := safe_atof strtod (nth 2 (operands cl) String.EmptyString)).
  set (T := safe_atof strtod (nth 3 (operands cl) String.EmptyString)).
  destruct (_ || _); [discriminate|].
  set (g1 := if is_challenging_parameter_set _ _ _ _ _ _ _ _ then _ else g).
  assert (H1 : config_ok g1 /\ g_cache g1 = initial_cache).
  { unfold g1. destruct (is_challenging_parameter_set _ _ _ _ _ _ _ _).
    - split; [apply adapt_config, Hk|]. rewrite adapt_cache. exact Hc.
    - split; assumption. }
  destruct (mp <=? 0.0) eqn:E0; [discriminate|].
  destruct (S <=? 0.0) eqn:E1; [discriminate|].
  destruct (K <=? 0.0) eqn:E2; [discriminate|].
  destruct (T <=? 0.0) eqn:E3; [discriminate|].
  destruct (implied_vol_sv L fft_re g1 _ _ _ _ _ _) as [iv' g2] eqn:Ei.
  destruct (iv' <? 0.0) eqn:En; cbn [run_printed run_status]; [discriminate|].
  intros H. injection H as <-.
  repeat split; try assumption; try lia.
  exists g1. split; [apply H1|]. split; [apply H1|].
  rewrite Ei. reflexivity.
Qed.

Lemma safe_atof_failure (s : String.string) :
  sd_erange (strtod s) = true \/ sd_converted (strtod s) = false ->
  safe_atof strtod s = -1.0.
Proof.
  unfold safe_atof. intros [H|H]; rewrite H; [reflexivity|].
  destruct (sd_erange (strtod s)); reflexivity.
Qed.

End Configuration.

(** The initial settings are usable. *)
Lemma fft_settings_stay_usable_witness :
  SV5.config_ok SV5.initial_globals
  /\ SV5.config_ok
       (snd (SV5.implied_vol_sv ref_libm SV5.zero_spectrum SV5.initial_globals
               10.45 100 100 1 0.05 0)).
Proof.
  split; [apply initial_config|].
  exact (proj2 (proj2 (proj2 (proj2
           (fft_settings_stay_usable ref_libm SV5.zero_spectrum
              SV5.initial_globals
              10.45 100 100 1 0.05 0 0.04 1.0 0.04 0.4 (-0.7)
              initial_config))))).
Defined.

(** The initial cache is well formed. *)
Lemma cache_stays_well_formed_witness :
  SV5.cache_wf ref_libm (SV5.g_cache SV5.initial_globals)
  /\ SV5.cache_wf ref_libm
       (SV5.g_cache
          (snd (SV5.implied_vol_sv ref_libm SV5.zero_spectrum
                  SV5.initial_globals 10.45 100 100 1 0.05 0))).
Proof.
  split; [apply initial_cache_wf|].
  exact (proj2 (cache_stays_well_formed ref_libm SV5.zero_spectrum
                  SV5.initial_globals
                  10.45 100 100 1 0.05 0 0.04 1.0 0.04 0.4 (-0.7)
                  (initial_cache_wf ref_libm))).
Defined.

(** From the initial state, with finite option data. *)
Lemma heston_call_fft_repeated_witness :
  let first := SV5.heston_call_fft ref_libm SV5.unit_spectrum
                 SV5.initial_globals 100 100 1 0.05 0 0.04 1.0 0.04 0.4 (-0.7) in
  SV5.heston_call_fft ref_libm SV5.unit_spectrum (snd first)
    100 100 1 0.05 0 0.04 1.0 0.04 0.4 (-0.7)
  = first.
Proof.
  apply (heston_call_fft_repeated ref_libm SV5.unit_spectrum SV5.initial_globals
           100 100 1 0.05 0 0.04 1.0 0.04 0.4 (-0.7));
    reflexivity.
Defined.

(** The command line [--fft-n=16 10.45 100 100 1 0.05 0], with an all-zero
    spectrum: the anchor is printed. *)
Lemma main_prints_witness :
  let cl := SV5.MkCommandLine [SV5.opt_n "16"%string]
              ["10.45"; "100"; "100"; "1"; "0.05"; "0"]%string in
  let run := SV5.main ref_libm SV5.zero_spectrum example_strtod
               example_atoi example_atof cl in
  SV5.run_printed run
  = Some (SV5.bs_implied_vol ref_libm 10.45 100 100 1 0.05 0)
  /\ SV5.run_status run = 0%Z
  /\ (SV5.bs_implied_vol ref_libm 10.45 100 100 1 0.05 0 <? 0.0) = false.
Proof.
  cbv zeta.
  assert (H : SV5.run_printed
                (SV5.main ref_libm SV5.zero_spectrum example_strtod
                   example_atoi example_atof
                   (SV5.MkCommandLine [SV5.opt_n "16"%string]
                      ["10.45"; "100"; "100"; "1"; "0.05"; "0"]%string))
              = Some (SV5.bs_implied_vol ref_libm 10.45 100 100 1 0.05 0))
    by (vm_compute; reflexivity).
  split; [exact H|].
  destruct (main_prints ref_libm SV5.zero_spectrum example_atoi example_atof
              example_strtod _ _ H) as (H0 & H1 & _).
  split; assumption.
Defined.

(** ** [calculate_sv_v4.c]: the cache key, the grid and the blend *)

Section V4.

Import SV5 FloatFacts FloatOrder.

Variable L : Libm.
Variable fft_re : FFTJob -> Z -> float.

Lemma v4_cache_valid (g : Globals)
    (S r q T v0 kappa theta sigma rho : float) :
  is_valid (g_cache (SV4.init_fft_cache L fft_re g S r q T
                       v0 kappa theta sigma rho)) = true.
Proof.
  unfold SV4.init_fft_cache.
  destruct (SV4.cache_hit g S r q T v0 kappa theta sigma rho) eqn:H.
  - unfold SV4.cache_hit in H.
    repeat (apply andb_prop in H; destruct H as [H _]). exact H.
  - reflexivity.
Qed.

Lemma v4_cache_frame (g : Globals)
    (S r q T v0 kappa theta sigma rho : float) :
  let g' := SV4.init_fft_cache L fft_re g S r q T v0 kappa theta sigma rho in
  settings g' = settings g /\ g_cache_tolerance g' = g_cache_tolerance g.
Proof.
  unfold SV4.init_fft_cache, settings.
  destruct (SV4.cache_hit g S r q T v0 kappa theta sigma rho); [split; reflexivity|].
  unfold precompute_fft_values.
  match goal with |- context [if ?b then _ else _] => destruct b end;
    cbn; split; reflexivity.
Qed.

(* ---- search ---- *)

Lemma v4_loop_jumped {A : Type} (body : A -> SV4.Calib -> SV4.Calib)
    (l : list A) (c : SV4.Calib) :
  SV4.jumped c = true -> SV4.search_loop body l c = c.
Proof.
  intros H. destruct l as [|x l]; [reflexivity|]. simpl. rewrite H. reflexivity.
Qed.

Lemma v4_loop_app {A : Type} (body : A -> SV4.Calib -> SV4.Calib)
    (l1 l2 : list A) :
  forall c : SV4.Calib,
    SV4.search_loop body (l1 ++ l2) c
    = SV4.search_loop body l2 (SV4.search_loop body l1 c).
Proof.
  induction l1 as [|x l1 IH]; intros c; [reflexivity|]. simpl.
  destruct (SV4.jumped c) eqn:E.
  - symmetry. apply v4_loop_jumped. exact E.
  - apply IH.
Qed.

Lemma v4_loop_map {A B : Type} (f : A -> B)
    (body : B -> SV4.Calib -> SV4.Calib) (l : list A) :
  forall c : SV4.Calib,
    SV4.search_loop body (map f l) c
    = SV4.search_loop (fun x => body (f x)) l c.
Proof.
  induction l as [|x l IH]; intros c; [reflexivity|]. simpl.
  destruct (SV4.jumped c); [reflexivity|]. apply IH.
Qed.

Lemma v4_loop_nest {A B : Type} (f : A -> list B)
    (body : B -> SV4.Calib -> SV4.Calib) (outer : list A) :
  forall c : SV4.Calib,
    SV4.search_loop (fun a => SV4.search_loop body (f a)) outer c
    = SV4.search_loop body (flat_map f outer) c.
Proof.
  induction outer as [|a outer IH]; intros c; [reflexivity|]. simpl.
  rewrite v4_loop_app.
  destruct (SV4.jumped c) eqn:E.
  - rewrite (v4_loop_jumped body (f a) c E).
    symmetry. apply v4_loop_jumped. exact E.
  - apply IH.
Qed.

Lemma v4_loop_ext {A : Type} (b1 b2 : A -> SV4.Calib -> SV4.Calib)
    (l : list A) :
  (forall x c, b1 x c = b2 x c) ->
  forall c, SV4.search_loop b1 l c = SV4.search_loop b2 l c.
Proof.
  intros H. induction l as [|x l IH]; intros c; [reflexivity|]. simpl.
  destruct (SV4.jumped c); [reflexivity|].
  rewrite H. apply IH.
Qed.

Lemma v4_calibrate_flat (g : Globals) (m S K T r q bs_iv : float) :
  SV4.calibrate L fft_re g m S K T r q bs_iv
  = SV4.search_loop (SV4.visit L fft_re m S K T r q)
      (SV4.grid (init_v0 L S K T r q bs_iv) (init_kappa L S K T r q))
      (SV4.start_state L g S K T r q bs_iv).
Proof.
  unfold SV4.calibrate, SV4.grid.
  rewrite <- v4_loop_nest. apply v4_loop_ext. intros a c.
  rewrite <- v4_loop_nest. apply v4_loop_ext. intros b c'.
  rewrite <- v4_loop_nest. apply v4_loop_ext. intros s c''.
  rewrite v4_loop_map. reflexivity.
Qed.

Lemma v4_visit_spec (m S K T r q : float) (t : Tuple) (c : SV4.Calib) :
  let c' := SV4.visit L fft_re m S K T r q t c in
  SV4.priced c' = t :: SV4.priced c
  /\ (SV4.jumped c = false -> SV4.jumped c' = true ->
      (SV4.best_diff c' <? 0.001) = true
      /\ MkTuple (SV4.best_v c') (SV4.best_kappa c') (SV4.best_theta c')
           (SV4.best_sigma c') (SV4.best_rho c') = t).
Proof.
  unfold SV4.visit, SV4.try_tuple.
  destruct (SV4.heston_call_fft L fft_re (SV4.cal_globals c) S K T r q
              (t_v0 t) (t_kappa t) (t_theta t) (t_sigma t) (t_rho t))
    as [model_price g1].
  destruct t as [a b th s rh]. cbn [t_v0 t_kappa t_theta t_sigma t_rho].
  destruct (fabs (model_price - m) <? SV4.best_diff c).
  - cbn. split; [reflexivity|]. intros _ H. split; [exact H|reflexivity].
  - cbn. split; [reflexivity|]. intros H0 H1. congruence.
Qed.

Lemma v4_search_trace (m S K T r q : float) (l : list Tuple) :
  forall c : SV4.Calib,
    SV4.jumped c = false ->
    let c' := SV4.search_loop (SV4.visit L fft_re m S K T r q) l c in
    exists done rest : list Tuple,
      l = done ++ rest
      /\ SV4.priced c' = rev done ++ SV4.priced c
      /\ (SV4.jumped c' = false -> rest = [])
      /\ (SV4.jumped c' = true ->
          (SV4.best_diff c' <? 0.001) = true
          /\ exists earlier : list Tuple,
               SV4.priced c'
               = MkTuple (SV4.best_v c') (SV4.best_kappa c')
                   (SV4.best_theta c') (SV4.best_sigma c') (SV4.best_rho c')
                 :: earlier).
Proof.
  induction l as [|t l IH]; intros c Hc; cbn zeta.
  - exists [], []. cbn. rewrite Hc. repeat split; try discriminate.
  - cbn [SV4.search_loop]. rewrite Hc.
    destruct (v4_visit_spec m S K T r q t c) as [Hp Hf].
    set (c1 := SV4.visit L fft_re m S K T r q t c) in *.
    destruct (SV4.jumped c1) eqn:E1.
    + rewrite (v4_loop_jumped _ l c1 E1).
      exists [t], l. rewrite E1. cbn [rev app]. repeat split; try discriminate.
      * exact Hp.
      * apply (Hf Hc eq_refl).
      * destruct (Hf Hc eq_refl) as [_ Hbest]. rewrite Hbest.
        exists (SV4.priced c). exact Hp.
    + destruct (IH c1 E1) as (done & rest & Hl & Hpr & Hr & Hb).
      exists (t :: done), rest. repeat split.
      * cbn. rewrite Hl. reflexivity.
      * rewrite Hpr, Hp. cbn [rev]. rewrite <- app_assoc. reflexivity.
      * exact Hr.
      * apply Hb. assumption.
      * apply Hb. assumption.
Qed.

Lemma v4_grid_length (v0 kappa : float) :
  length (SV4.grid v0 kappa) = 375%nat.
Proof. vm_compute. reflexivity. Qed.

(** After the two clamping assignments [adjusted_sv_vol] is neither below
    0.05 nor above 1.5. *)
Lemma v4_clamped (c : SV4.Calib) (moneyness T : float) :
  let a := SV4.adjusted_sv_vol c moneyness T in
  (a <? 0.05) = false /\ (1.5 <? a) = false.
Proof.
  cbv zeta. unfold SV4.adjusted_sv_vol. cbv zeta.
  set (x := sqrt (SV4.best_v c) + SV4.strike_adjust moneyness
            + SV4.time_adjust T).
  destruct (x <? 0.05) eqn:E1.
  - split; reflexivity.
  - destruct (1.5 <? x) eqn:E2.
    + split; reflexivity.
    + split; assumption.
Qed.

(** X20: [implied_vol_sv] of [calculate_sv_v4.c] returns [-1.0] when the
    anchor fails.  Otherwise, with [adjusted] the best [sqrt v0] plus the
    strike and time adjustments, clamped to [[0.05, 1.5]]: when the best
    residual exceeds [0.1 m] it returns the blend
    [w adjusted + (1 - w) sigma_bs] with [w = 1 - min(1, residual / m)],
    plus half the two adjustments, as it is (not clamped, not replaced by
    the anchor); when it does not, it returns [adjusted].  The two later
    [return bs_iv] statements are never reached. *)
Theorem v4_implied_vol_sv_result (g : Globals) (m S K T r q : float) :
  let bs_iv := bs_implied_vol L m S K T r q in
  let moneyness := S * c_exp L ((r - q) * T) / K in
  let c := SV4.calibrate L fft_re g m S K T r q bs_iv in
  let adjusted := SV4.adjusted_sv_vol c moneyness T in
  let w := 1.0 - fmin 1.0 (SV4.best_diff c / m) in
  let result := fst (SV4.implied_vol_sv L fft_re g m S K T r q) in
  ((bs_iv <? 0.0) = true -> result = -1.0)
  /\ ((bs_iv <? 0.0) = false -> (0.1 * m <? SV4.best_diff c) = true ->
      result
      = w * adjusted + (1.0 - w) * bs_iv
        + (SV4.strike_adjust moneyness + SV4.time_adjust T) * 0.5)
  /\ ((bs_iv <? 0.0) = false -> (0.1 * m <? SV4.best_diff c) = false ->
      result = adjusted)
  /\ (adjusted <? 0.05) = false /\ (1.5 <? adjusted) = false
  /\ (is_nan adjusted = false ->
      (0.05 <=? adjusted) = true /\ (adjusted <=? 1.5) = true).
Proof.
  intros bs_iv moneyness c adjusted w result.
  destruct (v4_clamped c moneyness T) as [H1 H2]. fold adjusted in H1, H2.
  subst result. unfold SV4.implied_vol_sv. fold bs_iv.
  split; [intros ->; reflexivity|].
  split.
  { intros -> Hd. cbn [fst]. fold moneyness c. unfold SV4.select_vol.
    rewrite Hd. reflexivity. }
  split.
  { intros -> Hd. cbn [fst]. fold moneyness c. unfold SV4.select_vol.
    rewrite Hd. fold adjusted. rewrite H1, H2. reflexivity. }
  split; [exact H1|]. split; [exact H2|].
  intros Hn. split; apply ltb_false_leb; try assumption; reflexivity.
Qed.

End V4.

(** * The searches, the cache keys and the operands

    The properties of this part say when a search stops, when a cache is
    reused and what a run does with an operand it cannot read, in both
    directions: the event happens under its condition and only under it. *)

(** ** The calibration search of [calculate_sv_v5.c] *)

Section CalibrationStop.

Import SV5 FloatFacts.

Variable L : Libm.
Variable fft_re : FFTJob -> Z -> float.

(** With the flag down, a visit raises it exactly when the residual of the
    tuple improves on the best one and is below [0.005 m]. *)
Lemma visit_flag (m S K T r q : float) (t : Tuple) (c : Calib) :
  g_found_good_match (cal_globals c) = false ->
  let residual :=
    fabs (fst (heston_call_fft L fft_re (cal_globals c) S K T r q
                 (t_v0 t) (t_kappa t) (t_theta t) (t_sigma t) (t_rho t))
          - m) in
  g_found_good_match (cal_globals (visit L fft_re m S K T r q t c))
  = (residual <? best_diff c) && (residual <? 0.005 * m).
Proof.
  intros Hc. cbv zeta. unfold visit, try_tuple.
  pose proof (heston_call_fft_found L fft_re (cal_globals c) S K T r q
                (t_v0 t) (t_kappa t) (t_theta t) (t_sigma t) (t_rho t)) as F.
  destruct (heston_call_fft L fft_re (cal_globals c) S K T r q
              (t_v0 t) (t_kappa t) (t_theta t) (t_sigma t) (t_rho t))
    as [model_price g1].
  cbn [fst snd] in *. rewrite Hc in F.
  destruct (fabs (model_price - m) <? best_diff c); cbn [andb].
  - destruct (fabs (model_price - m) <? 0.005 * m); cbn; [reflexivity|exact F].
  - cbn. exact F.
Qed.

(** The flat loop stops at the first tuple whose visit raises the flag. *)
Lemma search_stops (m S K T r q : float) (l : list Tuple) :
  forall c : Calib,
    g_found_good_match (cal_globals c) = false ->
    let after (p : list Tuple) :=
      fold_left (fun c0 t => visit L fft_re m S K T r q t c0) p c in
    let c' := search_loop (visit L fft_re m S K T r q) l c in
    exists done rest : list Tuple,
      l = done ++ rest
      /\ c' = after done
      /\ (forall before t later,
            done = before ++ t :: later ->
            g_found_good_match
              (cal_globals (visit L fft_re m S K T r q t (after before)))
            = true ->
            later = [])
      /\ (forall before t later,
            done = before ++ t :: later ->
            g_found_good_match (cal_globals (after before)) = false)
      /\ (g_found_good_match (cal_globals c') = false -> rest = []).
Proof.
  induction l as [|t l IH]; intros c Hc; cbv zeta.
  - exists [], []. cbn [search_loop fold_left app].
    repeat split; try reflexivity.
    + intros before t later E. destruct before; discriminate E.
    + intros before t later E. destruct before; discriminate E.
  - cbn [search_loop]. rewrite Hc.
    set (c1 := visit L fft_re m S K T r q t c).
    destruct (g_found_good_match (cal_globals c1)) eqn:E1.
    + rewrite (search_loop_found _ l c1 E1).
      exists [t], l. cbn [fold_left app]. fold c1.
      split; [reflexivity|]. split; [reflexivity|]. split; [|split].
      * intros before t' later E _.
        destruct before as [|b before]; [injection E as _ <-; reflexivity|].
        injection E as _ E. destruct before; discriminate E.
      * intros before t' later E.
        destruct before as [|b before]; [exact Hc|].
        injection E as _ E. destruct before; discriminate E.
      * rewrite E1. discriminate.
    + destruct (IH c1 E1) as (done & rest & Hl & Hd & Hs & Hn & Hr).
      exists (t :: done), rest. cbn [fold_left]. fold c1.
      split; [cbn; rewrite Hl; reflexivity|]. split; [exact Hd|].
      split; [|split].
      * intros before t' later E F.
        destruct before as [|b before].
        -- injection E as <- _. cbn [fold_left] in F. fold c1 in F. congruence.
        -- injection E as <- E. cbn [fold_left] in F. fold c1 in F.
           exact (Hs before t' later E F).
      * intros before t' later E.
        destruct before as [|b before]; [exact Hc|].
        injection E as <- E. cbn [fold_left]. fold c1.
        exact (Hn before t' later E).
      * exact Hr.
Qed.

Lemma priced_after (m S K T r q : float) (l : list Tuple) :
  forall c : Calib,
    priced (fold_left (fun c0 t => visit L fft_re m S K T r q t c0) l c)
    = rev l ++ priced c.
Proof.
  induction l as [|t l IH]; intros c; [reflexivity|].
  cbn [fold_left rev]. rewrite IH.
  destruct (visit_spec L fft_re m S K T r q t c) as [Hp _]. rewrite Hp.
  rewrite <- app_assoc. reflexivity.
Qed.

(** C5 (as amended): the search prices the tuples of the grid in the order
    of the loops and stops on the first tuple whose residual improves on the
    best one so far and is below [0.005 m]: that tuple is then the last one
    priced and the best one.  When no tuple passes that test, all 135 tuples
    ([5 x 3 x 3 x 3]) are priced.  Nothing else caps the number of
    pricings.  Below, [after p] is the state of the search once the tuples
    [p] have been visited, [residual c0 t] is [test_diff] for the tuple [t]
    priced in the state [c0], and [stops c0 t] is the test that raises
    [g_found_good_match]. *)
Theorem calibration_evaluation_bound (g : Globals) (m S K T r q bs_iv : float) :
  let c := calibrate L fft_re g m S K T r q bs_iv in
  let after (p : list Tuple) :=
    fold_left (fun c0 t => visit L fft_re m S K T r q t c0) p
      (start_state L g S K T r q bs_iv) in
  let residual (c0 : Calib) (t : Tuple) :=
    fabs (fst (heston_call_fft L fft_re (cal_globals c0) S K T r q
                 (t_v0 t) (t_kappa t) (t_theta t) (t_sigma t) (t_rho t))
          - m) in
  let stops (c0 : Calib) (t : Tuple) :=
    (residual c0 t <? best_diff c0) && (residual c0 t <? 0.005 * m) in
  exists done rest : list Tuple,
    grid (init_v0 L S K T r q bs_iv) (init_kappa L S K T r q) = done ++ rest
    /\ c = after done
    /\ priced c = rev done
    /\ (length (priced c) <= 135)%nat
    /\ (forall before t later,
          done = before ++ t :: later ->
          stops (after before) t = true -> later = [])
    /\ (forall before t later,
          done = before ++ t :: later -> later <> [] ->
          stops (after before) t = false)
    /\ (g_found_good_match (cal_globals c) = false ->
        rest = [] /\ length (priced c) = 135%nat
        /\ forall before t later,
             done = before ++ t :: later -> stops (after before) t = false)
    /\ (g_found_good_match (cal_globals c) = true ->
        (exists before t,
           done = before ++ [t] /\ stops (after before) t = true)
        /\ (best_diff c <? 0.005 * m) = true
        /\ exists earlier : list Tuple,
             priced c
             = MkTuple (best_v c) (best_kappa c) (best_theta c)
                 (best_sigma c) (best_rho c) :: earlier).
Proof.
  intros c after residual stops.
  set (l := grid (init_v0 L S K T r q bs_iv) (init_kappa L S K T r q)).
  set (start := start_state L g S K T r q bs_iv).
  assert (Hs0 : g_found_good_match (cal_globals start) = false) by reflexivity.
  destruct (search_stops m S K T r q l start Hs0)
    as (done & rest & Hl & Hd & Hs & Hn & Hr).
  destruct (search_trace L fft_re m S K T r q l start Hs0)
    as (_ & _ & _ & _ & _ & Hb).
  assert (Ec : c = search_loop (visit L fft_re m S K T r q) l start)
    by (unfold c; apply calibrate_flat).
  rewrite <- Ec in Hd, Hr, Hb. fold after in Hd, Hs, Hn.
  assert (Hflag : forall before t later,
             done = before ++ t :: later ->
             g_found_good_match
               (cal_globals (visit L fft_re m S K T r q t (after before)))
             = stops (after before) t).
  { intros before t later E. apply visit_flag. exact (Hn before t later E). }
  assert (Hp : priced c = rev done).
  { rewrite Hd. unfold after. rewrite priced_after.
    cbn [priced start_state]. apply app_nil_r. }
  assert (Hlen : (length done + length rest = 135)%nat).
  { rewrite <- length_app, <- Hl. apply grid_length. }
  assert (Hlater : forall before t later,
             done = before ++ t :: later -> later <> [] ->
             stops (after before) t = false).
  { intros before t later E Ne.
    destruct (stops (after before) t) eqn:St; [|reflexivity].
    exfalso. apply Ne. apply (Hs before t later E).
    change (g_found_good_match
              (cal_globals (visit L fft_re m S K T r q t (after before)))
            = true).
    rewrite (Hflag before t later E). exact St. }
  assert (Hlast : forall before t,
             done = before ++ [t] ->
             g_found_good_match (cal_globals c) = stops (after before) t).
  { intros before t E. rewrite <- (Hflag before t [] E).
    rewrite Hd, E. unfold after. rewrite fold_left_app. reflexivity. }
  exists done, rest.
  split; [exact Hl|]. split; [exact Hd|]. split; [exact Hp|].
  split; [rewrite Hp, length_rev; lia|].
  split.
  { intros before t later E St. apply (Hs before t later E).
    change (g_found_good_match
              (cal_globals (visit L fft_re m S K T r q t (after before)))
            = true).
    rewrite (Hflag before t later E). exact St. }
  split; [exact Hlater|].
  split.
  - intros F. specialize (Hr F). subst rest.
    split; [reflexivity|].
    split; [rewrite Hp, length_rev; cbn in Hlen; lia|].
    intros before t later E.
    destruct later as [|t' later].
    + rewrite <- (Hlast before t E). exact F.
    + apply (Hlater before t (t' :: later) E). discriminate.
  - intros F. split; [|exact (Hb F)].
    destruct (rev done) as [|t before'] eqn:R.
    + exfalso. assert (done = []) by (rewrite <- (rev_involutive done), R; reflexivity).
      subst done. rewrite Hd in F. cbn in F. discriminate F.
    + assert (E : done = rev before' ++ [t])
        by (rewrite <- (rev_involutive done), R; reflexivity).
      exists (rev before'), t. split; [exact E|].
      rewrite <- (Hlast _ _ E). exact F.
Qed.

End CalibrationStop.

(** ** The grid search of [calculate_sv_v4.c] *)

Section V4Search.

Import SV5 FloatFacts FloatOrder.

Variable L : Libm.
Variable fft_re : FFTJob -> Z -> float.

(** Before the jump, a visit takes it exactly when the residual of the tuple
    improves on the best one and is below [0.001]. *)
Lemma v4_visit_flag (m S K T r q : float) (t : Tuple) (c : SV4.Calib) :
  SV4.jumped c = false ->
  let residual :=
    fabs (fst (SV4.heston_call_fft L fft_re (SV4.cal_globals c) S K T r q
                 (t_v0 t) (t_kappa t) (t_theta t) (t_sigma t) (t_rho t))
          - m) in
  SV4.jumped (SV4.visit L fft_re m S K T r q t c)
  = (residual <? SV4.best_diff c) && (residual <? 0.001).
Proof.
  intros Hc. cbv zeta. unfold SV4.visit, SV4.try_tuple.
  destruct (SV4.heston_call_fft L fft_re (SV4.cal_globals c) S K T r q
              (t_v0 t) (t_kappa t) (t_theta t) (t_sigma t) (t_rho t))
    as [model_price g1].
  cbn [fst].
  destruct (fabs (model_price - m) <? SV4.best_diff c); cbn [andb SV4.jumped].
  - reflexivity.
  - exact Hc.
Qed.

Lemma v4_search_stops (m S K T r q : float) (l : list Tuple) :
  forall c : SV4.Calib,
    SV4.jumped c = false ->
    let after (p : list Tuple) :=
      fold_left (fun c0 t => SV4.visit L fft_re m S K T r q t c0) p c in
    let c' := SV4.search_loop (SV4.visit L fft_re m S K T r q) l c in
    exists done rest : list Tuple,
      l = done ++ rest
      /\ c' = after done
      /\ (forall before t later,
            done = before ++ t :: later ->
            SV4.jumped (SV4.visit L fft_re m S K T r q t (after before)) = true ->
            later = [])
      /\ (forall before t later,
            done = before ++ t :: later ->
            SV4.jumped (after before) = false)
      /\ (SV4.jumped c' = false -> rest = []).
Proof.
  induction l as [|t l IH]; intros c Hc; cbv zeta.
  - exists [], []. cbn [SV4.search_loop fold_left app].
    repeat split; try reflexivity.
    + intros before t later E. destruct before; discriminate E.
    + intros before t later E. destruct before; discriminate E.
  - cbn [SV4.search_loop]. rewrite Hc.
    set (c1 := SV4.visit L fft_re m S K T r q t c).
    destruct (SV4.jumped c1) eqn:E1.
    + rewrite (v4_loop_jumped _ l c1 E1).
      exists [t], l. cbn [fold_left app]. fold c1.
      split; [reflexivity|]. split; [reflexivity|]. split; [|split].
      * intros before t' later E _.
        destruct before as [|b before]; [injection E as _ <-; reflexivity|].
        injection E as _ E. destruct before; discriminate E.
      * intros before t' later E.
        destruct before as [|b before]; [exact Hc|].
        injection E as _ E. destruct before; discriminate E.
      * rewrite E1. discriminate.
    + destruct (IH c1 E1) as (done & rest & Hl & Hd & Hs & Hn & Hr).
      exists (t :: done), rest. cbn [fold_left]. fold c1.
      split; [cbn; rewrite Hl; reflexivity|]. split; [exact Hd|].
      split; [|split].
      * intros before t' later E F.
        destruct before as [|b before].
        -- injection E as <- _. cbn [fold_left] in F. fold c1 in F. congruence.
        -- injection E as <- E. cbn [fold_left] in F. fold c1 in F.
           exact (Hs before t' later E F).
      * intros before t' later E.
        destruct before as [|b before]; [exact Hc|].
        injection E as <- E. cbn [fold_left]. fold c1.
        exact (Hn before t' later E).
      * exact Hr.
Qed.

Lemma v4_priced_after (m S K T r q : float) (l : list Tuple) :
  forall c : SV4.Calib,
    SV4.priced (fold_left (fun c0 t => SV4.visit L fft_re m S K T r q t c0) l c)
    = rev l ++ SV4.priced c.
Proof.
  induction l as [|t l IH]; intros c; [reflexivity|].
  cbn [fold_left rev]. rewrite IH.
  destruct (v4_visit_spec L fft_re m S K T r q t c) as [Hp _]. rewrite Hp.
  rewrite <- app_assoc. reflexivity.
Qed.

(** X19: the grid search of [calculate_sv_v4.c] visits, in this order and
    with [theta = v0], the 375 tuples of
    [v0 (0.7 + 0.15 i)] x [kappa (0.5 + 0.5 i)] x [sigma = 0.2 + 0.15 i] x
    [rho = -0.8 + 0.2 i] as the doubles those expressions evaluate to ([v0]
    outermost, [rho] innermost).  It jumps out of the loops on the first
    tuple whose residual improves on the best one so far and is below
    [0.001] (an absolute threshold): that tuple is then the last one priced
    and the best one.  When no tuple passes that test, all 375 tuples are
    priced.  Nothing else caps the number of pricings.  Below, [after p] is
    the state of the search once the tuples [p] have been visited and
    [jumps c0 t] is the test that takes the [goto]. *)
Theorem v4_calibration_grid (g : Globals) (m S K T r q bs_iv : float) :
  let c := SV4.calibrate L fft_re g m S K T r q bs_iv in
  let v0 := init_v0 L S K T r q bs_iv in
  let kappa := init_kappa L S K T r q in
  let after (p : list Tuple) :=
    fold_left (fun c0 t => SV4.visit L fft_re m S K T r q t c0) p
      (SV4.start_state L g S K T r q bs_iv) in
  let residual (c0 : SV4.Calib) (t : Tuple) :=
    fabs (fst (SV4.heston_call_fft L fft_re (SV4.cal_globals c0) S K T r q
                 (t_v0 t) (t_kappa t) (t_theta t) (t_sigma t) (t_rho t))
          - m) in
  let jumps (c0 : SV4.Calib) (t : Tuple) :=
    (residual c0 t <? SV4.best_diff c0) && (residual c0 t <? 0.001) in
  SV4.grid v0 kappa
  = flat_map (fun a =>
      flat_map (fun b =>
        flat_map (fun s =>
          map (fun rh => MkTuple a b a s rh)
            [-0.8; -0.60000000000000009; -0.4; -0.19999999999999996; 0])
          [0.2; 0.35; 0.5; 0.64999999999999991; 0.8])
        [kappa * 0.5; kappa * 1; kappa * 1.5])
      [v0 * 0.7; v0 * 0.85; v0 * 1; v0 * 1.15; v0 * 1.2999999999999998]
  /\ exists done rest : list Tuple,
       SV4.grid v0 kappa = done ++ rest
       /\ c = after done
       /\ SV4.priced c = rev done
       /\ (length (SV4.priced c) <= 375)%nat
       /\ (forall before t later,
             done = before ++ t :: later ->
             jumps (after before) t = true -> later = [])
       /\ (SV4.jumped c = false ->
           rest = [] /\ length (SV4.priced c) = 375%nat
           /\ forall before t later,
                done = before ++ t :: later -> jumps (after before) t = false)
       /\ (SV4.jumped c = true ->
           (exists before t,
              done = before ++ [t] /\ jumps (after before) t = true)
           /\ (SV4.best_diff c <? 0.001) = true
           /\ exists earlier : list Tuple,
                SV4.priced c
                = MkTuple (SV4.best_v c) (SV4.best_kappa c) (SV4.best_theta c)
                    (SV4.best_sigma c) (SV4.best_rho c) :: earlier).
Proof.
  intros c v0 kappa after residual jumps. split; [reflexivity|].
  set (l := SV4.grid v0 kappa).
  set (start := SV4.start_state L g S K T r q bs_iv).
  assert (Hs0 : SV4.jumped start = false) by reflexivity.
  destruct (v4_search_stops m S K T r q l start Hs0)
    as (done & rest & Hl & Hd & Hs & Hn & Hr).
  destruct (v4_search_trace L fft_re m S K T r q l start Hs0)
    as (_ & _ & _ & _ & _ & Hb).
  assert (Ec : c = SV4.search_loop (SV4.visit L fft_re m S K T r q) l start)
    by (unfold c; apply v4_calibrate_flat).
  rewrite <- Ec in Hd, Hr, Hb.
  assert (Hflag : forall before t later,
             done = before ++ t :: later ->
             SV4.jumped (SV4.visit L fft_re m S K T r q t (after before))
             = jumps (after before) t).
  { intros before t later E. apply v4_visit_flag. exact (Hn before t later E). }
  assert (Hp : SV4.priced c = rev done).
  { rewrite Hd. rewrite v4_priced_after.
    cbn [SV4.priced SV4.start_state]. apply app_nil_r. }
  assert (Hlen : (length done + length rest = 375)%nat).
  { rewrite <- length_app, <- Hl. apply v4_grid_length. }
  assert (Hstop : forall before t later,
             done = before ++ t :: later ->
             jumps (after before) t = true -> later = []).
  { intros before t later E St. apply (Hs before t later E).
    change (SV4.jumped (SV4.visit L fft_re m S K T r q t (after before)) = true).
    rewrite (Hflag before t later E). exact St. }
  assert (Hlast : forall before t,
             done = before ++ [t] ->
             SV4.jumped c = jumps (after before) t).
  { intros before t E. rewrite <- (Hflag before t [] E).
    rewrite Hd, E. unfold after. rewrite fold_left_app. reflexivity. }
  exists done, rest.
  split; [exact Hl|]. split; [exact Hd|]. split; [exact Hp|].
  split; [rewrite Hp, length_rev; lia|].
  split; [exact Hstop|].
  split.
  - intros F. specialize (Hr F). subst rest.
    split; [reflexivity|].
    split; [rewrite Hp, length_rev; cbn in Hlen; lia|].
    intros before t later E.
    destruct later as [|t' later].
    + rewrite <- (Hlast before t E). exact F.
    + destruct (jumps (after before) t) eqn:St; [|reflexivity].
      discriminate (Hstop before t (t' :: later) E St).
  - intros F. split; [|exact (Hb F)].
    destruct (rev done) as [|t before'] eqn:R.
    + exfalso. assert (done = []) by (rewrite <- (rev_involutive done), R; reflexivity).
      subst done. rewrite Hd in F. cbn in F. discriminate F.
    + assert (E : done = rev before' ++ [t])
        by (rewrite <- (rev_involutive done), R; reflexivity).
      exists (rev before'), t. split; [exact E|].
      rewrite <- (Hlast _ _ E). exact F.
Qed.

End V4Search.

(** ** The cache keys *)

Section CacheKey.

Import SV5 FloatFacts FloatOrder.

Variable L : Libm.
Variable fft_re : FFTJob -> Z -> float.

(** [x < y] fails exactly when [y <= x] or one of the two is NaN. *)
Lemma ltb_false_cases (x y : float) :
  (x <? y) = false
  <-> (y <=? x) = true \/ is_nan x = true \/ is_nan y = true.
Proof.
  split.
  - intros H.
    destruct (is_nan x) eqn:Nx; [right; left; reflexivity|].
    destruct (is_nan y) eqn:Ny; [right; right; reflexivity|].
    left. apply ltb_false_leb; assumption.
  - intros [H|[H|H]].
    + apply leb_antisym. exact H.
    + destruct (x <? y) eqn:E; [|reflexivity].
      apply ltb_not_nan in E. destruct E as [E _]. congruence.
    + destruct (x <? y) eqn:E; [|reflexivity].
      apply ltb_not_nan in E. destruct E as [_ E]. congruence.
Qed.

Lemma is_nan_fabs (x : float) : is_nan (fabs x) = is_nan x.
Proof.
  assert (H : Prim2SF (fabs x) = S754_nan <-> Prim2SF x = S754_nan).
  { unfold fabs. rewrite abs_spec.
    destruct (Prim2SF x); cbn; split; intros E; congruence. }
  destruct (is_nan x) eqn:Nx.
  - apply is_nan_spec, H, is_nan_spec, Nx.
  - apply is_nan_false. intros E. apply H in E.
    apply is_nan_false in Nx. contradiction.
Qed.

(** A tag [x] and a key value [y] fail the test [fabs (x - y) < tol]
    exactly when their distance is at or above the tolerance or is NaN, or
    the tolerance is NaN. *)
Lemma tag_test_false (tol x y : float) :
  (fabs (x - y) <? tol) = false
  <-> (tol <=? fabs (x - y)) = true \/ is_nan (x - y) = true
      \/ is_nan tol = true.
Proof. rewrite ltb_false_cases, is_nan_fabs. reflexivity. Qed.

Ltac split_forall :=
  repeat match goal with
         | H : Forall _ (_ :: _) |- _ =>
             apply Forall_cons_iff in H; destruct H
         end.

Ltac split_exists :=
  repeat match goal with
         | H : Exists _ (_ :: _) |- _ =>
             apply Exists_cons in H; destruct H as [H|H]
         | H : Exists _ [] |- _ => apply Exists_nil in H; contradiction
         end.

(** X1: what the test at the head of [init_fft_cache] compares in
    [calculate_sv_v5.c].  The cache is reused exactly when it is valid, [N]
    is the cached one and each of [S], [r], [q], [T], [R], [alpha], [eta]
    is nearer to its cached tag than the tolerance.  It is rebuilt exactly
    when it is invalid, [N] differs, or for one of the seven the distance to
    the tag is at or above the tolerance or is NaN, or the tolerance is NaN.
    A call that repeats finite tags under a positive tolerance is a hit.  On
    a hit the state is left as it is whatever Heston parameters are passed:
    they are recorded by a rebuild, which tags the cache with the full key,
    but take no part in the test. *)
Theorem init_fft_cache_key (g : Globals)
    (S r q T v0 kappa theta sigma rho : float) :
  let c := g_cache g in
  let tol := g_cache_tolerance g in
  let g' := init_fft_cache L fft_re g S r q T v0 kappa theta sigma rho in
  let key :=
    [(cache_S c, S); (cache_r c, r); (cache_q c, q); (cache_T c, T);
     (cache_log_strike_range c, g_log_strike_range g);
     (cache_alpha c, g_alpha g); (cache_eta c, g_eta g)] in
  let near (p : float * float) := (fabs (fst p - snd p) <? tol) = true in
  let off (p : float * float) :=
    (tol <=? fabs (fst p - snd p)) = true
    \/ is_nan (fst p - snd p) = true \/ is_nan tol = true in
  (cache_hit g S r q T = true
   <-> is_valid c = true /\ cache_fft_n c = g_fft_n g /\ Forall near key)
  /\ (cache_hit g S r q T = false
      <-> is_valid c = false \/ cache_fft_n c <> g_fft_n g \/ Exists off key)
  /\ (is_valid c = true -> cache_fft_n c = g_fft_n g ->
      (0.0 <? tol) = true ->
      Forall (fun p => fst p = snd p /\ isfinite (snd p) = true) key ->
      cache_hit g S r q T = true)
  /\ (cache_hit g S r q T = true ->
      forall v0' kappa' theta' sigma' rho' : float,
        init_fft_cache L fft_re g S r q T v0' kappa' theta' sigma' rho' = g)
  /\ (cache_hit g S r q T = false ->
      is_valid (g_cache g') = true
      /\ tagged (g_cache g') S r q T v0 kappa theta sigma rho
           (g_fft_n g) (g_log_strike_range g) (g_alpha g) (g_eta g)).
Proof.
  intros c tol g' key near off.
  assert (Hhit : cache_hit g S r q T = true
                 <-> is_valid c = true /\ cache_fft_n c = g_fft_n g
                     /\ Forall near key).
  { unfold cache_hit. fold c tol. rewrite !andb_true_iff, Z.eqb_eq.
    subst key near. split.
    - intros H. repeat match goal with H : _ /\ _ |- _ => destruct H end.
      split; [assumption|]. split; [assumption|].
      repeat constructor; assumption.
    - intros (Hv & Hn & Hf). split_forall. cbn [fst snd] in *. tauto. }
  split; [exact Hhit|].
  split; [|split; [|split]].
  - unfold cache_hit. fold c tol.
    rewrite !andb_false_iff, Z.eqb_neq, !tag_test_false.
    subst key off. split.
    + intros H.
      repeat match goal with H : _ \/ _ |- _ => destruct H as [H|H] end;
        try (left; assumption); try (right; left; assumption);
        right; right.
      all: first
        [ apply Exists_cons_hd; cbn [fst snd]; tauto
        | do 1 apply Exists_cons_tl; apply Exists_cons_hd; cbn [fst snd]; tauto
        | do 2 apply Exists_cons_tl; apply Exists_cons_hd; cbn [fst snd]; tauto
        | do 3 apply Exists_cons_tl; apply Exists_cons_hd; cbn [fst snd]; tauto
        | do 4 apply Exists_cons_tl; apply Exists_cons_hd; cbn [fst snd]; tauto
        | do 5 apply Exists_cons_tl; apply Exists_cons_hd; cbn [fst snd]; tauto
        | do 6 apply Exists_cons_tl; apply Exists_cons_hd; cbn [fst snd]; tauto ].
    + intros [H|[H|H]]; [tauto|tauto|].
      split_exists; cbn [fst snd] in H; tauto.
  - intros Hv Hn Ht Hf. apply Hhit. split; [exact Hv|]. split; [exact Hn|].
    subst key near. split_forall. cbn [fst snd] in *.
    repeat match goal with H : _ /\ _ |- _ => destruct H end.
    repeat constructor; cbn [fst snd];
      match goal with
      | E : ?x = ?y |- (fabs (?x - ?y) <? _) = true =>
          rewrite E; apply self_within; assumption
      end.
  - intros H v0' kappa' theta' sigma' rho'.
    unfold init_fft_cache. rewrite H. reflexivity.
  - intros H. split.
    + apply init_fft_cache_valid.
    + apply init_fft_cache_miss_tags. exact H.
Qed.

(** X18: in [calculate_sv_v4.c] the reuse test of [init_fft_cache] compares
    the whole key.  The cache is reused exactly when it is valid, [N] is the
    cached one and each of [S], [r], [q], [T], [v0], [kappa], [theta],
    [sigma], [rho], [R], [alpha], [eta] is nearer to its cached tag than the
    tolerance.  It is rebuilt exactly when it is invalid, [N] differs, or for
    one of the twelve the distance to the tag is at or above the tolerance
    or is NaN, or the tolerance is NaN.  A call that repeats finite tags
    under a positive tolerance is a hit.  A hit leaves the state as it is; a
    rebuild leaves a valid cache tagged with the key of the call. *)
Theorem v4_cache_key (g : Globals)
    (S r q T v0 kappa theta sigma rho : float) :
  let c := g_cache g in
  let tol := g_cache_tolerance g in
  let g' := SV4.init_fft_cache L fft_re g S r q T v0 kappa theta sigma rho in
  let hit := SV4.cache_hit g S r q T v0 kappa theta sigma rho in
  let key :=
    [(cache_S c, S); (cache_r c, r); (cache_q c, q); (cache_T c, T);
     (cache_v0 c, v0); (cache_kappa c, kappa); (cache_theta c, theta);
     (cache_sigma c, sigma); (cache_rho c, rho);
     (cache_log_strike_range c, g_log_strike_range g);
     (cache_alpha c, g_alpha g); (cache_eta c, g_eta g)] in
  let near (p : float * float) := (fabs (fst p - snd p) <? tol) = true in
  let off (p : float * float) :=
    (tol <=? fabs (fst p - snd p)) = true
    \/ is_nan (fst p - snd p) = true \/ is_nan tol = true in
  (hit = true
   <-> is_valid c = true /\ cache_fft_n c = g_fft_n g /\ Forall near key)
  /\ (hit = false
      <-> is_valid c = false \/ cache_fft_n c <> g_fft_n g \/ Exists off key)
  /\ (is_valid c = true -> cache_fft_n c = g_fft_n g ->
      (0.0 <? tol) = true ->
      Forall (fun p => fst p = snd p /\ isfinite (snd p) = true) key ->
      hit = true)
  /\ (hit = true -> g' = g)
  /\ (hit = false ->
      is_valid (g_cache g') = true
      /\ tagged (g_cache g') S r q T v0 kappa theta sigma rho
           (g_fft_n g) (g_log_strike_range g) (g_alpha g) (g_eta g)).
Proof.
  intros c tol g' hit key near off.
  assert (Hhit : hit = true
                 <-> is_valid c = true /\ cache_fft_n c = g_fft_n g
                     /\ Forall near key).
  { unfold hit, SV4.cache_hit. fold c tol. rewrite !andb_true_iff, Z.eqb_eq.
    subst key near. split.
    - intros H. repeat match goal with H : _ /\ _ |- _ => destruct H end.
      split; [assumption|]. split; [assumption|].
      repeat constructor; assumption.
    - intros (Hv & Hn & Hf). split_forall. cbn [fst snd] in *. tauto. }
  split; [exact Hhit|].
  split; [|split; [|split]].
  - unfold hit, SV4.cache_hit. fold c tol.
    rewrite !andb_false_iff, Z.eqb_neq, !tag_test_false.
    subst key off. split.
    + intros H.
      repeat match goal with H : _ \/ _ |- _ => destruct H as [H|H] end;
        try (left; assumption); try (right; left; assumption);
        right; right.
      all: first
        [ apply Exists_cons_hd; cbn [fst snd]; tauto
        | do 1 apply Exists_cons_tl; apply Exists_cons_hd; cbn [fst snd]; tauto
        | do 2 apply Exists_cons_tl; apply Exists_cons_hd; cbn [fst snd]; tauto
        | do 3 apply Exists_cons_tl; apply Exists_cons_hd; cbn [fst snd]; tauto
        | do 4 apply Exists_cons_tl; apply Exists_cons_hd; cbn [fst snd]; tauto
        | do 5 apply Exists_cons_tl; apply Exists_cons_hd; cbn [fst snd]; tauto
        | do 6 apply Exists_cons_tl; apply Exists_cons_hd; cbn [fst snd]; tauto
        | do 7 apply Exists_cons_tl; apply Exists_cons_hd; cbn [fst snd]; tauto
        | do 8 apply Exists_cons_tl; apply Exists_cons_hd; cbn [fst snd]; tauto
        | do 9 apply Exists_cons_tl; apply Exists_cons_hd; cbn [fst snd]; tauto
        | do 10 apply Exists_cons_tl; apply Exists_cons_hd; cbn [fst snd]; tauto
        | do 11 apply Exists_cons_tl; apply Exists_cons_hd; cbn [fst snd]; tauto ].
    + intros [H|[H|H]]; [tauto|tauto|].
      split_exists; cbn [fst snd] in H; tauto.
  - intros Hv Hn Ht Hf. apply Hhit. split; [exact Hv|]. split; [exact Hn|].
    subst key near. split_forall. cbn [fst snd] in *.
    repeat match goal with H : _ /\ _ |- _ => destruct H end.
    repeat constructor; cbn [fst snd];
      match goal with
      | E : ?x = ?y |- (fabs (?x - ?y) <? _) = true =>
          rewrite E; apply self_within; assumption
      end.
  - intros H. unfold g', SV4.init_fft_cache. fold hit. rewrite H. reflexivity.
  - intros H. split; [apply v4_cache_valid|].
    unfold g', SV4.init_fft_cache. fold hit. rewrite H.
    unfold precompute_fft_values.
    match goal with |- context [if ?b then _ else _] => destruct b end;
      cbn; unfold tagged; cbn; repeat split.
Qed.

End CacheKey.

(** After a pricing at spot 100, a call that repeats the option data with
    other Heston parameters hits the cache of [calculate_sv_v5.c] and leaves
    the state as it is; a call at spot 101 misses, and the cache is rebuilt
    and tagged with the new key. *)
Lemma init_fft_cache_key_witness :
  let g1 := snd (SV5.heston_call_fft ref_libm SV5.spectrum_of_v0
                   SV5.small_grid_globals
                   100 100 1 0.05 0 0.04 1.0 0.04 0.4 (-0.7)) in
  let g2 := SV5.init_fft_cache ref_libm SV5.spectrum_of_v0 g1
              101 0.05 0 1 0.09 1.0 0.04 0.4 (-0.7) in
  SV5.cache_hit g1 100 0.05 0 1 = true
  /\ SV5.init_fft_cache ref_libm SV5.spectrum_of_v0 g1
       100 0.05 0 1 0.09 2.0 0.05 0.5 (-0.5) = g1
  /\ SV5.cache_hit g1 101 0.05 0 1 = false
  /\ SV5.cache_S (SV5.g_cache g2) = 101
  /\ SV5.cache_v0 (SV5.g_cache g2) = 0.09.
Proof.
  cbv zeta.
  set (g1 := snd (SV5.heston_call_fft ref_libm SV5.spectrum_of_v0
                    SV5.small_grid_globals
                    100 100 1 0.05 0 0.04 1.0 0.04 0.4 (-0.7))).
  destruct (init_fft_cache_key ref_libm SV5.spectrum_of_v0 g1
              100 0.05 0 1 0.04 1.0 0.04 0.4 (-0.7))
    as (_ & _ & Hrep & Hkeep & _).
  destruct (init_fft_cache_key ref_libm SV5.spectrum_of_v0 g1
              101 0.05 0 1 0.09 1.0 0.04 0.4 (-0.7))
    as (_ & Hmiss & _ & _ & Htag).
  assert (Hhit : SV5.cache_hit g1 100 0.05 0 1 = true).
  { apply Hrep; try (vm_compute; reflexivity).
    repeat constructor; vm_compute; reflexivity. }
  assert (Hoff : SV5.cache_hit g1 101 0.05 0 1 = false).
  { apply Hmiss. right. right. apply Exists_cons_hd. left.
    vm_compute. reflexivity. }
  split; [exact Hhit|]. split; [apply Hkeep, Hhit|]. split; [exact Hoff|].
  destruct (Htag Hoff) as (_ & T). unfold SV5.tagged in T.
  split; [apply T|apply T].
Defined.

(** After a pricing at [v0 = 0.04], a call of [calculate_sv_v4.c] that
    repeats the key hits the cache and leaves the state as it is; a call at
    [v0 = 0.09] misses, and the cache is rebuilt and tagged [v0 = 0.09]. *)
Lemma v4_cache_key_witness :
  let g1 := snd (SV4.heston_call_fft ref_libm SV5.spectrum_of_v0
                   SV5.small_grid_globals
                   100 100 1 0.05 0 0.04 1.0 0.04 0.4 (-0.7)) in
  let g2 := SV4.init_fft_cache ref_libm SV5.spectrum_of_v0 g1
              100 0.05 0 1 0.09 1.0 0.04 0.4 (-0.7) in
  SV4.cache_hit g1 100 0.05 0 1 0.04 1.0 0.04 0.4 (-0.7) = true
  /\ SV4.init_fft_cache ref_libm SV5.spectrum_of_v0 g1
       100 0.05 0 1 0.04 1.0 0.04 0.4 (-0.7) = g1
  /\ SV4.cache_hit g1 100 0.05 0 1 0.09 1.0 0.04 0.4 (-0.7) = false
  /\ SV5.cache_v0 (SV5.g_cache g2) = 0.09.
Proof.
  cbv zeta.
  set (g1 := snd (SV4.heston_call_fft ref_libm SV5.spectrum_of_v0
                    SV5.small_grid_globals
                    100 100 1 0.05 0 0.04 1.0 0.04 0.4 (-0.7))).
  destruct (v4_cache_key ref_libm SV5.spectrum_of_v0 g1
              100 0.05 0 1 0.04 1.0 0.04 0.4 (-0.7))
    as (_ & _ & Hrep & Hkeep & _).
  destruct (v4_cache_key ref_libm SV5.spectrum_of_v0 g1
              100 0.05 0 1 0.09 1.0 0.04 0.4 (-0.7))
    as (_ & Hmiss & _ & _ & Htag).
  assert (Hhit : SV4.cache_hit g1 100 0.05 0 1 0.04 1.0 0.04 0.4 (-0.7) = true).
  { apply Hrep; try (vm_compute; reflexivity).
    repeat constructor; vm_compute; reflexivity. }
  assert (Hoff : SV4.cache_hit g1 100 0.05 0 1 0.09 1.0 0.04 0.4 (-0.7) = false).
  { apply Hmiss. right. right. do 4 apply Exists_cons_tl. apply Exists_cons_hd.
    left. vm_compute. reflexivity. }
  split; [exact Hhit|]. split; [apply Hkeep, Hhit|]. split; [exact Hoff|].
  destruct (Htag Hoff) as (_ & T). unfold SV5.tagged in T. apply T.
Defined.

(** ** Operands that [strtod] cannot convert *)

Section Operands.

Import SV5 FloatFacts FloatOrder.

Variable L : Libm.
Variable fft_re : FFTJob -> Z -> float.
Variable atoi : String.string -> Z.
Variable atof : String.string -> float.
Variable strtod : String.string -> Strtod.

(** A run on six operands of which the first four are above zero reaches
    [implied_vol_sv] and prints its value unless it is negative. *)
Lemma run_reaches_solver (g : Globals) (a b c d e f : String.string) :
  let mp := safe_atof strtod a in
  let S := safe_atof strtod b in
  let K := safe_atof strtod c in
  let T := safe_atof strtod d in
  let g1 :=
    if is_challenging_parameter_set S K T 0.04 1.0 0.04 0.4 (-0.7)
    then adapt_fft_parameters g S K T else g in
  let iv := fst (implied_vol_sv L fft_re g1 mp S K T
                   (safe_atof strtod e) (safe_atof strtod f)) in
  (0.0 <? mp) = true -> (0.0 <? S) = true -> (0.0 <? K) = true ->
  (0.0 <? T) = true ->
  run_status (run L fft_re strtod g [a; b; c; d; e; f])
  = (if iv <? 0.0 then 1%Z else 0%Z)
  /\ run_printed (run L fft_re strtod g [a; b; c; d; e; f])
     = (if iv <? 0.0 then None else Some iv).
Proof.
  intros mp S K T g1 iv H0 H1 H2 H3.
  unfold run. cbn [length nth Z.of_nat]. cbn [Pos.of_succ_nat Pos.succ Z.eqb Pos.eqb negb].
  fold mp S K T.
  rewrite (ltb_asym _ _ H0), (ltb_asym _ _ H1), (ltb_asym _ _ H2),
    (ltb_asym _ _ H3). cbn [orb].
  fold g1.
  rewrite (ltb_antisym _ _ H0), (ltb_antisym _ _ H1), (ltb_antisym _ _ H2),
    (ltb_antisym _ _ H3).
  subst iv.
  destruct (implied_vol_sv L fft_re g1 mp S K T _ _) as [iv g2].
  cbn [fst]. destruct (iv <? 0.0); split; reflexivity.
Qed.

(** X17: an operand that [strtod] cannot convert (out of range, or not a
    number) is read as [-1.0] by [safe_atof], and [main] tests only the
    first four operands for that value.  When the options let the run
    proceed and the price, the spot, the strike and the time are above zero,
    an unreadable rate (or dividend yield) does not stop the program: it
    calls [implied_vol_sv] with the rate (the yield) [-1.0], prints the
    result and exits with status 0, unless the result is negative.  An
    unreadable price, spot, strike or time ends the run with status 1 and
    nothing printed. *)
Theorem unparsed_rate_is_minus_one
    (opts : list Opt) (a b c d s f : String.string) (g : Globals) :
  sd_erange (strtod s) = true \/ sd_converted (strtod s) = false ->
  process_options atoi atof opts initial_globals = (g, None) ->
  let mp := safe_atof strtod a in
  let S := safe_atof strtod b in
  let K := safe_atof strtod c in
  let T := safe_atof strtod d in
  let g1 :=
    if is_challenging_parameter_set S K T 0.04 1.0 0.04 0.4 (-0.7)
    then adapt_fft_parameters g S K T else g in
  let outcome (iv : float) : Z * option float :=
    if iv <? 0.0 then (1%Z, None) else (0%Z, Some iv) in
  let result (ops : list String.string) : Z * option float :=
    let r := main L fft_re strtod atoi atof (MkCommandLine opts ops) in
    (run_status r, run_printed r) in
  safe_atof strtod s = -1.0
  /\ ((0.0 <? mp) = true -> (0.0 <? S) = true -> (0.0 <? K) = true ->
      (0.0 <? T) = true ->
      result [a; b; c; d; s; f]
      = outcome (fst (implied_vol_sv L fft_re g1 mp S K T
                        (-1.0) (safe_atof strtod f)))
      /\ result [a; b; c; d; f; s]
         = outcome (fst (implied_vol_sv L fft_re g1 mp S K T
                           (safe_atof strtod f) (-1.0))))
  /\ result [s; a; b; c; d; f] = (1%Z, None)
  /\ result [a; s; b; c; d; f] = (1%Z, None)
  /\ result [a; b; s; c; d; f] = (1%Z, None)
  /\ result [a; b; c; s; d; f] = (1%Z, None).
Proof.
  intros Hs Ho mp S K T g1 outcome result.
  pose proof (safe_atof_failure strtod s Hs) as Es.
  split; [exact Es|].
  split.
  - intros H0 H1 H2 H3.
    pose proof (run_reaches_solver g a b c d s f H0 H1 H2 H3) as [R1 R2].
    pose proof (run_reaches_solver g a b c d f s H0 H1 H2 H3) as [R3 R4].
    cbv zeta in R1, R2, R3, R4. rewrite Es in R1, R2, R3, R4.
    fold mp S K T in R1, R2, R3, R4. fold g1 in R1, R2, R3, R4.
    unfold result, main. cbn [options operands]. rewrite Ho.
    cbv beta iota zeta. unfold outcome.
    split.
    + rewrite R1, R2.
      set (iv := fst (implied_vol_sv L fft_re g1 mp S K T (-1.0) _)).
      destruct (iv <? 0.0); reflexivity.
    + rewrite R3, R4.
      set (iv := fst (implied_vol_sv L fft_re g1 mp S K T _ (-1.0))).
      destruct (iv <? 0.0); reflexivity.
  - unfold result, main. cbn [options operands]. rewrite Ho.
    cbv beta iota zeta. unfold run. cbn [length nth Z.of_nat].
    cbn [Pos.of_succ_nat Pos.succ Z.eqb Pos.eqb negb].
    rewrite Es.
    change (-1.0 <? 0.0) with true.
    rewrite ?orb_true_r. cbn [orb run_status run_printed].
    repeat split.
Qed.

End Operands.

(** The rate [abc] is not a number: the run goes on with the rate [-1.0]
    and prints a volatility. *)
Lemma unparsed_rate_is_minus_one_witness :
  let run := SV5.main ref_libm SV5.zero_spectrum example_strtod example_atoi
               example_atof
               (SV5.MkCommandLine [SV5.opt_n "16"%string]
                  ["10.45"; "100"; "100"; "1"; "abc"; "0"]%string) in
  let iv := fst (SV5.implied_vol_sv ref_libm SV5.zero_spectrum
                   SV5.small_grid_globals 10.45 100 100 1 (-1.0) 0) in
  (SV5.run_status run, SV5.run_printed run) = (0%Z, Some iv).
Proof.
  cbv zeta.
  destruct (unparsed_rate_is_minus_one ref_libm SV5.zero_spectrum
              example_atoi example_atof example_strtod
              [SV5.opt_n "16"%string] "10.45"%string "100"%string
              "100"%string "1"%string "abc"%string "0"%string
              SV5.small_grid_globals
              (or_intror eq_refl) eq_refl)
    as (_ & H & _).
  destruct (H eq_refl eq_refl eq_refl eq_refl) as [H1 _].
  cbv zeta in H1. rewrite H1.
  vm_compute. reflexivity.
Defined.

(** * Rounding

    The operations of [SpecFloat] on valid numbers, in terms of the scaled
    values of module [Binary64]: a sum, a difference and a product are the
    exact result rounded by [round_val]; [round_val] is monotone and leaves
    every number as it is; comparing two numbers is comparing their
    values. *)

Module Rounding.

Import Binary64 FloatFacts FloatOrder.

#[local] Open Scope Z_scope.

(** *** Shifting a code *)

Lemma pow2_pos (n : Z) : 0 <= n -> 0 < 2 ^ n.
Proof. intros H. apply Z.pow_pos_nonneg; lia. Qed.

Lemma pow2_succ (n : Z) : 0 <= n -> 2 ^ (n + 1) = 2 * 2 ^ n.
Proof. intros H. rewrite Z.pow_add_r by lia. change (2 ^ 1) with 2. lia. Qed.

Lemma shift_code_0 (c : Z) : shift_code 0 c = c.
Proof.
  unfold shift_code. change (2 ^ (0 + 1)) with 2.
  pose proof (Z.div_mod c 2 ltac:(lia)) as E.
  pose proof (Z.mod_pos_bound c 2 ltac:(lia)) as B.
  destruct (Z.eqb_spec (c mod 2) 0); lia.
Qed.

(** Division with remainder, stated for use by [nia]. *)
Lemma div_mod_pos (c P : Z) :
  0 < P -> c = P * (c / P) + c mod P /\ 0 <= c mod P < P.
Proof.
  intros H. split; [apply Z.div_mod; lia|apply Z.mod_pos_bound; exact H].
Qed.

Lemma div_mod_unique (c P q r : Z) :
  0 <= r < P -> c = P * q + r -> c / P = q /\ c mod P = r.
Proof.
  intros Hr E. split.
  - symmetry. apply (Z.div_unique c P q r); [lia|exact E].
  - symmetry. apply (Z.mod_unique c P q r); [lia|exact E].
Qed.

Lemma shift_code_comp (a b c : Z) :
  0 <= a -> 0 <= b ->
  shift_code a (shift_code b c) = shift_code (a + b) c.
Proof.
  intros Ha Hb. unfold shift_code.
  set (P := 2 ^ (b + 1)). set (Q := 2 ^ a).
  assert (HP : 0 < P) by (apply pow2_pos; lia).
  assert (HQ : 0 < Q) by (apply pow2_pos; lia).
  assert (E1 : 2 ^ (a + 1) = 2 * Q) by (apply pow2_succ; lia).
  assert (E2 : 2 ^ (a + b + 1) = P * Q).
  { unfold P, Q. rewrite <- Z.pow_add_r by lia. f_equal. lia. }
  rewrite E1, E2.
  destruct (div_mod_pos c P HP) as [Ec Bc].
  set (q := c / P) in *. set (r := c mod P) in *.
  destruct (div_mod_pos q Q HQ) as [Eq Bq].
  set (q' := q / Q) in *. set (r' := q mod Q) in *.
  set (t := if r =? 0 then 0 else 1).
  assert (Ht : 0 <= t <= 1) by (unfold t; destruct (r =? 0); lia).
  assert (Ht0 : t = 0 <-> r = 0).
  { unfold t. destruct (Z.eqb_spec r 0); lia. }
  destruct (div_mod_unique (2 * q + t) (2 * Q) q' (2 * r' + t)) as [D1 M1];
    [lia|nia|].
  destruct (div_mod_unique c (P * Q) q' (P * r' + r)) as [D2 M2];
    [nia|nia|].
  rewrite D1, M1, D2, M2.
  destruct (Z.eqb_spec (2 * r' + t) 0) as [Z1|Z1];
    destruct (Z.eqb_spec (P * r' + r) 0) as [Z2|Z2]; try reflexivity; exfalso.
  - assert (r' = 0) by lia. assert (t = 0) by lia. apply Z2.
    assert (r = 0) by (apply Ht0; assumption). subst r'. lia.
  - apply Z1. assert (r = 0) by nia. assert (r' = 0) by nia.
    assert (t = 0) by (apply Ht0; assumption). lia.
Qed.

Lemma shr_1_code (mrs : shr_record) :
  0 <= shr_m mrs -> code (shr_1 mrs) = shift_code 1 (code mrs).
Proof.
  destruct mrs as [m r s]. unfold code, shift_code. cbn [shr_m shr_r shr_s].
  change (2 ^ (1 + 1)) with 4. intros H.
  destruct m as [|[p|p|]|p]; try lia;
    destruct r, s; cbn [shr_1 shr_m shr_r shr_s orb].
  all: match goal with
       | |- _ = 2 * (?c / 4) + _ =>
           let E := fresh in let B := fresh in
           pose proof (Z.div_mod c 4 ltac:(lia)) as E;
           pose proof (Z.mod_pos_bound c 4 ltac:(lia)) as B;
           destruct (Z.eqb_spec (c mod 4) 0); lia
       end.
Qed.

Lemma iter_shr_code (p : positive) :
  forall mrs : shr_record,
    0 <= shr_m mrs ->
    code (SpecFloat.iter_pos shr_1 p mrs) = shift_code (Z.pos p) (code mrs).
Proof.
  induction p as [p IH|p IH|]; intros mrs H; cbn [SpecFloat.iter_pos].
  - rewrite IH by (apply iter_shr_1_nonneg, shr_1_nonneg, H).
    rewrite IH by (apply shr_1_nonneg, H).
    rewrite shr_1_code by exact H.
    rewrite !shift_code_comp by lia. f_equal. lia.
  - rewrite IH by (apply iter_shr_1_nonneg, H).
    rewrite IH by exact H.
    rewrite !shift_code_comp by lia. f_equal. lia.
  - apply shr_1_code, H.
Qed.

Lemma shr_code (mrs : shr_record) (e n : Z) :
  0 <= shr_m mrs ->
  code (fst (shr mrs e n)) = shift_code (Z.max 0 n) (code mrs)
  /\ snd (shr mrs e n) = e + Z.max 0 n.
Proof.
  intros H. unfold shr. destruct n as [|p|p]; cbn [fst snd].
  - rewrite shift_code_0. split; [reflexivity|lia].
  - rewrite Z.max_r by lia. split; [apply iter_shr_code, H|reflexivity].
  - rewrite Z.max_l by lia. rewrite shift_code_0. split; [reflexivity|lia].
Qed.

Lemma code_of_loc (m : Z) (l : location) :
  code (shr_record_of_loc m l) = 4 * m + loc_code l.
Proof. destruct l as [|[]]; unfold code; cbn; lia. Qed.

Lemma shr_m_code (mrs : shr_record) : shr_m mrs = code mrs / 4.
Proof.
  destruct mrs as [m r s]. unfold code. cbn [shr_m shr_r shr_s].
  apply (Z.div_unique _ 4 m ((if r then 2 else 0) + (if s then 1 else 0))).
  - destruct r, s; lia.
  - lia.
Qed.

Lemma round_nearest_even_code (mrs : shr_record) :
  round_nearest_even (shr_m mrs) (loc_of_shr_record mrs) = round_code (code mrs).
Proof.
  destruct mrs as [m r s]. unfold round_code, code. cbn [shr_m shr_r shr_s].
  destruct (div_mod_unique (4 * m + (if r then 2 else 0) + (if s then 1 else 0))
              4 m ((if r then 2 else 0) + (if s then 1 else 0))) as [D M].
  { destruct r, s; lia. }
  { lia. }
  rewrite D, M. rewrite <- Z.negb_even.
  destruct r, s; cbn; try lia.
  destruct (Z.even m); cbn; lia.
Qed.

(** *** Monotonicity and exactness *)

Lemma shift_code_mono (n c1 c2 : Z) :
  0 <= n -> c1 <= c2 -> shift_code n c1 <= shift_code n c2.
Proof.
  intros Hn H. unfold shift_code.
  set (P := 2 ^ (n + 1)).
  assert (HP : 0 < P) by (apply pow2_pos; lia).
  destruct (div_mod_pos c1 P HP) as [E1 B1].
  destruct (div_mod_pos c2 P HP) as [E2 B2].
  assert (D : c1 / P <= c2 / P) by (apply Z.div_le_mono; lia).
  destruct (Z.eqb_spec (c1 mod P) 0); destruct (Z.eqb_spec (c2 mod P) 0);
    try lia.
  destruct (Z.eq_dec (c1 / P) (c2 / P)) as [Q|Q]; [|lia].
  rewrite Q in E1. lia.
Qed.

Lemma shift_code_exact (n j : Z) :
  0 <= n -> shift_code n (4 * (j * 2 ^ n)) = 4 * j.
Proof.
  intros Hn. unfold shift_code. rewrite pow2_succ by lia.
  assert (HP : 0 < 2 ^ n) by (apply pow2_pos; lia).
  destruct (div_mod_unique (4 * (j * 2 ^ n)) (2 * 2 ^ n) (2 * j) 0) as [D M];
    [lia|ring|].
  rewrite D, M, Z.eqb_refl. lia.
Qed.

Lemma shift_code_scale (n j c : Z) :
  0 <= n -> 0 <= j -> shift_code (n + j) (c * 2 ^ j) = shift_code n c.
Proof.
  intros Hn Hj. unfold shift_code.
  replace (n + j + 1) with (j + (n + 1)) by lia.
  rewrite Z.pow_add_r by lia.
  assert (HJ : 0 < 2 ^ j) by (apply pow2_pos; lia).
  assert (HP : 0 < 2 ^ (n + 1)) by (apply pow2_pos; lia).
  rewrite (Z.mul_comm c), Z.div_mul_cancel_l by lia.
  rewrite Zmult_mod_distr_l.
  destruct (Z.eqb_spec (c mod 2 ^ (n + 1)) 0) as [E|E].
  - rewrite E, Z.mul_0_r. reflexivity.
  - destruct (Z.eqb_spec (2 ^ j * (c mod 2 ^ (n + 1))) 0) as [F|F]; [|reflexivity].
    exfalso. apply E. nia.
Qed.

Lemma shift_code_quot (n m : Z) :
  0 <= n -> shift_code n (4 * m) / 4 = m / 2 ^ n.
Proof.
  intros Hn. unfold shift_code. rewrite pow2_succ by lia.
  assert (HP : 0 < 2 ^ n) by (apply pow2_pos; lia).
  destruct (div_mod_pos m (2 ^ n) HP) as [E B].
  set (a := m / 2 ^ n) in *. set (b := m mod 2 ^ n) in *.
  destruct (div_mod_pos (4 * m) (2 * 2 ^ n) ltac:(lia)) as [E4 B4].
  set (u := 4 * m / (2 * 2 ^ n)) in *. set (v := (4 * m) mod (2 * 2 ^ n)) in *.
  assert (U : 2 * a <= u <= 2 * a + 1) by nia.
  symmetry. apply (Z.div_unique _ 4 a (2 * u + (if v =? 0 then 0 else 1) - 4 * a)).
  - destruct (Z.eqb_spec v 0); lia.
  - lia.
Qed.

Lemma round_code_mono (c1 c2 : Z) : c1 <= c2 -> round_code c1 <= round_code c2.
Proof.
  intros H. unfold round_code.
  destruct (div_mod_pos c1 4 ltac:(lia)) as [E1 B1].
  destruct (div_mod_pos c2 4 ltac:(lia)) as [E2 B2].
  set (q1 := c1 / 4) in *. set (r1 := c1 mod 4) in *.
  set (q2 := c2 / 4) in *. set (r2 := c2 mod 4) in *.
  assert (D : q1 <= q2) by lia.
  destruct (Z.eq_dec q1 q2) as [Q|Q].
  - rewrite Q in *.
    destruct (Z.eqb_spec r1 3), (Z.eqb_spec r2 3), (Z.eqb_spec r1 2),
      (Z.eqb_spec r2 2), (Z.odd q2); cbn; lia.
  - destruct ((r1 =? 3) || (r1 =? 2) && Z.odd q1),
      ((r2 =? 3) || (r2 =? 2) && Z.odd q2); lia.
Qed.

Lemma round_code_exact (j : Z) : round_code (4 * j) = j.
Proof.
  unfold round_code.
  destruct (div_mod_unique (4 * j) 4 j 0) as [D M]; [lia|lia|].
  rewrite D, M. change (0 =? 3) with false. change (0 =? 2) with false.
  cbn [orb andb]. lia.
Qed.

Lemma round_code_bounds (c : Z) : c / 4 <= round_code c <= c / 4 + 1.
Proof.
  unfold round_code. destruct ((_ =? 3) || _); lia.
Qed.


Lemma shift_code_nonneg (n c : Z) : 0 <= n -> 0 <= c -> 0 <= shift_code n c.
Proof.
  intros Hn Hc. unfold shift_code.
  assert (0 <= c / 2 ^ (n + 1)) by (apply Z.div_pos; [lia|apply pow2_pos; lia]).
  destruct (_ =? 0); lia.
Qed.

Lemma shift_code_div4 (n c : Z) :
  0 <= n -> shift_code n c / 4 = c / 4 / 2 ^ n.
Proof.
  intros Hn. unfold shift_code.
  assert (HP : 0 < 2 ^ (n + 1)) by (apply pow2_pos; lia).
  destruct (div_mod_pos c (2 ^ (n + 1)) HP) as [E B].
  set (u := c / 2 ^ (n + 1)) in *. set (v := c mod 2 ^ (n + 1)) in *.
  destruct (div_mod_pos u 2 ltac:(lia)) as [Eu Bu].
  assert (E1 : (2 * u + (if v =? 0 then 0 else 1)) / 4 = u / 2).
  { symmetry.
    apply (Z.div_unique _ 4 (u / 2) (2 * (u mod 2) + (if v =? 0 then 0 else 1))).
    - destruct (v =? 0); lia.
    - lia. }
  rewrite E1. unfold u.
  rewrite !Z.div_div by (try apply pow2_pos; lia).
  f_equal. rewrite pow2_succ by lia. lia.
Qed.

Lemma round_code_nonneg (c : Z) : 0 <= c -> 0 <= round_code c.
Proof.
  intros H. pose proof (round_code_bounds c).
  assert (0 <= c / 4) by (apply Z.div_pos; lia). lia.
Qed.

(** *** Digits *)

Lemma fexp_eq (z : Z) : fexp prec emax z = Z.max (z - 53) (-1074).
Proof. reflexivity. Qed.

Lemma Zdigits2_log2 (m : Z) : 0 < m -> Zdigits2 m = Z.log2 m + 1.
Proof.
  intros H. destruct m as [|p|p]; try lia. cbn [Zdigits2].
  pose proof (digits2_pos_bounds p) as B.
  assert (Z.log2 (Z.pos p) = Z.pos (digits2_pos p) - 1); [|lia].
  apply Z.log2_unique; [lia|].
  replace (Z.succ (Z.pos (digits2_pos p) - 1)) with (Z.pos (digits2_pos p)) by lia.
  exact B.
Qed.

Lemma Zdigits2_nonneg (m : Z) : 0 <= Zdigits2 m.
Proof. destruct m; cbn; lia. Qed.

Lemma Zdigits2_lt_pow2 (m k : Z) :
  0 <= m -> 0 <= k -> m < 2 ^ k -> Zdigits2 m <= k.
Proof.
  intros Hm Hk H. destruct (Z.eq_dec m 0) as [->|N]; [cbn; lia|].
  rewrite Zdigits2_log2 by lia.
  assert (Z.log2 m < k) by (apply Z.log2_lt_pow2; lia). lia.
Qed.


Lemma Zdigits2_bounds (m : Z) :
  0 < m -> 2 ^ (Zdigits2 m - 1) <= m < 2 ^ Zdigits2 m.
Proof.
  intros H. rewrite Zdigits2_log2 by lia.
  replace (Z.log2 m + 1 - 1) with (Z.log2 m) by lia.
  replace (Z.log2 m + 1) with (Z.succ (Z.log2 m)) by lia.
  apply Z.log2_spec. exact H.
Qed.

Lemma div_pow2_lt (m d n : Z) :
  0 <= m -> 0 <= n -> 0 <= d -> m < 2 ^ d -> m / 2 ^ n < 2 ^ (Z.max 0 (d - n)).
Proof.
  intros Hm Hn Hd H.
  assert (HP : 0 < 2 ^ n) by (apply pow2_pos; lia).
  apply Z.div_lt_upper_bound; [exact HP|].
  rewrite <- Z.pow_add_r by lia.
  apply Z.lt_le_trans with (1 := H).
  apply Z.pow_le_mono_r; lia.
Qed.

Lemma div_pow2_ge (m d n : Z) :
  0 <= n -> n <= d -> 2 ^ d <= m -> 2 ^ (d - n) <= m / 2 ^ n.
Proof.
  intros Hn Hd H.
  assert (HP : 0 < 2 ^ n) by (apply pow2_pos; lia).
  apply Z.div_le_lower_bound; [exact HP|].
  rewrite <- Z.pow_add_r by lia.
  replace (n + (d - n)) with d by lia. exact H.
Qed.

(** *** [binary_round_aux] on codes *)

Section Aux.

Variables (s : bool) (m e : Z) (l : location).
Hypothesis Hm : 0 <= m.

Let n := Z.max 0 (fexp prec emax (Zdigits2 m + e) - e).
Let m1 := round_code (shift_code n (4 * m + loc_code l)).
Let e1 := e + n.
Let n1 := Z.max 0 (fexp prec emax (Zdigits2 m1 + e1) - e1).

Lemma loc_code_bounds : 0 <= loc_code l <= 3.
Proof. destruct l as [|[]]; cbn; lia. Qed.

Lemma aux_m1_nonneg : 0 <= m1.
Proof.
  pose proof loc_code_bounds.
  apply round_code_nonneg, shift_code_nonneg; lia.
Qed.

Lemma bra_code :
  binary_round_aux prec emax s m e l
  = match m1 / 2 ^ n1 with
    | 0 => S754_zero s
    | Z.pos p =>
        if e1 + n1 <=? emax - prec then S754_finite s p (e1 + n1)
        else S754_infinity s
    | Z.neg _ => S754_nan
    end.
Proof.
  unfold binary_round_aux, shr_fexp.
  pose proof loc_code_bounds as Hl.
  assert (H0 : 0 <= shr_m (shr_record_of_loc m l)) by (destruct l as [|[]]; exact Hm).
  destruct (shr_code (shr_record_of_loc m l) e
              (fexp prec emax (Zdigits2 m + e) - e) H0) as [C1 E1].
  destruct (shr (shr_record_of_loc m l) e _) as [mrs' e']. cbn [fst snd] in C1, E1.
  rewrite round_nearest_even_code, C1, code_of_loc.
  fold n in C1, E1 |- *. fold m1. subst e'. fold e1.
  assert (H1 : 0 <= shr_m (shr_record_of_loc m1 loc_Exact)) by exact aux_m1_nonneg.
  destruct (shr_code (shr_record_of_loc m1 loc_Exact) e1
              (fexp prec emax (Zdigits2 m1 + e1) - e1) H1) as [C2 E2].
  destruct (shr (shr_record_of_loc m1 loc_Exact) e1 _) as [mrs'' e''].
  cbn [fst snd] in C2, E2. fold n1 in C2, E2. subst e''.
  rewrite (shr_m_code mrs''), C2, code_of_loc. cbn [loc_code].
  rewrite Z.add_0_r, shift_code_div4 by (unfold n1; lia).
  replace (4 * m1 / 4) with m1
    by (apply (Z.div_unique _ 4 m1 0); lia).
  reflexivity.
Qed.

Lemma aux_floor : m / 2 ^ n <= m1 <= m / 2 ^ n + 1.
Proof.
  pose proof loc_code_bounds as Hl.
  pose proof (round_code_bounds (shift_code n (4 * m + loc_code l))) as B.
  rewrite shift_code_div4 in B by (unfold n; lia).
  replace ((4 * m + loc_code l) / 4) with m in B
    by (apply (Z.div_unique _ 4 m (loc_code l)); lia).
  exact B.
Qed.

(** The second shift drops no bit, and the mantissa that comes out has at
    most 53 digits. *)
Lemma aux_second :
  0 <= n1 <= 1 /\ m1 / 2 ^ n1 * 2 ^ n1 = m1 /\ m1 / 2 ^ n1 < 2 ^ 53.
Proof.
  pose proof aux_floor as Fl. pose proof aux_m1_nonneg as N1.
  pose proof (Zdigits2_nonneg m) as Dm.
  assert (Hn : 0 <= n) by (unfold n; lia).
  assert (Hn1 : 0 <= n1) by (unfold n1; lia).
  destruct (Z_le_gt_dec e (fexp prec emax (Zdigits2 m + e))) as [Hc|Hc].
  - (* the first shift is the canonical one *)
    assert (En : n = fexp prec emax (Zdigits2 m + e) - e) by (unfold n; lia).
    rewrite fexp_eq in En, Hc.
    assert (B1 : m / 2 ^ n < 2 ^ 53).
    { destruct (Z.eq_dec m 0) as [Z0|Z0].
      - rewrite Z0, Z.div_0_l by (apply Z.pow_nonzero; lia). reflexivity.
      - pose proof (Zdigits2_bounds m ltac:(lia)) as [_ Bm].
        pose proof (div_pow2_lt m (Zdigits2 m) n Hm Hn Dm Bm) as B.
        apply Z.lt_le_trans with (1 := B).
        apply Z.pow_le_mono_r; lia. }
    assert (B2 : m1 <= 2 ^ 53) by lia.
    destruct (Z.eq_dec m1 (2 ^ 53)) as [Q|Q].
    + assert (D1 : Zdigits2 m1 = 54) by (rewrite Q; reflexivity).
      assert (E1 : n1 = 1) by (unfold n1; rewrite fexp_eq, D1; unfold e1; lia).
      rewrite E1, Q. split; [lia|]. split; reflexivity.
    + assert (D1 : Zdigits2 m1 <= 53) by (apply Zdigits2_lt_pow2; lia).
      assert (E1 : n1 = 0) by (unfold n1; rewrite fexp_eq; unfold e1; lia).
      rewrite E1. change (2 ^ 0) with 1. rewrite Z.div_1_r. lia.
  - (* no first shift *)
    assert (En : n = 0) by (unfold n; lia).
    rewrite fexp_eq in Hc.
    rewrite En in Fl. change (2 ^ 0) with 1 in Fl. rewrite Z.div_1_r in Fl.
    assert (Dm52 : Zdigits2 m <= 52) by lia.
    assert (B1 : m1 <= 2 ^ 52).
    { destruct (Z.eq_dec m 0) as [Z0|Z0]; [rewrite Z0 in Fl; lia|].
      pose proof (Zdigits2_bounds m ltac:(lia)) as [_ Bm].
      assert (2 ^ Zdigits2 m <= 2 ^ 52) by (apply Z.pow_le_mono_r; lia).
      lia. }
    assert (D1 : Zdigits2 m1 <= 53)
      by (apply Zdigits2_lt_pow2; [lia|lia|]; change (2 ^ 53) with (2 * 2 ^ 52); lia).
    assert (E1 : n1 = 0) by (unfold n1; rewrite fexp_eq; unfold e1; lia).
    rewrite E1. change (2 ^ 0) with 1. rewrite Z.div_1_r.
    change (2 ^ 53) with (2 * 2 ^ 52). lia.
Qed.

(** In the normal range the mantissa that comes out has 53 digits. *)
Lemma aux_normal :
  0 < m -> e <= fexp prec emax (Zdigits2 m + e) -> -1074 < e1 ->
  2 ^ 52 <= m1 / 2 ^ n1.
Proof.
  intros Hpos Hc He1.
  pose proof aux_floor as Fl. pose proof aux_second as ([Hn1 _] & Ex & Up).
  assert (En : n = fexp prec emax (Zdigits2 m + e) - e) by (unfold n; lia).
  rewrite fexp_eq in En, Hc. unfold e1 in He1.
  assert (Ed : n = Zdigits2 m - 53) by lia.
  pose proof (Zdigits2_bounds m Hpos) as [Bm _].
  assert (Hn : 0 <= n) by (unfold n; lia).
  pose proof (div_pow2_ge m (Zdigits2 m - 1) n Hn ltac:(lia) Bm) as B.
  replace (Zdigits2 m - 1 - n) with 52 in B by lia.
  assert (B1 : 2 ^ 52 <= m1) by lia.
  destruct (Z.eq_dec n1 0) as [Q|Q].
  - rewrite Q. change (2 ^ 0) with 1. rewrite Z.div_1_r. exact B1.
  - assert (HP : 0 < 2 ^ n1) by (apply pow2_pos; lia).
    assert (Hm2 : 0 <= m1 / 2 ^ n1) by (apply Z.div_pos; lia).
    (* a second shift happens only at [m1 = 2^53] *)
    assert (D1 : 53 < Zdigits2 m1).
    { unfold n1 in Q. rewrite fexp_eq in Q. unfold e1 in Q. lia. }
    assert (B2 : 2 ^ 53 <= m1).
    { destruct (Z_lt_ge_dec m1 (2 ^ 53)) as [Lt|Ge]; [|lia].
      pose proof (Zdigits2_lt_pow2 m1 53 ltac:(lia) ltac:(lia) Lt). lia. }
    assert (N1 : n1 = 1).
    { assert (m1 <= m / 2 ^ n + 1) by lia.
      assert (m / 2 ^ n < 2 ^ 53).
      { pose proof (Zdigits2_bounds m Hpos) as [_ Bm'].
        pose proof (div_pow2_lt m (Zdigits2 m) n ltac:(lia) Hn
                      (Zdigits2_nonneg m) Bm') as B'.
        replace (Z.max 0 (Zdigits2 m - n)) with 53 in B' by lia. exact B'. }
      assert (Q53 : m1 = 2 ^ 53) by lia.
      unfold n1. rewrite fexp_eq, Q53. change (Zdigits2 (2 ^ 53)) with 54.
      unfold e1. lia. }
    rewrite N1. change (2 ^ 1) with 2.
    apply Z.div_le_lower_bound; [lia|]. change (2 * 2 ^ 52) with (2 ^ 53). exact B2.
Qed.

End Aux.


(** *** Rounding a magnitude *)

Lemma grid_exp_nonneg (X : Z) : 0 <= grid_exp X.
Proof. unfold grid_exp, bias. lia. Qed.

Lemma round_mag_nonneg (X : Z) : 0 <= X -> 0 <= round_mag X.
Proof.
  intros H. unfold round_mag.
  pose proof (grid_exp_nonneg X) as K.
  apply Z.mul_nonneg_nonneg.
  - apply round_code_nonneg, shift_code_nonneg; lia.
  - apply Z.lt_le_incl, pow2_pos, K.
Qed.

Lemma round_mag_exact (j k : Z) :
  grid_exp (j * 2 ^ k) = k -> round_mag (j * 2 ^ k) = j * 2 ^ k.
Proof.
  intros E. unfold round_mag. rewrite E.
  pose proof (grid_exp_nonneg (j * 2 ^ k)) as K. rewrite E in K.
  rewrite shift_code_exact, round_code_exact by exact K. reflexivity.
Qed.

Lemma round_mag_upper (X j : Z) :
  X <= j * 2 ^ grid_exp X -> round_mag X <= j * 2 ^ grid_exp X.
Proof.
  intros H. unfold round_mag.
  pose proof (grid_exp_nonneg X) as K.
  apply Z.mul_le_mono_nonneg_r; [apply Z.lt_le_incl, pow2_pos, K|].
  rewrite <- (round_code_exact j). apply round_code_mono.
  rewrite <- (shift_code_exact (grid_exp X) j) by exact K.
  apply shift_code_mono; [exact K|lia].
Qed.

Lemma round_mag_lower (X j : Z) :
  j * 2 ^ grid_exp X <= X -> j * 2 ^ grid_exp X <= round_mag X.
Proof.
  intros H. unfold round_mag.
  pose proof (grid_exp_nonneg X) as K.
  apply Z.mul_le_mono_nonneg_r; [apply Z.lt_le_incl, pow2_pos, K|].
  rewrite <- (round_code_exact j) at 1. apply round_code_mono.
  rewrite <- (shift_code_exact (grid_exp X) j) by exact K.
  apply shift_code_mono; [exact K|lia].
Qed.

Lemma log2_upper (X : Z) : 0 <= X -> X < 2 ^ (Z.log2 X + 1).
Proof.
  intros H. destruct (Z.eq_dec X 0) as [->|N]; [reflexivity|].
  replace (Z.log2 X + 1) with (Z.succ (Z.log2 X)) by lia.
  apply Z.log2_spec. lia.
Qed.

Lemma round_mag_mono (X Y : Z) :
  0 <= X -> X <= Y -> round_mag X <= round_mag Y.
Proof.
  intros H0 H.
  pose proof (Z.log2_le_mono X Y H) as Hl.
  pose proof (grid_exp_nonneg X) as KX. pose proof (grid_exp_nonneg Y) as KY.
  destruct (Z.eq_dec (grid_exp X) (grid_exp Y)) as [E|E].
  - unfold round_mag. rewrite E.
    apply Z.mul_le_mono_nonneg_r; [apply Z.lt_le_incl, pow2_pos, KY|].
    apply round_code_mono, shift_code_mono; [exact KY|lia].
  - assert (EY : grid_exp Y = Z.log2 Y - 52) by (unfold grid_exp in *; lia).
    assert (LX : Z.log2 X < Z.log2 Y) by (unfold grid_exp in *; lia).
    assert (KL : grid_exp X < Z.log2 Y - 52) by (unfold grid_exp in *; lia).
    set (L := Z.log2 Y) in *.
    assert (HY : 0 < Y).
    { destruct (Z_lt_le_dec 0 Y) as [?|Le]; [assumption|].
      assert (Y = 0) by lia. subst Y. unfold L in LX. cbn in LX.
      pose proof (Z.log2_nonneg X). lia. }
    assert (BY : 2 ^ L <= Y) by (apply Z.log2_spec; exact HY).
    assert (BX : X < 2 ^ L).
    { apply Z.lt_le_trans with (1 := log2_upper X H0).
      apply Z.pow_le_mono_r; lia. }
    apply Z.le_trans with (2 ^ L).
    + replace (2 ^ L) with (2 ^ (L - grid_exp X) * 2 ^ grid_exp X)
        by (rewrite <- Z.pow_add_r by lia; f_equal; lia).
      apply round_mag_upper.
      rewrite <- Z.pow_add_r by lia.
      replace (L - grid_exp X + grid_exp X) with L by lia. lia.
    + replace (2 ^ L) with (2 ^ 52 * 2 ^ grid_exp Y)
        by (rewrite <- Z.pow_add_r by lia; f_equal; lia).
      apply round_mag_lower.
      rewrite <- Z.pow_add_r by lia.
      replace (52 + grid_exp Y) with L by lia. exact BY.
Qed.

Lemma top_pos : 0 < top.
Proof. apply pow2_pos. unfold bias. lia. Qed.

Lemma round_val_0 : round_val 0 = 0.
Proof.
  unfold round_val. change (0 <? 0) with false. cbv iota.
  change 0 with (0 * 2 ^ (bias - 1074)) at 1.
  rewrite round_mag_exact by reflexivity.
  pose proof top_pos. lia.
Qed.

Lemma round_val_mono (X Y : Z) : X <= Y -> round_val X <= round_val Y.
Proof.
  intros H. unfold round_val. pose proof top_pos as T.
  destruct (Z.ltb_spec X 0) as [NX|NX]; destruct (Z.ltb_spec Y 0) as [NY|NY].
  - pose proof (round_mag_mono (- Y) (- X) ltac:(lia) ltac:(lia)). lia.
  - pose proof (round_mag_nonneg (- X) ltac:(lia)).
    pose proof (round_mag_nonneg Y NY). lia.
  - lia.
  - pose proof (round_mag_mono X Y NX H). lia.
Qed.

Lemma round_val_opp (X : Z) : round_val (- X) = - round_val X.
Proof.
  destruct (Z.eq_dec X 0) as [->|N]; [cbn [Z.opp]; rewrite round_val_0; reflexivity|].
  unfold round_val.
  destruct (Z.ltb_spec X 0); destruct (Z.ltb_spec (- X) 0); try lia.
  rewrite Z.opp_involutive. reflexivity.
Qed.

Lemma grid_exp_scaled (p e : Z) :
  0 < p -> 0 <= e + bias ->
  grid_exp (p * 2 ^ (e + bias)) = fexp prec emax (Zdigits2 p + e) + bias.
Proof.
  intros Hp He. unfold grid_exp.
  rewrite Z.log2_mul_pow2 by lia.
  rewrite fexp_eq, Zdigits2_log2 by exact Hp. unfold bias in *. lia.
Qed.

(** *** The value of a rounded result *)

Lemma val_finite_lt_top (s : bool) (m : positive) (e : Z) :
  Z.pos m < 2 ^ 53 -> e <= 971 -> 0 <= e + bias ->
  Z.pos m * 2 ^ (e + bias) < top.
Proof.
  intros Hm He Hb. unfold top.
  replace (1024 + bias) with (53 + (971 + bias)) by lia.
  rewrite (Z.pow_add_r 2 53 (971 + bias)) by (unfold bias; lia).
  assert (0 < 2 ^ (e + bias)) by (apply pow2_pos; lia).
  assert (2 ^ (e + bias) <= 2 ^ (971 + bias)) by (apply Z.pow_le_mono_r; lia).
  nia.
Qed.

Lemma bra_exact_val (s : bool) (p e : Z) :
  0 < p -> 0 <= e + bias -> e <= fexp prec emax (Zdigits2 p + e) ->
  val (binary_round_aux prec emax s p e loc_Exact)
  = cond_Zopp s (Z.min (round_mag (p * 2 ^ (e + bias))) top).
Proof.
  intros Hp He Hc.
  rewrite (bra_code s p e loc_Exact ltac:(lia)).
  pose proof (aux_second p e loc_Exact ltac:(lia)) as ([Hn1 Hn1'] & Ex & Up).
  pose proof (aux_normal p e loc_Exact ltac:(lia) Hp Hc) as Nm.
  pose proof (aux_m1_nonneg p e loc_Exact ltac:(lia)) as N1.
  cbv zeta in *. cbn [loc_code] in *. rewrite Z.add_0_r in *.
  set (n := Z.max 0 (fexp prec emax (Zdigits2 p + e) - e)) in *.
  assert (En : n = fexp prec emax (Zdigits2 p + e) - e) by (unfold n; lia).
  set (m1 := round_code (shift_code n (4 * p))) in *.
  set (e1 := e + n) in *.
  set (n1 := Z.max 0 (fexp prec emax (Zdigits2 m1 + e1) - e1)) in *.
  assert (RM : round_mag (p * 2 ^ (e + bias)) = m1 * 2 ^ (e1 + bias)).
  { unfold round_mag. rewrite grid_exp_scaled by assumption.
    replace (fexp prec emax (Zdigits2 p + e) + bias) with (n + (e + bias)) by lia.
    rewrite Z.mul_assoc, shift_code_scale by lia.
    fold m1. f_equal. f_equal. unfold e1. lia. }
  rewrite RM.
  assert (HP1 : 0 < 2 ^ n1) by (apply pow2_pos; lia).
  assert (He1 : 0 <= e1 + bias) by (unfold e1; lia).
  assert (V : m1 * 2 ^ (e1 + bias) = m1 / 2 ^ n1 * 2 ^ (e1 + n1 + bias)).
  { replace (e1 + n1 + bias) with (n1 + (e1 + bias)) by lia.
    rewrite (Z.pow_add_r 2 n1 (e1 + bias)), Z.mul_assoc, Ex by lia. reflexivity. }
  destruct (m1 / 2 ^ n1) as [|q|q] eqn:Q.
  - assert (m1 = 0) by lia. rewrite H. cbn [val]. pose proof top_pos.
    rewrite Z.mul_0_l, Z.min_l by lia. destruct s; reflexivity.
  - change (emax - prec) with 971.
    destruct (Z.leb_spec (e1 + n1) 971) as [Le|Gt]; cbn [val].
    + rewrite V.
      rewrite Z.min_l; [reflexivity|].
      apply Z.lt_le_incl, val_finite_lt_top; [exact s|lia|lia|lia].
    + rewrite V. rewrite Z.min_r; [reflexivity|].
      assert (N : 2 ^ 52 <= Z.pos q)
        by (apply Nm; lia).
      unfold top. replace (1024 + bias) with (52 + (972 + bias)) by lia.
      rewrite (Z.pow_add_r 2 52 (972 + bias)) by (unfold bias; lia).
      assert (2 ^ (972 + bias) <= 2 ^ (e1 + n1 + bias))
        by (apply Z.pow_le_mono_r; lia).
      assert (0 < 2 ^ (972 + bias)) by (apply pow2_pos; unfold bias; lia).
      nia.
  - exfalso. assert (0 <= m1 / 2 ^ n1) by (apply Z.div_pos; lia). lia.
Qed.

Lemma binary_round_val (s : bool) (m : positive) (e : Z) :
  0 <= e + bias ->
  val (binary_round prec emax s m e)
  = cond_Zopp s (Z.min (round_mag (Z.pos m * 2 ^ (e + bias))) top).
Proof.
  intros He. unfold binary_round.
  change (Z.pos (digits2_pos m)) with (Zdigits2 (Z.pos m)).
  set (F := fexp prec emax (Zdigits2 (Z.pos m) + e)).
  assert (HF : -1074 <= F) by (unfold F; rewrite fexp_eq; lia).
  destruct (Z_lt_ge_dec F e) as [Lt|Ge].
  - pose proof (shl_align_fst m e F ltac:(lia)) as Em.
    assert (Ee : snd (shl_align m e F) = F).
    { unfold shl_align. destruct (F - e) eqn:D; try lia. reflexivity. }
    destruct (shl_align m e F) as [mz ez]. cbn [fst snd] in Em, Ee. subst ez.
    assert (Dz : Zdigits2 (Z.pos mz) = Zdigits2 (Z.pos m) + (e - F)).
    { rewrite !Zdigits2_log2 by lia. rewrite Em.
      rewrite Z.log2_mul_pow2 by lia. lia. }
    rewrite bra_exact_val.
    + rewrite Em. f_equal. f_equal. f_equal.
      rewrite <- Z.mul_assoc, <- Z.pow_add_r by (unfold bias in *; lia).
      f_equal. f_equal. lia.
    + lia.
    + unfold bias in *. lia.
    + rewrite Dz. replace (Zdigits2 (Z.pos m) + (e - F) + F)
        with (Zdigits2 (Z.pos m) + e) by lia.
      fold F. lia.
  - assert (E : shl_align m e F = (m, e)).
    { unfold shl_align. destruct (F - e) eqn:D; try lia; reflexivity. }
    rewrite E. apply bra_exact_val; [lia|exact He|fold F; lia].
Qed.

Lemma binary_normalize_val (M e : Z) (sz : bool) :
  0 <= e + bias ->
  val (binary_normalize prec emax M e sz) = round_val (M * 2 ^ (e + bias)).
Proof.
  intros He. assert (HP : 0 < 2 ^ (e + bias)) by (apply pow2_pos; exact He).
  destruct M as [|p|p]; cbn [binary_normalize].
  - rewrite Z.mul_0_l, round_val_0. reflexivity.
  - rewrite binary_round_val by exact He. unfold round_val.
    destruct (Z.ltb_spec (Z.pos p * 2 ^ (e + bias)) 0); [nia|reflexivity].
  - rewrite binary_round_val by exact He. unfold round_val.
    destruct (Z.ltb_spec (Z.neg p * 2 ^ (e + bias)) 0); [|nia].
    cbn [cond_Zopp]. f_equal. f_equal. f_equal. lia.
Qed.


(** *** Valid numbers *)

Lemma bounded_spec (m : positive) (e : Z) :
  bounded prec emax m e = true ->
  -1074 <= e <= 971
  /\ fexp prec emax (Zdigits2 (Z.pos m) + e) = e
  /\ Z.pos m < 2 ^ 53
  /\ (-1074 < e -> 2 ^ 52 <= Z.pos m).
Proof.
  unfold bounded, canonical_mantissa. intros H.
  apply andb_prop in H. destruct H as [H1 H2].
  apply Z.eqb_eq in H1. apply Z.leb_le in H2.
  change (emax - prec) with 971 in H2.
  change (Z.pos (digits2_pos m)) with (Zdigits2 (Z.pos m)) in H1.
  pose proof H1 as H1'. rewrite fexp_eq in H1'.
  pose proof (Zdigits2_bounds (Z.pos m) ltac:(lia)) as [Bl Bu].
  repeat split; try lia; try exact H1.
  - apply Z.lt_le_trans with (1 := Bu). apply Z.pow_le_mono_r; lia.
  - intros He. replace (Zdigits2 (Z.pos m) - 1) with 52 in Bl by lia. exact Bl.
Qed.

Lemma val_mag_fix (m : positive) (e : Z) :
  bounded prec emax m e = true ->
  round_mag (Z.pos m * 2 ^ (e + bias)) = Z.pos m * 2 ^ (e + bias)
  /\ 0 < Z.pos m * 2 ^ (e + bias) < top.
Proof.
  intros H. destruct (bounded_spec m e H) as (He & Hc & Hm & _).
  assert (Hb : 0 <= e + bias) by (unfold bias; lia).
  split.
  - apply round_mag_exact. rewrite grid_exp_scaled by lia. rewrite Hc. reflexivity.
  - split.
    + assert (0 < 2 ^ (e + bias)) by (apply pow2_pos; lia). nia.
    + apply val_finite_lt_top; [exact true|lia|lia|lia].
Qed.

Lemma round_mag_top : round_mag top = top.
Proof.
  unfold top. change (1024 + bias) with (52 + (972 + bias)).
  rewrite (Z.pow_add_r 2 52 (972 + bias)) by (unfold bias; lia).
  apply round_mag_exact.
  unfold grid_exp. rewrite Z.log2_mul_pow2 by (unfold bias; lia).
  change (Z.log2 (2 ^ 52)) with 52. unfold bias. lia.
Qed.

(** A valid number is its own rounding. *)
Lemma round_val_fix (f : spec_float) :
  valid_binary f = true -> round_val (val f) = val f.
Proof.
  destruct f as [s|s| |s m e]; cbn [valid_binary val]; intros H.
  - apply round_val_0.
  - pose proof top_pos as T. destruct s; cbn [cond_Zopp].
    + rewrite round_val_opp. apply (f_equal Z.opp). unfold round_val.
      destruct (Z.ltb_spec top 0); [lia|]. rewrite round_mag_top. lia.
    + unfold round_val.
      destruct (Z.ltb_spec top 0); [lia|]. rewrite round_mag_top. lia.
  - apply round_val_0.
  - destruct (val_mag_fix m e H) as [Fx [Lo Hi]].
    destruct s; cbn [cond_Zopp].
    + rewrite round_val_opp. apply (f_equal Z.opp). unfold round_val.
      destruct (Z.ltb_spec (Z.pos m * 2 ^ (e + bias)) 0); [lia|]. rewrite Fx. lia.
    + unfold round_val.
      destruct (Z.ltb_spec (Z.pos m * 2 ^ (e + bias)) 0); [lia|]. rewrite Fx. lia.
Qed.

Lemma val_mag_lt (m1 m2 : positive) (e1 e2 : Z) :
  bounded prec emax m1 e1 = true -> bounded prec emax m2 e2 = true ->
  e1 < e2 ->
  Z.pos m1 * 2 ^ (e1 + bias) < Z.pos m2 * 2 ^ (e2 + bias).
Proof.
  intros H1 H2 He.
  pose proof (smaller_exponent m1 m2 e1 e2 H1 H2 He) as S.
  destruct (bounded_spec m1 e1 H1) as (B1 & _).
  replace (e2 + bias) with ((e2 - e1) + (e1 + bias)) by lia.
  rewrite (Z.pow_add_r 2 (e2 - e1) (e1 + bias)) by (unfold bias; lia).
  assert (0 < 2 ^ (e1 + bias)) by (apply pow2_pos; unfold bias; lia).
  nia.
Qed.

Lemma val_mag_compare (m1 m2 : positive) (e1 e2 : Z) :
  bounded prec emax m1 e1 = true -> bounded prec emax m2 e2 = true ->
  match (e1 ?= e2) with
  | Lt => Lt
  | Gt => Gt
  | Eq => Pos.compare_cont Eq m1 m2
  end
  = (Z.pos m1 * 2 ^ (e1 + bias) ?= Z.pos m2 * 2 ^ (e2 + bias)).
Proof.
  intros H1 H2. symmetry.
  destruct (Z.compare_spec e1 e2) as [E|E|E].
  - subst e2. destruct (bounded_spec m1 e1 H1) as (B1 & _).
    assert (0 < 2 ^ (e1 + bias)) by (apply pow2_pos; unfold bias; lia).
    change (Pos.compare_cont Eq m1 m2) with (Z.pos m1 ?= Z.pos m2).
    destruct (Z.compare_spec (Z.pos m1) (Z.pos m2)) as [C|C|C].
    + rewrite C. apply Z.compare_refl.
    + apply Z.compare_lt_iff. nia.
    + apply Z.compare_gt_iff. nia.
  - apply Z.compare_lt_iff. apply val_mag_lt; assumption.
  - apply Z.compare_gt_iff. apply val_mag_lt; assumption.
Qed.

(** On valid numbers the comparison of IEEE-754 is the comparison of the
    values. *)
Lemma val_compare (a b : spec_float) :
  valid_binary a = true -> valid_binary b = true ->
  a <> S754_nan -> b <> S754_nan ->
  SFcompare a b = Some (val a ?= val b).
Proof.
  pose proof top_pos as T.
  destruct a as [sa|sa| |sa ma ea], b as [sb|sb| |sb mb eb];
    cbn [valid_binary SFcompare val]; intros Va Vb Na Nb; try congruence;
    try (destruct (val_mag_fix ma ea Va) as [_ [La Ua]]);
    try (destruct (val_mag_fix mb eb Vb) as [_ [Lb Ub]]).
  - reflexivity.
  - f_equal. symmetry. destruct sb; cbn [cond_Zopp];
      [apply Z.compare_gt_iff|apply Z.compare_lt_iff]; lia.
  - f_equal. symmetry. destruct sb; cbn [cond_Zopp];
      [apply Z.compare_gt_iff|apply Z.compare_lt_iff]; lia.
  - f_equal. symmetry. destruct sa; cbn [cond_Zopp];
      [apply Z.compare_lt_iff|apply Z.compare_gt_iff]; lia.
  - f_equal. symmetry. destruct sa, sb; cbn [cond_Zopp];
      try apply Z.compare_refl;
      [apply Z.compare_lt_iff|apply Z.compare_gt_iff]; lia.
  - f_equal. symmetry. destruct sa; cbn [cond_Zopp];
      [apply Z.compare_lt_iff|apply Z.compare_gt_iff]; destruct sb; cbn [cond_Zopp]; lia.
  - f_equal. symmetry. destruct sa; cbn [cond_Zopp];
      [apply Z.compare_lt_iff|apply Z.compare_gt_iff]; lia.
  - f_equal. symmetry. destruct sb; cbn [cond_Zopp];
      [apply Z.compare_gt_iff|apply Z.compare_lt_iff]; destruct sa; cbn [cond_Zopp]; lia.
  - f_equal. destruct sa, sb; cbn [cond_Zopp].
    + rewrite Z.compare_opp. rewrite <- (val_mag_compare mb ma eb ea Vb Va).
      rewrite (Z.compare_antisym eb ea).
      destruct (eb ?= ea); cbn [CompOpp]; try reflexivity.
      rewrite Pos.compare_cont_antisym. reflexivity.
    + symmetry. apply Z.compare_lt_iff. lia.
    + symmetry. apply Z.compare_gt_iff. lia.
    + apply val_mag_compare; assumption.
Qed.

(** *** Addition, subtraction and multiplication *)

Lemma aligned_val (s : bool) (m : positive) (e ez : Z) :
  ez <= e -> 0 <= ez + bias ->
  cond_Zopp s (Z.pos (fst (shl_align m e ez))) * 2 ^ (ez + bias)
  = cond_Zopp s (Z.pos m * 2 ^ (e + bias)).
Proof.
  intros H Hb. rewrite shl_align_fst by exact H.
  replace (e + bias) with ((e - ez) + (ez + bias)) by lia.
  rewrite (Z.pow_add_r 2 (e - ez) (ez + bias)) by lia.
  destruct s; cbn [cond_Zopp]; lia.
Qed.


Lemma SFsub_val (a b : spec_float) :
  valid_binary a = true -> valid_binary b = true ->
  finite_or_zero a -> finite_or_zero b ->
  val (SFsub prec emax a b) = round_val (val a - val b).
Proof.
  destruct a as [sa|sa| |sa ma ea], b as [sb|sb| |sb mb eb];
    cbn [finite_or_zero]; intros Va Vb Fa Fb; try contradiction.
  - destruct sa, sb; cbn [SFsub val Z.sub Z.add Z.opp]; rewrite round_val_0;
      reflexivity.
  - pose proof (round_val_fix (S754_finite sb mb eb) Vb) as Fx.
    cbn [SFsub val] in *. rewrite Z.sub_0_l, round_val_opp, Fx.
    destruct sb; cbn [negb cond_Zopp]; lia.
  - cbn [SFsub]. rewrite <- (round_val_fix _ Va) at 1.
    cbn [val]. rewrite Z.sub_0_r. reflexivity.
  - cbn [SFsub]. cbv zeta. cbn [valid_binary] in Va, Vb.
    destruct (bounded_spec ma ea Va) as (Ba & _).
    destruct (bounded_spec mb eb Vb) as (Bb & _).
    rewrite binary_normalize_val by (unfold bias; lia).
    f_equal. rewrite Z.mul_sub_distr_r.
    rewrite !aligned_val by (unfold bias; lia). reflexivity.
Qed.




(** *** A quotient that is at most one *)



End Rounding.

(** ** The same facts on [float] *)

Module FloatValue.

Import Binary64 Rounding FloatFacts FloatOrder.

Lemma cmp_val (x y : float) :
  is_nan x = false -> is_nan y = false ->
  SFcompare (Prim2SF x) (Prim2SF y) = Some (fval x ?= fval y)%Z.
Proof.
  rewrite !is_nan_false. intros Hx Hy. unfold fval.
  apply val_compare; try assumption; apply Prim2SF_valid.
Qed.


Lemma ltb_val (x y : float) :
  is_nan x = false -> is_nan y = false ->
  ((x <? y) = true <-> (fval x < fval y)%Z).
Proof.
  intros Hx Hy. rewrite FloatAxioms.ltb_spec. unfold SFltb.
  rewrite (cmp_val x y Hx Hy).
  destruct (Z.compare_spec (fval x) (fval y)); split; intros; try lia;
    try reflexivity; try discriminate.
Qed.










End FloatValue.

(** ** The midpoint of a bracket stays in the bracket *)

Module Midpoint.

Import Binary64 Rounding FloatFacts FloatOrder FloatValue.





End Midpoint.

(** ** The anchor and the reported volatility *)

Section AnchorRange.

Import SV5 FloatFacts FloatOrder Midpoint.

Variable L : Libm.
Variable fft_re : FFTJob -> Z -> float.




End AnchorRange.

(** ** Interpolating between two cached prices *)

Module Interpolation.

Import Binary64 Rounding FloatFacts FloatOrder FloatValue.

Lemma round_val_bounds (X : Z) : (- top <= round_val X <= top)%Z.
Proof.
  unfold round_val. pose proof top_pos.
  destruct (Z.ltb_spec X 0).
  - pose proof (round_mag_nonneg (- X) ltac:(lia)). lia.
  - pose proof (round_mag_nonneg X ltac:(lia)). lia.
Qed.

Lemma val_bounds (f : spec_float) :
  valid_binary f = true -> (- top <= val f <= top)%Z.
Proof.
  intros V. rewrite <- (round_val_fix f V). apply round_val_bounds.
Qed.

(** A valid number whose value reaches [top] is [+infinity]. *)
Lemma val_top (f : spec_float) :
  valid_binary f = true -> f <> S754_nan -> (top <= val f)%Z ->
  f = S754_infinity false.
Proof.
  pose proof top_pos as T.
  destruct f as [s|s| |s m e]; cbn [valid_binary val]; intros V N H;
    try congruence; try lia.
  - destruct s; cbn [cond_Zopp] in H; [lia|reflexivity].
  - destruct (val_mag_fix m e V) as [_ B]. destruct s; cbn [cond_Zopp] in H; lia.
Qed.

Lemma val_bottom (f : spec_float) :
  valid_binary f = true -> f <> S754_nan -> (val f <= - top)%Z ->
  f = S754_infinity true.
Proof.
  pose proof top_pos as T.
  destruct f as [s|s| |s m e]; cbn [valid_binary val]; intros V N H;
    try congruence; try lia.
  - destruct s; cbn [cond_Zopp] in H; [reflexivity|lia].
  - destruct (val_mag_fix m e V) as [_ B]. destruct s; cbn [cond_Zopp] in H; lia.
Qed.

Lemma val_inside (f : spec_float) :
  valid_binary f = true -> f <> S754_nan -> (- top < val f < top)%Z ->
  finite_or_zero f.
Proof.
  pose proof top_pos as T.
  destruct f as [s|s| |s m e]; cbn [valid_binary val finite_or_zero];
    intros V N H; try congruence; try exact I.
  destruct s; cbn [cond_Zopp] in H; lia.
Qed.

Lemma SFsub_fz_not_nan (x z : spec_float) :
  finite_or_zero x -> finite_or_zero z -> SFsub prec emax x z <> S754_nan.
Proof.
  destruct x as [sx|sx| |sx mx ex], z as [sz|sz| |sz mz ez];
    cbn [finite_or_zero SFsub]; intros Hx Hz; try contradiction;
    try discriminate; try apply binary_normalize_not_nan.
  destruct sx, sz; discriminate.
Qed.



(** *** NaN is contagious *)

Lemma nan_sub_l (x y : float) : is_nan x = true -> is_nan (x - y) = true.
Proof.
  rewrite !is_nan_spec, sub_spec. intros ->. reflexivity.
Qed.

Lemma nan_sub_r (x y : float) : is_nan y = true -> is_nan (x - y) = true.
Proof.
  rewrite !is_nan_spec, sub_spec. intros ->.
  destruct (Prim2SF x); reflexivity.
Qed.





Lemma nan_not_ltb (x y : float) : is_nan x = true -> (x <? y) = false.
Proof.
  rewrite is_nan_spec, FloatAxioms.ltb_spec. intros ->. reflexivity.
Qed.



End Interpolation.

(** ** The prices the cache holds and returns *)

Section CachedPrices.

Import SV5 FloatFacts FloatOrder Interpolation.

Variable L : Libm.
Variable fft_re : FFTJob -> Z -> float.







End CachedPrices.


(** ** The sign of a difference *)

Module Difference.

Import Binary64 Rounding FloatFacts FloatOrder FloatValue Interpolation.

(** Every value is a multiple of the smallest positive one. *)
Lemma val_step (f : spec_float) :
  valid_binary f = true -> exists k : Z, val f = (k * 2 ^ (bias - 1074))%Z.
Proof.
  destruct f as [s|s| |s m e]; cbn [valid_binary val]; intros V.
  - exists 0%Z. reflexivity.
  - exists (cond_Zopp s (2 ^ 2098))%Z. unfold top.
    replace (1024 + bias)%Z with (2098 + (bias - 1074))%Z by (unfold bias; lia).
    rewrite (Z.pow_add_r 2 2098 (bias - 1074)) by (unfold bias; lia).
    destruct s; cbn [cond_Zopp]; lia.
  - exists 0%Z. reflexivity.
  - destruct (bounded_spec m e V) as (He & _).
    exists (cond_Zopp s (Z.pos m * 2 ^ (e + 1074)))%Z.
    replace (e + bias)%Z with ((e + 1074) + (bias - 1074))%Z by lia.
    rewrite (Z.pow_add_r 2 (e + 1074) (bias - 1074)) by (unfold bias; lia).
    destruct s; cbn [cond_Zopp]; lia.
Qed.

(** A positive multiple of the smallest positive value does not round to
    zero. *)
Lemma round_val_pos (X : Z) :
  (exists k : Z, X = (k * 2 ^ (bias - 1074))%Z) -> (0 < X)%Z ->
  (0 < round_val X)%Z.
Proof.
  intros [k ->] H.
  assert (P : (0 < 2 ^ (bias - 1074))%Z) by (apply pow2_pos; unfold bias; lia).
  assert (K : (1 <= k)%Z) by nia.
  pose proof (round_val_fix (S754_finite false 1 (-1074)) eq_refl) as F.
  cbn [val cond_Zopp] in F.
  replace (-1074 + bias)%Z with (bias - 1074)%Z in F by lia.
  rewrite Z.mul_1_l in F.
  apply Z.lt_le_trans with (round_val (2 ^ (bias - 1074))); [rewrite F; exact P|].
  apply round_val_mono. nia.
Qed.

(** [a - b] is above zero exactly when [b < a]. *)
Lemma SFsub_pos (a b : spec_float) :
  valid_binary a = true -> valid_binary b = true ->
  a <> S754_nan -> b <> S754_nan ->
  (SFsub prec emax a b <> S754_nan /\ (0 < val (SFsub prec emax a b))%Z)
  <-> (val b < val a)%Z.
Proof.
  intros Va Vb Na Nb. pose proof top_pos as T.
  pose proof (val_bounds a Va) as Ba. pose proof (val_bounds b Vb) as Bb.
  destruct (Z_le_gt_dec top (Z.abs (val a))) as [Ai|Af].
  - (* a is an infinity *)
    assert (Ea : a = S754_infinity false \/ a = S754_infinity true).
    { destruct (Z_le_gt_dec 0 (val a)).
      - left. apply val_top; try assumption. lia.
      - right. apply val_bottom; try assumption. lia. }
    destruct Ea as [-> | ->]; cbn [val cond_Zopp] in *.
    + destruct (Z_le_gt_dec top (val b)) as [Bi|Bf].
      * rewrite (val_top b Vb Nb Bi). cbn [SFsub val cond_Zopp].
        split; [intros [E _]; congruence|lia].
      * assert (E : SFsub prec emax (S754_infinity false) b = S754_infinity false).
        { destruct b as [sb|sb| |sb mb eb]; try congruence; try reflexivity.
          destruct sb; [reflexivity|cbn [val cond_Zopp] in Bf; lia]. }
        rewrite E. cbn [val cond_Zopp]. split; [lia|].
        intros _. split; [discriminate|lia].
    + split; [|lia]. intros [N P].
      destruct b as [sb|sb| |sb mb eb]; try congruence;
        cbn [SFsub val cond_Zopp] in N, P; try lia.
      destruct sb; cbn [SFsub val cond_Zopp] in N, P; try congruence; lia.
  - assert (Fa : finite_or_zero a) by (apply val_inside; try assumption; lia).
    destruct (Z_le_gt_dec top (Z.abs (val b))) as [Bi|Bf].
    + assert (Eb : b = S754_infinity false \/ b = S754_infinity true).
      { destruct (Z_le_gt_dec 0 (val b)).
        - left. apply val_top; try assumption. lia.
        - right. apply val_bottom; try assumption. lia. }
      destruct Eb as [-> | ->]; cbn [val cond_Zopp] in *.
      * assert (E : SFsub prec emax a (S754_infinity false) = S754_infinity true).
        { destruct a as [sa|sa| |sa ma ea]; try contradiction; reflexivity. }
        rewrite E. cbn [val cond_Zopp]. split; [lia|lia].
      * assert (E : SFsub prec emax a (S754_infinity true) = S754_infinity false).
        { destruct a as [sa|sa| |sa ma ea]; try contradiction; reflexivity. }
        rewrite E. cbn [val cond_Zopp]. split; [lia|].
        intros _. split; [discriminate|lia].
    + assert (Fb : finite_or_zero b) by (apply val_inside; try assumption; lia).
      rewrite (SFsub_val a b Va Vb Fa Fb).
      split.
      * intros [_ P]. destruct (Z_le_gt_dec (val a) (val b)) as [L|G]; [|lia].
        pose proof (round_val_mono (val a - val b) 0 ltac:(lia)) as M.
        rewrite round_val_0 in M. lia.
      * intros L. split; [apply SFsub_fz_not_nan; assumption|].
        apply round_val_pos; [|lia].
        destruct (val_step a Va) as [ka Ka]. destruct (val_step b Vb) as [kb Kb].
        exists (ka - kb)%Z. rewrite Ka, Kb. ring.
Qed.

Lemma nan_not_ltb_r (x y : float) : is_nan y = true -> (x <? y) = false.
Proof.
  rewrite is_nan_spec, FloatAxioms.ltb_spec. intros ->.
  unfold SFltb. destruct (Prim2SF x); reflexivity.
Qed.

(** The difference [a - b] is above zero exactly when [b < a]. *)
Lemma sub_pos_iff (a b : float) : (0 <? a - b) = (b <? a).
Proof.
  destruct (is_nan a) eqn:Na.
  { rewrite (nan_not_ltb_r 0 (a - b) (nan_sub_l a b Na)).
    rewrite (nan_not_ltb_r b a Na). reflexivity. }
  destruct (is_nan b) eqn:Nb.
  { rewrite (nan_not_ltb_r 0 (a - b) (nan_sub_r a b Nb)).
    rewrite (nan_not_ltb b a Nb). reflexivity. }
  pose proof (SFsub_pos (Prim2SF a) (Prim2SF b) (Prim2SF_valid a)
                (Prim2SF_valid b) (proj1 (is_nan_false a) Na)
                (proj1 (is_nan_false b) Nb)) as P.
  change (SFsub prec emax) with SF64sub in P. rewrite <- (sub_spec a b) in P.
  assert (N0 : is_nan 0 = false) by reflexivity.
  apply eq_true_iff_eq. split.
  - intros H. apply (ltb_val b a Nb Na). apply P.
    destruct (ltb_not_nan _ _ H) as [_ Nd].
    split; [apply is_nan_false; exact Nd|].
    exact (proj1 (ltb_val 0 (a - b) N0 Nd) H).
  - intros H. apply (ltb_val b a Nb Na) in H. apply P in H.
    destruct H as [Nd H]. apply is_nan_false in Nd.
    apply (ltb_val 0 (a - b) N0 Nd). exact H.
Qed.

End Difference.

(** ** [bs_call] near zero volatility-time, continued *)

Section NearZeroVolTime.

Import IV2 FloatFacts FloatOrder Interpolation Difference.

Variable L : Libm.

(** X2: for positive [S], [K], [T] and [0 < sigma < 0.0001], [bs_call]
    returns the intrinsic value with both discount factors: it is above zero
    exactly when the discounted strike [K e^(-rT)] is below the discounted
    spot [S e^(-qT)], it is then their difference, and it is [0] in every
    other case (a NaN from [exp] included); it is never NaN. *)
Theorem bs_call_tiny_sigma (S K T r q sigma : float) :
  (0 <? sigma) = true -> (0 <? T) = true -> (0 <? S) = true -> (0 <? K) = true ->
  (sigma <? 0.0001) = true ->
  let spot := S * c_exp L (- q * T) in
  let strike := K * c_exp L (- r * T) in
  (0 <? bs_call L S K T r q sigma) = (strike <? spot)
  /\ ((strike <? spot) = true -> bs_call L S K T r q sigma = spot - strike)
  /\ ((strike <? spot) = false -> bs_call L S K T r q sigma = 0.0)
  /\ is_nan (bs_call L S K T r q sigma) = false.
Proof.
  intros Hs HT HS HK Hsmall spot strike.
  assert (E : bs_call L S K T r q sigma
              = if strike <? spot then spot - strike else 0.0).
  { unfold bs_call.
    rewrite (ltb_antisym _ _ Hs), (ltb_antisym _ _ HT),
      (ltb_antisym _ _ HS), (ltb_antisym _ _ HK), Hsmall.
    reflexivity. }
  rewrite E. pose proof (sub_pos_iff spot strike) as P.
  destruct (strike <? spot) eqn:C.
  - split; [exact P|]. split; [reflexivity|]. split; [discriminate|].
    apply (ltb_not_nan _ _ P).
  - repeat split; try reflexivity. discriminate.
Qed.

(** X3: for positive [S], [K], [T] and [sigma >= 0.0001], when
    [sqrt(T)] or [sigma sqrt(T)] is below [DBL_EPSILON], [bs_call] is above
    zero exactly when the discounted strike [K e^(-rT)] is below the spot
    [S] itself, it is then [S - K e^(-rT)], and it is [0] in every other
    case; it is never NaN, and it is the same whatever the dividend yield
    is: the spot is not discounted. *)
Theorem bs_call_guarded_branches (S K T r q sigma : float) :
  (0 <? sigma) = true -> (0 <? T) = true -> (0 <? S) = true -> (0 <? K) = true ->
  (sigma <? 0.0001) = false ->
  (sqrt T <? DBL_EPSILON) || (sigma * sqrt T <? DBL_EPSILON) = true ->
  let strike := K * c_exp L (- r * T) in
  (0 <? bs_call L S K T r q sigma) = (strike <? S)
  /\ ((strike <? S) = true -> bs_call L S K T r q sigma = S - strike)
  /\ ((strike <? S) = false -> bs_call L S K T r q sigma = 0.0)
  /\ is_nan (bs_call L S K T r q sigma) = false
  /\ forall q' : float,
       bs_call L S K T r q' sigma = bs_call L S K T r q sigma.
Proof.
  intros Hs HT HS HK Hbig Hguard strike.
  assert (E : forall q0, bs_call L S K T r q0 sigma = fmax 0.0 (S - strike)).
  { intros q0. unfold bs_call.
    rewrite (ltb_antisym _ _ Hs), (ltb_antisym _ _ HT),
      (ltb_antisym _ _ HS), (ltb_antisym _ _ HK), Hbig.
    cbn [orb].
    destruct (sqrt T <? DBL_EPSILON); [reflexivity|].
    cbn [orb] in Hguard. rewrite Hguard. reflexivity. }
  assert (F : fmax 0.0 (S - strike)
              = if strike <? S then S - strike else 0.0).
  { pose proof (sub_pos_iff S strike) as P. unfold fmax.
    change (is_nan 0.0) with false. cbv iota.
    destruct (is_nan (S - strike)) eqn:N.
    - rewrite (nan_not_ltb_r 0 _ N) in P. rewrite <- P. reflexivity.
    - change 0.0 with 0 in *. rewrite P.
      destruct (strike <? S); reflexivity. }
  split; [|split; [|split; [|split]]].
  - rewrite (E q), F. pose proof (sub_pos_iff S strike) as P.
    destruct (strike <? S); [exact P|reflexivity].
  - intros C. rewrite (E q), F, C. reflexivity.
  - intros C. rewrite (E q), F, C. reflexivity.
  - rewrite (E q), F. pose proof (sub_pos_iff S strike) as P.
    destruct (strike <? S); [apply (ltb_not_nan _ _ P)|reflexivity].
  - intros q'. rewrite (E q'), (E q). reflexivity.
Qed.

End NearZeroVolTime.

(** At [sigma = 0.00009] the first branch applies. *)
Lemma bs_call_tiny_sigma_witness :
  (0 <? IV2.bs_call ref_libm 100 50 1 0.05 0.02 0.00009) = true
  /\ IV2.bs_call ref_libm 100 50 1 0.05 0.02 0.00009
     = 100 * c_exp ref_libm (- 0.02 * 1) - 50 * c_exp ref_libm (- 0.05 * 1).
Proof.
  destruct (bs_call_tiny_sigma ref_libm 100 50 1 0.05 0.02 0.00009
              eq_refl eq_refl eq_refl eq_refl eq_refl) as (H1 & H2 & _).
  cbv zeta in H1, H2.
  assert (C : (50 * c_exp ref_libm (- 0.05 * 1)
               <? 100 * c_exp ref_libm (- 0.02 * 1)) = true)
    by (vm_compute; reflexivity).
  split; [rewrite H1; exact C|exact (H2 C)].
Defined.

(** At [T = 1e-24], [sigma = 0.0001] the second guard applies, and the
    dividend yield [1e24] plays no part. *)
Lemma bs_call_guarded_branches_witness :
  IV2.bs_call ref_libm 100 50 1e-24 0 1e24 0.0001
  = 100 - 50 * c_exp ref_libm (- 0 * 1e-24)
  /\ IV2.bs_call ref_libm 100 50 1e-24 0 0 0.0001
     = IV2.bs_call ref_libm 100 50 1e-24 0 1e24 0.0001.
Proof.
  destruct (bs_call_guarded_branches ref_libm 100 50 1e-24 0 1e24 0.0001
              eq_refl eq_refl eq_refl eq_refl eq_refl eq_refl)
    as (_ & H2 & _ & _ & H5).
  cbv zeta in H2.
  split; [apply H2; vm_compute; reflexivity|apply H5].
Defined.
